(** * Temporal aggregation and classification engine of the author visualisation

    Shallow embedding of the aggregation cache, the classification queries
    ([countsFor], [mainSubfieldFor], [isActiveBy], [interdisciplinarity],
    [groupInterdisciplinarity]), the cluster layout, the phantom edges, the
    flow (Sankey) aggregation and the filter predicate of [main_viz.js],
    followed by the loading of the authors, the handlers of the controls
    and the force view of [js/sankey.js].

    Conventions of the embedding:
    - a JavaScript object used as a dictionary is a [gmap]; [Object.entries]
      is [map_to_list], and every [for ... of Object.entries(o)] loop is a
      left fold over that list;
    - counts are integers ([Z]); rational results (interdisciplinarity,
      opacity) are computed in [Q]; angles and coordinates are real numbers;
    - a year key of a yearly table is kept after [Number(yStr)]: [Some y] for
      a key that converts to the integer [y], [None] for a key that converts
      to [NaN]; the keys of [yearly_fields], which the code also reads by
      their text, are kept as a [YearKey]. *)

From Stdlib Require Import ZArith QArith Reals Lqa Lra String List.
From stdpp Require Import gmap strings list fin_maps sorting pretty.

Open Scope Z_scope.

(** ** Data model *)

(** [mainMode]: ['year'] or ['entire']. *)
Inductive Mode := Year | Entire.

(** The [fieldType] argument of [groupInterdisciplinarity]: ['subfield'], or
    anything else (the caller passes ['external']). *)
Inductive FieldType := Subfield | External.

(** A JavaScript number as the filter sees it: [None] is [NaN]. *)
Definition jsnum := option Q.

(** [a._cache]: four year-indexed tables. *)
Record Cache := {
  cache_year : gmap Z (gmap string Z);
  cache_entire : gmap Z (gmap string Z);
  cache_sankeyYear : gmap Z (gmap string Z);
  cache_sankeyEntire : gmap Z (gmap string Z)
}.

(** A key of [yearly_fields] as the code reads it, through [Number(yStr)]
    and through the text itself: [Decimal y] is the text [String(y)] of the
    integer [y]; [Other n] is any other text, with [n] what [Number] makes
    of it ([Some 2020] for the text [02020], [None] for a text that converts
    to [NaN]). *)
Inductive YearKey := Decimal (y : Z) | Other (n : option Z).

(** [Number(yStr)] *)
Definition keyNumber (k : YearKey) : option Z :=
  match k with
  | Decimal y => Some y
  | Other n => n
  end.

(** The entries of a table with their keys after [Number(yStr)]. *)
Definition numbered (tbl : list (YearKey * gmap string Z))
    : list (option Z * gmap string Z) :=
  (λ e, (keyNumber e.1, e.2)) <$> tbl.

(** One element of [authorsRaw]. [yearly] and [yearly_fields] are the
    entries of the yearly tables. *)
Record Author := {
  id : string;
  given_name : string;
  family_name : string;
  name : string;
  institution : string;
  hindex : jsnum;
  i10index : jsnum;
  works_count : jsnum;
  cited_by_count : jsnum;
  yearly : list (option Z * gmap string Z);
  yearly_fields : list (YearKey * gmap string Z);
  _cache : option Cache
}.

(** ** JavaScript helpers *)

(** [Object.entries(o)] *)
Definition entries {A} (o : gmap string A) : list (string * A) := map_to_list o.

(** [Object.values(o)] *)
Definition values {A} (o : gmap string A) : list A := (entries o).*2.

(** [Object.keys(t).map(Number)] on a year-indexed table *)
Definition yearKeys {A} (t : gmap Z A) : list Z := (map_to_list t).*1.

(** [Number(c || 0)] on an integer count *)
Definition numberOr0 (c : Z) : Z := if Z.eqb c 0 then 0 else c.

(** [(o[k] || 0)] *)
Definition getOr0 (o : gmap string Z) (k : string) : Z :=
  numberOr0 (default 0 (o !! k)).

(** [Math.max(...l)]; only called on non-empty lists. *)
Definition Math_max (l : list Z) : Z :=
  match l with
  | [] => 0
  | v :: l' => foldl Z.max v l'
  end.

(** [d3.sum(l)] *)
Definition d3_sum (l : list Z) : Z := foldl Z.add 0 l.

(** ** Temporal aggregation cache *)

(** Inner loop of the per-year build:
    [for (const [sf, c] of Object.entries(sfObj)) tbl[sf] = Number(c || 0)]. *)
Definition copyCounts (sfObj : gmap string Z) : gmap string Z :=
  foldl (λ tbl '(sf, c), <[sf := numberOr0 c]> tbl) ∅ (entries sfObj).

(** Per-year tables: keys that are [NaN] are skipped, every other key gets a
    fresh table filled from the entry. *)
Definition buildYear (tbl : list (option Z * gmap string Z)) : gmap Z (gmap string Z) :=
  foldl (λ cache '(yk, sfObj),
           match yk with
           | None => cache
           | Some y => <[y := copyCounts sfObj]> cache
           end) ∅ tbl.

(** [running[sf] = (running[sf] || 0) + Number(val || 0)] for every entry. *)
Definition addCounts (running counts : gmap string Z) : gmap string Z :=
  foldl (λ r '(sf, val), <[sf := getOr0 r sf + numberOr0 val]> r) running (entries counts).

(** [Object.keys(t).map(Number).filter(n => !isNaN(n)).sort((u, v) => u - v)] *)
Definition yearsSorted {A} (t : gmap Z A) : list Z := merge_sort Z.le (yearKeys t).

(** One iteration of the cumulative loop: add the year's counts to the
    running table and store a copy under the year. *)
Definition cumulStep (yearT : gmap Z (gmap string Z))
    (st : gmap string Z * gmap Z (gmap string Z)) (y : Z)
    : gmap string Z * gmap Z (gmap string Z) :=
  let running := addCounts st.1 (default ∅ (yearT !! y)) in
  (running, <[y := running]> st.2).

Definition buildEntire (yearT : gmap Z (gmap string Z)) : gmap Z (gmap string Z) :=
  (foldl (cumulStep yearT) (∅, ∅) (yearsSorted yearT)).2.

Definition buildCache (a : Author) : Cache :=
  let cy := buildYear (yearly a) in
  let sy := buildYear (numbered (yearly_fields a)) in
  {| cache_year := cy; cache_entire := buildEntire cy;
     cache_sankeyYear := sy; cache_sankeyEntire := buildEntire sy |}.

(** The body of [authorsRaw.forEach(a => { a._cache = ... })]. *)
Definition precompute (a : Author) : Author :=
  {| id := id a; given_name := given_name a; family_name := family_name a;
     name := name a; institution := institution a;
     hindex := hindex a; i10index := i10index a;
     works_count := works_count a; cited_by_count := cited_by_count a;
     yearly := yearly a; yearly_fields := yearly_fields a;
     _cache := Some (buildCache a) |}.

(** ** Classification engine *)

(** Cumulative lookup shared by [countsFor] and [updateSankey]: the snapshot
    at the greatest cached year [<= year], [{}] when there is none. *)
Definition lookupUpTo (entire : gmap Z (gmap string Z)) (year : Z) : gmap string Z :=
  let years := filter (λ y, y ≤ year) (yearKeys entire) in
  match years with
  | [] => ∅
  | _ => default ∅ (entire !! Math_max years)
  end.

Definition countsFor (author : Author) (year : Z) (mode : Mode) : gmap string Z :=
  match _cache author with
  | None => ∅
  | Some c =>
      match mode with
      | Year => default ∅ (cache_year c !! year)
      | Entire => lookupUpTo (cache_entire c) year
      end
  end.

(** [yearlyFields[String(year)]]: the entry whose key is the text
    [String(year)]; a key with another text is not found, whatever number it
    converts to. *)
Fixpoint lookupYearKey (tbl : list (YearKey * gmap string Z)) (year : Z)
    : option (gmap string Z) :=
  match tbl with
  | [] => None
  | (Decimal y, o) :: tbl' => if decide (y = year) then Some o else lookupYearKey tbl' year
  | (Other _, _) :: tbl' => lookupYearKey tbl' year
  end.

(** [agg[pair] = (agg[pair] || 0) + val] for every entry. *)
Definition addPairs (agg pairs : gmap string Z) : gmap string Z :=
  foldl (λ r '(key, val), <[key := getOr0 r key + val]> r) agg (entries pairs).

(** [countsForFields]: the field-pair table is re-aggregated on every
    ['entire'] call; [+y > year] is false for a [NaN] key, so such an entry
    is added too. *)
Definition countsForFields (author : Author) (year : Z) (mode : Mode) : gmap string Z :=
  let yearlyFields := yearly_fields author in
  match mode with
  | Year => default ∅ (lookupYearKey yearlyFields year)
  | Entire =>
      foldl (λ agg '(yk, pairs),
               match keyNumber yk with
               | Some y => if decide (y > year) then agg else addPairs agg pairs
               | None => addPairs agg pairs
               end) ∅ yearlyFields
  end.

(** [1 - maxVal / sumVal] over the strictly positive values, [0] when there
    is none. *)
Definition concentration (vals : list Z) : Q :=
  match vals with
  | [] => 0%Q
  | _ => (1 - inject_Z (Math_max vals) / inject_Z (d3_sum vals))%Q
  end.

(** [Object.values(o).filter(v => v > 0)]; the [.map(Number)] of
    [interdisciplinarity] is the identity on numbers. *)
Definition positiveValues (o : gmap string Z) : list Z :=
  filter (λ v, v > 0) (values o).

Definition interdisciplinarity (author : Author) (year : Z) (mode : Mode) : Q :=
  let counts := countsFor author year mode in
  concentration (positiveValues counts).

(** The [authors.forEach] loop of [groupInterdisciplinarity]. *)
Definition aggCountsOf (authors : list Author) (year : Z) (mode : Mode)
    (fieldType : FieldType) : gmap string Z :=
  foldl (λ aggCounts a,
           let counts := match fieldType with
                         | Subfield => countsFor a year mode
                         | External => countsForFields a year mode
                         end in
           addCounts aggCounts counts) ∅ authors.

Definition groupInterdisciplinarity (authors : list Author) (year : Z) (mode : Mode)
    (fieldType : FieldType) : Q :=
  concentration (positiveValues (aggCountsOf authors year mode fieldType)).

(** [sf < best.sf] on strings: lexicographic order on the code units. *)
Definition strLt (s t : string) : Prop := String.ltb s t = true.
Definition strLe (s t : string) : Prop := String.leb s t = true.

#[global] Instance strLt_dec s t : Decision (strLt s t).
Proof. unfold strLt. apply _. Defined.
#[global] Instance strLe_dec s t : Decision (strLe s t).
Proof. unfold strLe. apply _. Defined.

(** One iteration of the loop of [mainSubfieldFor] on [best = {sf, cnt}]. *)
Definition mainStep (best : string * Z) (e : string * Z) : string * Z :=
  let n := numberOr0 e.2 in
  if bool_decide (n > best.2) || (bool_decide (n = best.2) && String.ltb e.1 best.1)
  then (e.1, n) else best.

Definition mainSubfieldOf (c : gmap string Z) : string :=
  (foldl mainStep ("Unknown"%string, 0) (entries c)).1.

Definition mainSubfieldFor (author : Author) (year : Z) (mode : Mode) : string :=
  mainSubfieldOf (countsFor author year mode).

Definition isActiveBy (author : Author) (year : Z) (mode : Mode) : bool :=
  existsb (λ v, bool_decide (v > 0)) (values (countsFor author year mode)).

(** ** Layout constants ([common.js]) *)

Definition W : Z := 1120.
Definition H : Z := 960.
Definition M_top : Z := 30.
Definition M_right : Z := 20.
Definition M_bottom : Z := 140.
Definition M_left : Z := 20.
Definition innerW : Z := W - M_left - M_right.
Definition innerH : Z := H - M_top - M_bottom.

Definition centerX : R := (IZR innerW / 2)%R.
Definition centerY : R := (IZR innerH / 2 - 40)%R.

(** [Math.min(innerW, innerH) * 0.35] *)
Definition clusterRadius : R := (IZR (Z.min innerW innerH) * (35 / 100))%R.

(** ** View state *)

(** A value of [clusterCenterMap]. *)
Record Center := { center_x : R; center_y : R; center_angle : R }.

(** An element of [nodes]; the position fields belong to the force
    simulation and are left out. *)
Record Node := {
  node_id : string;
  node_author : Author;
  node_subfield : string;
  node_active : bool
}.

(** An element of [phantomData]. *)
Record Phantom := {
  parent : Node;
  subfield : string;
  count : Z;
  tx : R;
  ty : R
}.

(** The module-level variables read and written by the update functions.
    A JavaScript [Map] is a [gmap]. *)
Record State := {
  yearMinAll : Z;
  yearMaxAll : Z;
  filteredAuthors : list Author;
  mainMode : Mode;
  currentYear : Z;
  nodes : list Node;
  clusterKeys : list string;
  clusterCenterMap : gmap string Center;
  phantomData : list Phantom;
  showPhantoms : bool;
  showSankey : bool
}.

(** ** Cluster layout planner *)

(** The [present] set of [computeVisibleSubfields] after the loops. *)
Definition presentSubfields (authors : list Author) (year : Z) (mode : Mode) : gset string :=
  foldl (λ present a,
           foldl (λ pr '(sf, cnt), if decide (cnt > 0) then {[sf]} ∪ pr else pr)
                 present (entries (countsFor a year mode)))
        ∅ authors.

(** [Array.from(present).sort()]: the default sort orders strings by code
    units. *)
Definition computeVisibleSubfields (st : State) (year : Z) : list string :=
  merge_sort strLe (elements (presentSubfields (filteredAuthors st) year (mainMode st))).

(** [(i / N) * 2 * Math.PI - Math.PI / 2] *)
Definition slotAngle (i N : nat) : R := (INR i / INR N * 2 * PI - PI / 2)%R.

Definition centerAt (i N : nat) : Center :=
  let angle := slotAngle i N in
  {| center_x := (centerX + clusterRadius * cos angle)%R;
     center_y := (centerY + clusterRadius * sin angle)%R;
     center_angle := angle |}.

(** [visibleSubfields.forEach((sf, i) => clusterCenterMap.set(sf, ...))],
    started at index [i]. *)
Fixpoint setCenters (N i : nat) (sfs : list string) (m : gmap string Center)
    : gmap string Center :=
  match sfs with
  | [] => m
  | sf :: sfs' => setCenters N (S i) sfs' (<[sf := centerAt i N]> m)
  end.

(** The visible list after [if (visibleSubfields.length === 0) push("Unknown")]. *)
Definition visibleOrUnknown (st : State) (year : Z) : list string :=
  match computeVisibleSubfields st year with
  | [] => ["Unknown"%string]
  | l => l
  end.

(** ** Phantom edges *)

Definition phantomsOfNode (st : State) (year : Z) (n : Node) : list Phantom :=
  if isActiveBy (node_author n) year (mainMode st) then
    let counts := countsFor (node_author n) year (mainMode st) in
    let main := mainSubfieldFor (node_author n) year (mainMode st) in
    entries counts ≫=
      (λ '(sf, cnt),
         if bool_decide (cnt > 0) && bool_decide (sf ≠ main) then
           match clusterCenterMap st !! sf with
           | Some c => [ {| parent := n; subfield := sf; count := numberOr0 cnt;
                            tx := center_x c; ty := center_y c |} ]
           | None => []
           end
         else [])
  else [].

(** [computePhantomsForYear]: the pushes of the two nested loops, in order. *)
Definition computePhantomsForYear (st : State) (year : Z) : list Phantom :=
  nodes st ≫= phantomsOfNode st year.

(** [d3.scaleLinear().domain([d0, d1]).range([r0, r1])] applied to [x]:
    the library normalises [x] to [t = (x - d0) / (d1 - d0)] (the constant
    [0.5] on a degenerate domain) and interpolates [r0 * (1 - t) + r1 * t]. *)
Definition scaleLinear (d0 d1 r0 r1 x : Q) : Q :=
  let t := if Qeq_bool (d1 - d0) 0 then (1 # 2)%Q else ((x - d0) / (d1 - d0))%Q in
  (r0 * (1 - t) + r1 * t)%Q.

(** [counts.length ? d3.max(counts) : 1] *)
Definition maxCountOf (data : list Phantom) : Z :=
  match count <$> data with
  | [] => 1
  | cs => Math_max cs
  end.

Definition opacityScale (data : list Phantom) (c : Z) : Q :=
  scaleLinear 0 (inject_Z (maxCountOf data)) (1 # 100) (30 # 100) (inject_Z c).

Definition setPhantomData (st : State) (data : list Phantom) : State :=
  {| yearMinAll := yearMinAll st; yearMaxAll := yearMaxAll st;
     filteredAuthors := filteredAuthors st; mainMode := mainMode st;
     currentYear := currentYear st; nodes := nodes st;
     clusterKeys := clusterKeys st; clusterCenterMap := clusterCenterMap st;
     phantomData := data;
     showPhantoms := showPhantoms st; showSankey := showSankey st |}.

(** [updatePhantoms]: the new state and the lines that are drawn, each with
    its opacity. *)
Definition updatePhantoms (st : State) : State * list (Phantom * Q) :=
  let data := computePhantomsForYear st (currentYear st) in
  (setPhantomData st data,
   (λ d, (d, opacityScale data (count d))) <$> (if showPhantoms st then data else [])).

(** ** [setYear] *)

Definition nodeOf (st : State) (year : Z) (a : Author) : Node :=
  {| node_id := id a; node_author := a;
     node_subfield := mainSubfieldFor a year (mainMode st);
     node_active := isActiveBy a year (mainMode st) |}.

(** The three passes over [nodes]: refresh in place, append the authors
    that have no node yet, drop the nodes of authors filtered out. *)
Definition refreshNodes (st : State) (year : Z) : list Node :=
  let updated :=
    (λ n, {| node_id := node_id n; node_author := node_author n;
             node_subfield := mainSubfieldFor (node_author n) year (mainMode st);
             node_active := isActiveBy (node_author n) year (mainMode st) |})
      <$> nodes st in
  let existingIds := node_id <$> updated in
  let added := nodeOf st year <$> filter (λ a, id a ∉ existingIds) (filteredAuthors st) in
  let filteredIds := id <$> filteredAuthors st in
  filter (λ n, node_id n ∈ filteredIds) (updated ++ added).

(** [setYear(year, animate)] up to the call of [updatePhantoms]; the year
    is an integer, so [Math.round] leaves it unchanged. *)
Definition setYear (st : State) (year : Z) : State :=
  let year1 := if decide (year < yearMinAll st) then yearMinAll st else year in
  let year2 := if decide (year1 > yearMaxAll st) then yearMaxAll st else year1 in
  let st1 :=
    {| yearMinAll := yearMinAll st; yearMaxAll := yearMaxAll st;
       filteredAuthors := filteredAuthors st; mainMode := mainMode st;
       currentYear := year2; nodes := refreshNodes st year2;
       clusterKeys := clusterKeys st; clusterCenterMap := clusterCenterMap st;
       phantomData := phantomData st;
       showPhantoms := showPhantoms st; showSankey := showSankey st |} in
  let visibleSubfields := visibleOrUnknown st1 year2 in
  let st2 :=
    {| yearMinAll := yearMinAll st1; yearMaxAll := yearMaxAll st1;
       filteredAuthors := filteredAuthors st1; mainMode := mainMode st1;
       currentYear := currentYear st1; nodes := nodes st1;
       clusterKeys := visibleSubfields;
       clusterCenterMap := setCenters (length visibleSubfields) 0 visibleSubfields ∅;
       phantomData := phantomData st1;
       showPhantoms := showPhantoms st1; showSankey := showSankey st1 |} in
  (updatePhantoms st2).1.

(** ** Flow aggregator *)

(** [s.split(sep)] for a separator of at least one character: [skip]
    counts the characters of a matched separator still to be passed over,
    [cur] is the part being read. *)
Fixpoint splitGo (sep : string) (skip : nat) (cur s : string) : list string :=
  match s with
  | EmptyString => [cur]
  | String c s' =>
      match skip with
      | S k => splitGo sep k cur s'
      | O =>
          if String.prefix sep s
          then cur :: splitGo sep (String.length sep - 1) EmptyString s'
          else splitGo sep 0 (cur +:+ String c EmptyString) s'
      end
  end.

Definition split (s sep : string) : list string := splitGo sep 0 EmptyString s.

(** [set.add(x)] on a [Set] kept in insertion order. *)
Definition setAdd (x : string) (l : list string) : list string :=
  if decide (x ∈ l) then l else l ++ [x].

(** An element of [links]. *)
Record Link := { source : string; target : string; value : Z }.

(** The argument given to the Sankey layout: node names, and links whose
    ends are positions in the node list. *)
Record Graph := {
  graph_nodes : list string;
  graph_links : list (option nat * option nat * Z)
}.

(** The pair table of one author for the current year and mode, read
    through [author._sankeyPairs]. *)
Definition sankeyPairsOf (st : State) (author : Author) : gmap string Z :=
  match _cache author with
  | None => ∅
  | Some c =>
      match mainMode st with
      | Year => default ∅ (cache_sankeyYear c !! currentYear st)
      | Entire => lookupUpTo (cache_sankeyEntire c) (currentYear st)
      end
  end.

(** [pairTotals.set(pair, (pairTotals.get(pair) || 0) + v)] for every entry
    with [v > 0]. *)
Definition addPositive (totals pairs : gmap string Z) : gmap string Z :=
  foldl (λ t '(key, val),
           let v := numberOr0 val in
           if decide (v ≤ 0) then t else <[key := getOr0 t key + v]> t)
        totals (entries pairs).

Definition pairTotalsOf (st : State) : gmap string Z :=
  foldl (λ t a, addPositive t (sankeyPairsOf st a)) ∅ (filteredAuthors st).

(** One iteration of the loop that builds [links] and [nodesSet]. *)
Definition linkStep (acc : list Link * list string) (e : string * Z)
    : list Link * list string :=
  match split e.1 "---" with
  | sub :: field :: _ =>
      (acc.1 ++ [ {| source := sub; target := field; value := e.2 |} ],
       setAdd field (setAdd sub acc.2))
  | _ => acc
  end.

Definition linksAndNodes (pairTotals : gmap string Z) : list Link * list string :=
  foldl linkStep ([], []) (entries pairTotals).

(** [nameToIndex.get(name)] *)
Definition nameToIndex (names : list string) (n : string) : option nat :=
  fst <$> list_find (λ x, x = n) names.

(** The graph built from [pairTotals]; [None] when the layers are cleared
    and nothing is drawn. *)
Definition buildGraph (pairTotals : gmap string Z) : option Graph :=
  if decide (size pairTotals = 0%nat) then None
  else
    let '(links, nodesSet) := linksAndNodes pairTotals in
    match links with
    | [] => None
    | _ =>
        Some {| graph_nodes := nodesSet;
                graph_links :=
                  (λ l, (nameToIndex nodesSet (source l),
                         nameToIndex nodesSet (target l), value l)) <$> links |}
    end.

Definition updateSankey (st : State) : option Graph := buildGraph (pairTotalsOf st).

(** ** Filters *)

(** Comparisons of JavaScript numbers: every comparison with [NaN] is false. *)
Definition jsGe (a b : jsnum) : bool :=
  match a, b with Some x, Some y => Qle_bool y x | _, _ => false end.
Definition jsLe (a b : jsnum) : bool :=
  match a, b with Some x, Some y => Qle_bool x y | _, _ => false end.
Definition jsStrictEq (a b : jsnum) : bool :=
  match a, b with Some x, Some y => Qeq_bool x y | _, _ => false end.

(** [s.includes(sub)] *)
Fixpoint includes (s sub : string) : bool :=
  if String.prefix sub s then true
  else match s with
       | EmptyString => false
       | String _ s' => includes s' sub
       end.

(** The values of the filter inputs when [Apply] is clicked. *)
Record FilterInputs := {
  nameFilter : string;
  surnameFilter : string;
  instFilter : string;
  hindex_op : string; hindex_val : string;
  i10_op : string; i10_val : string;
  works_op : string; works_val : string;
  cited_op : string; cited_val : string
}.

Section Filters.
(** The string built-ins the predicate calls: [toLowerCase], [trim] and
    the conversion [Number(numStr)]. *)
Variable toLowerCase : string → string.
Variable trim : string → string.
Variable toNumber : string → jsnum.

(** The loop over [checks]: [false] as soon as one comparison fails. *)
Fixpoint passesChecks (checks : list (string * jsnum * string)) : bool :=
  match checks with
  | [] => true
  | (op, val, numStr) :: rest =>
      if bool_decide (trim numStr = EmptyString) then passesChecks rest
      else
        let num := toNumber numStr in
        if bool_decide (op = ">="%string) && negb (jsGe val num) then false
        else if bool_decide (op = "<="%string) && negb (jsLe val num) then false
        else if bool_decide (op = "="%string) && negb (jsStrictEq val num) then false
        else passesChecks rest
  end.

(** [nameSub && !text.toLowerCase().includes(nameSub)] *)
Definition textRejects (sub text : string) : bool :=
  negb (bool_decide (sub = EmptyString)) && negb (includes (toLowerCase text) sub).

(** The callback given to [authorsRaw.filter]. *)
Definition filterPredicate (ui : FilterInputs) (a : Author) : bool :=
  let nameSub := toLowerCase (trim (nameFilter ui)) in
  let surnameSub := toLowerCase (trim (surnameFilter ui)) in
  let instSub := toLowerCase (trim (instFilter ui)) in
  let hNum := trim (hindex_val ui) in
  let i10Num := trim (i10_val ui) in
  let worksNum := trim (works_val ui) in
  let citedNum := trim (cited_val ui) in
  if textRejects nameSub (name a) then false
  else if textRejects surnameSub (family_name a) then false
  else if textRejects instSub (institution a) then false
  else passesChecks [ (hindex_op ui, hindex a, hNum);
                      (i10_op ui, i10index a, i10Num);
                      (works_op ui, works_count a, worksNum);
                      (cited_op ui, cited_by_count a, citedNum) ].

(** [applyFilters]: the new [filteredAuthors]. *)
Definition applyFilters (ui : FilterInputs) (authorsRaw : list Author) : list Author :=
  filter (λ a, filterPredicate ui a = true) authorsRaw.
End Filters.

(** ** Specification-side definitions *)

Definition sumZ (l : list Z) : Z := foldr Z.add 0 l.

(** The count of category [C] stored for year [y] in a year-indexed table,
    [0] when the year or the category is absent. *)
Definition cntAt (T : gmap Z (gmap string Z)) (y : Z) (C : string) : Z :=
  default 0 (default ∅ (T !! y) !! C).

(** The years that exist in the author's subfield table. *)
Definition tableYears (a : Author) : gset Z := list_to_set (omap fst (yearly a)).

(** The ['year']-mode count of [C] at [y]. *)
Definition yearCount (a : Author) (y : Z) (C : string) : Z :=
  default 0 (countsFor a y Year !! C).

(** Sum of the ['year']-mode counts of [C] over the table years [<= Y]. *)
Definition prefixSum (a : Author) (Y : Z) (C : string) : Z :=
  sumZ ((λ y, yearCount a y C) <$> elements (filter (λ y, y ≤ Y) (tableYears a))).

(** The loop of [mainSubfieldFor] after a prefix of the entries: no count
    seen exceeds the best count, and a positive best count belongs to an
    entry seen whose name precedes every other name with that count. *)
Definition mainInv (pre : list (string * Z)) (best : string * Z) : Prop :=
  0 ≤ best.2
  ∧ (∀ k v, (k, v) ∈ pre → v ≤ best.2)
  ∧ (0 < best.2 →
       (best.1, best.2) ∈ pre
       ∧ ∀ k, (k, best.2) ∈ pre → k = best.1 ∨ strLt best.1 k).

(** The four numeric metrics a filter row can test. *)
Inductive Metric := HIndex | I10Index | WorksCount | CitedByCount.

Definition metricOf (m : Metric) (a : Author) : jsnum :=
  match m with
  | HIndex => hindex a
  | I10Index => i10index a
  | WorksCount => works_count a
  | CitedByCount => cited_by_count a
  end.

Definition opOf (m : Metric) (ui : FilterInputs) : string :=
  match m with
  | HIndex => hindex_op ui
  | I10Index => i10_op ui
  | WorksCount => works_op ui
  | CitedByCount => cited_op ui
  end.

Definition valOf (m : Metric) (ui : FilterInputs) : string :=
  match m with
  | HIndex => hindex_val ui
  | I10Index => i10_val ui
  | WorksCount => works_val ui
  | CitedByCount => cited_val ui
  end.

(** A subfield qualifies when some author of the population holds a
    strictly positive count for it. *)
Definition qualifies (authors : list Author) (year : Z) (mode : Mode) (sf : string) : Prop :=
  ∃ a cnt, a ∈ authors ∧ countsFor a year mode !! sf = Some cnt ∧ 0 < cnt.

(** The count of a pair key in the table [updateSankey] reads from one
    author, [0] when the key is absent. *)
Definition pairCount (st : State) (a : Author) (key : string) : Z :=
  default 0 (sankeyPairsOf st a !! key).

(** The link a surviving pair key stands for. *)
Definition linkOf (e : string * Z) : option Link :=
  match split e.1 "---" with
  | sub :: field :: _ => Some {| source := sub; target := field; value := e.2 |}
  | _ => None
  end.

(** A bipartite graph: the nodes split into a left and a right side, and
    every link goes from a left node to a right node. *)
Definition bipartite (g : Graph) : Prop :=
  ∃ right : nat → bool,
    ∀ i j v, (Some i, Some j, v) ∈ graph_links g → right i = false ∧ right j = true.

(** ** Example data *)

(** An author record with the given yearly tables and metrics left
    missing, as [authorsRaw.map] builds it before the cache is attached. *)
Definition authorOf (ident : string) (subfields : list (option Z * gmap string Z))
    (fields : list (YearKey * gmap string Z)) : Author :=
  {| id := ident; given_name := EmptyString; family_name := EmptyString; name := EmptyString; institution := EmptyString;
     hindex := None; i10index := None; works_count := None; cited_by_count := None;
     yearly := subfields; yearly_fields := fields; _cache := None |}.

(** The author of the round-trip scenario:
    [{2020: {"AI": 3}, 2021: {"AI": 2, "Software": 5}}]. *)
Definition roundTripAuthor : Author :=
  authorOf "A1"
    [ (Some 2020, {[ "AI"%string := 3 ]});
      (Some 2021, <[ "AI"%string := 2 ]> {[ "Software"%string := 5 ]}) ]
    [].

(** An author whose only entry carries the count zero:
    [{2020: {"AI": 0}}]. *)
Definition zeroCountAuthor : Author :=
  authorOf "A1" [ (Some 2020, {[ "AI"%string := 0 ]}) ] [].

(** A filter form asking for [h-index >= 20], every other input empty. *)
Definition hindexAtLeast20 : FilterInputs :=
  {| nameFilter := EmptyString; surnameFilter := EmptyString; instFilter := EmptyString;
     hindex_op := ">="; hindex_val := "20";
     i10_op := ">="; i10_val := EmptyString;
     works_op := ">="; works_val := EmptyString;
     cited_op := ">="; cited_val := EmptyString |}.

(** A view state showing the round-trip author in ['entire'] mode. *)
Definition roundTripState : State :=
  {| yearMinAll := 2020; yearMaxAll := 2021;
     filteredAuthors := [precompute roundTripAuthor]; mainMode := Entire;
     currentYear := 2020; nodes := [];
     clusterKeys := []; clusterCenterMap := ∅; phantomData := [];
     showPhantoms := true; showSankey := false |}.

(** A view state whose population holds no positive count. *)
Definition zeroCountState : State :=
  {| yearMinAll := 2020; yearMaxAll := 2020;
     filteredAuthors := [precompute zeroCountAuthor]; mainMode := Year;
     currentYear := 2020; nodes := [];
     clusterKeys := []; clusterCenterMap := ∅; phantomData := [];
     showPhantoms := true; showSankey := false |}.

(** An author with one secondary subfield in 2020 and two in 2021. *)
Definition phantomAuthor : Author :=
  authorOf "A1"
    [ (Some 2020, <[ "Artificial Intelligence"%string := 5 ]> {[ "Software"%string := 2 ]});
      (Some 2021, <[ "Artificial Intelligence"%string := 5 ]>
                  (<[ "Hardware and Architecture"%string := 4 ]>
                   {[ "Software"%string := 2 ]})) ]
    [].

(** The frames of that author at 2020 and at 2021, in ['year'] mode. *)
Definition phantomFrame (year : Z) : State :=
  setYear {| yearMinAll := 2020; yearMaxAll := 2021;
             filteredAuthors := [precompute phantomAuthor]; mainMode := Year;
             currentYear := 2020; nodes := [];
             clusterKeys := []; clusterCenterMap := ∅; phantomData := [];
             showPhantoms := true; showSankey := false |} year.

(** The aggregate of the flow scenario:
    [{"AI---CS": 5, "Software---CS": 3}]. *)
Definition flowPairs : gmap string Z :=
  <[ "AI---CS"%string := 5 ]> {[ "Software---CS"%string := 3 ]}.

(** A view state whose single author carries those pair counts in 2020. *)
Definition flowState : State :=
  {| yearMinAll := 2020; yearMaxAll := 2020;
     filteredAuthors := [precompute (authorOf "A1" [] [ (Decimal 2020, flowPairs) ])];
     mainMode := Year; currentYear := 2020; nodes := [];
     clusterKeys := []; clusterCenterMap := ∅; phantomData := [];
     showPhantoms := true; showSankey := true |}.

(** A view state whose single author carries the pair counts
    [{"X---X": 1}] in 2020: the same name on both sides of the key. *)
Definition selfLoopState : State :=
  {| yearMinAll := 2020; yearMaxAll := 2020;
     filteredAuthors :=
       [precompute (authorOf "A1" [] [ (Decimal 2020, {[ "X---X"%string := 1 ]}) ])];
     mainMode := Year; currentYear := 2020; nodes := [];
     clusterKeys := []; clusterCenterMap := ∅; phantomData := [];
     showPhantoms := true; showSankey := true |}.

(** ** The uncached queries of [js/sankey.js] *)

(** [countsFor] of [js/sankey.js]: the yearly table is aggregated on every
    call; a [NaN] key is skipped, ['entire'] keeps the years [<= year] and
    ['year'] the entries whose key is [year]. *)
Definition countsForDirect (author : Author) (year : Z) (mode : Mode) : gmap string Z :=
  foldl (λ out '(yk, sfObj),
           match yk with
           | None => out
           | Some y =>
               match mode with
               | Entire => if decide (y > year) then out else addCounts out sfObj
               | Year => if decide (y ≠ year) then out else addCounts out sfObj
               end
           end) ∅ (yearly author).

(** ** Properties of the data read off the tables *)

(** The numeric year keys of a yearly table, in table order. *)
Definition numericKeys (tbl : list (option Z * gmap string Z)) : list Z := omap fst tbl.

(** Every key of the table is the decimal text of an integer. *)
Definition decimalKeys (tbl : list (YearKey * gmap string Z)) : Prop :=
  Forall (λ e, ∃ y, e.1 = Decimal y) tbl.

(** Every count of the table is non-negative. *)
Definition nonNegative (tbl : list (option Z * gmap string Z)) : Prop :=
  ∀ yk o k v, (yk, o) ∈ tbl → o !! k = Some v → 0 ≤ v.

(** The ['entire']-mode count of a category, [0] when absent. *)
Definition entireCount (a : Author) (Y : Z) (C : string) : Z :=
  default 0 (countsFor a Y Entire !! C).

(** The loop of [mainSubfieldFor] while the best count is still [0]: the
    best name is ["Unknown"] or a name seen with count [0], it does not
    follow ["Unknown"], and it precedes every other name seen with count
    [0]. *)
Definition mainInvZero (pre : list (string * Z)) (best : string * Z) : Prop :=
  best.2 = 0 →
  (best.1 = "Unknown"%string ∨ (best.1, 0) ∈ pre)
  ∧ (best.1 = "Unknown"%string ∨ strLt best.1 "Unknown")
  ∧ ∀ k, (k, 0) ∈ pre → k = best.1 ∨ strLt best.1 k.

(** The counts the group metric reads from one author. *)
Definition countsOfType (fieldType : FieldType) (a : Author) (year : Z) (mode : Mode)
    : gmap string Z :=
  match fieldType with
  | Subfield => countsFor a year mode
  | External => countsForFields a year mode
  end.

(** ** Events of the view *)

(** [filteredAuthors = l] *)
Definition setFilteredAuthors (st : State) (l : list Author) : State :=
  {| yearMinAll := yearMinAll st; yearMaxAll := yearMaxAll st;
     filteredAuthors := l; mainMode := mainMode st;
     currentYear := currentYear st; nodes := nodes st;
     clusterKeys := clusterKeys st; clusterCenterMap := clusterCenterMap st;
     phantomData := phantomData st;
     showPhantoms := showPhantoms st; showSankey := showSankey st |}.

(** [mainMode = m] *)
Definition setMainMode (st : State) (m : Mode) : State :=
  {| yearMinAll := yearMinAll st; yearMaxAll := yearMaxAll st;
     filteredAuthors := filteredAuthors st; mainMode := m;
     currentYear := currentYear st; nodes := nodes st;
     clusterKeys := clusterKeys st; clusterCenterMap := clusterCenterMap st;
     phantomData := phantomData st;
     showPhantoms := showPhantoms st; showSankey := showSankey st |}.

(** [updateAll]: in the Sankey view only the flow diagram is redrawn and the
    variables keep their values; in the force view [setYear] runs at the
    current year. *)
Definition updateAll (st : State) : State :=
  if showSankey st then st else setYear st (currentYear st).

(** The click handlers of the two mode buttons. *)
Definition modeClick (m : Mode) (st : State) : State := updateAll (setMainMode st m).

(** [resetFilters] *)
Definition resetFilters (authorsRaw : list Author) (st : State) : State :=
  updateAll (setFilteredAuthors st authorsRaw).

(** The callback of the autoplay interval: one year forward, back to the
    first year after the last. *)
Definition autoplayTick (st : State) : State :=
  let nextYear := currentYear st + 1 in
  let nextYear := if decide (nextYear > yearMaxAll st) then yearMinAll st else nextYear in
  setYear st nextYear.

(** The click handler of [Apply]: the new population, then [setYear] at the
    unchanged year. *)
Definition applyFiltersClick (toLowerCase trim : string → string) (toNumber : string → jsnum)
    (authorsRaw : list Author) (ui : FilterInputs) (st : State) : State :=
  setYear (setFilteredAuthors st (applyFilters toLowerCase trim toNumber ui authorsRaw))
          (currentYear st).

(** The targets given to the two positioning forces:
    [clusterCenterMap.get(d.subfield)?.x ?? centerX] and the same for [y]. *)
Definition targetX (st : State) (n : Node) : R :=
  match clusterCenterMap st !! node_subfield n with
  | Some c => center_x c
  | None => centerX
  end.
Definition targetY (st : State) (n : Node) : R :=
  match clusterCenterMap st !! node_subfield n with
  | Some c => center_y c
  | None => centerY
  end.

(** ** Cluster labels *)

(** [nodes.filter(n => n.active)] *)
Definition activeNodes (st : State) : list Node :=
  filter (λ n, node_active n = true) (nodes st).

(** [counts.get(d) || 0] for the roll-up of the active nodes by subfield. *)
Definition labelCount (st : State) (d : string) : nat :=
  length (filter (λ n, node_subfield n = d) (activeNodes st)).

(** [activeNodes.length || 1] *)
Definition labelTotal (st : State) : nat :=
  match length (activeNodes st) with
  | O => 1%nat
  | n => n
  end.

(** [pct = (counts.get(d) || 0) / total * 100], the value that
    [toFixed(1)] then formats for the label. *)
Definition labelPct (st : State) (d : string) : Q :=
  (inject_Z (Z.of_nat (labelCount st d)) / inject_Z (Z.of_nat (labelTotal st)) * 100)%Q.

Definition sumQ (l : list Q) : Q := foldr Qplus 0%Q l.

(** ** Consistency of the view state *)

(** The filtered authors are loaded authors with distinct ids, every node
    stands for a loaded author under that author's id, and no two nodes
    share an id. *)
Definition viewConsistent (authorsRaw : list Author) (st : State) : Prop :=
  (∀ a, a ∈ filteredAuthors st → a ∈ authorsRaw)
  ∧ NoDup (id <$> filteredAuthors st)
  ∧ (∀ n, n ∈ nodes st → node_author n ∈ authorsRaw ∧ node_id n = id (node_author n))
  ∧ NoDup (node_id <$> nodes st).

(** ** The session *)

(** [showPhantoms = b] *)
Definition setShowPhantoms (st : State) (b : bool) : State :=
  {| yearMinAll := yearMinAll st; yearMaxAll := yearMaxAll st;
     filteredAuthors := filteredAuthors st; mainMode := mainMode st;
     currentYear := currentYear st; nodes := nodes st;
     clusterKeys := clusterKeys st; clusterCenterMap := clusterCenterMap st;
     phantomData := phantomData st;
     showPhantoms := b; showSankey := showSankey st |}.

(** [showSankey = b] *)
Definition setShowSankey (st : State) (b : bool) : State :=
  {| yearMinAll := yearMinAll st; yearMaxAll := yearMaxAll st;
     filteredAuthors := filteredAuthors st; mainMode := mainMode st;
     currentYear := currentYear st; nodes := nodes st;
     clusterKeys := clusterKeys st; clusterCenterMap := clusterCenterMap st;
     phantomData := phantomData st;
     showPhantoms := showPhantoms st; showSankey := b |}.

(** The variables as they are declared once the authors and the year range
    are known: every author is shown, the mode is ['entire'], the year is the
    first one, and there is no node, cluster or phantom edge yet. *)
Definition initialVars (authorsRaw : list Author) (yearMin yearMax : Z) : State :=
  {| yearMinAll := yearMin; yearMaxAll := yearMax;
     filteredAuthors := authorsRaw; mainMode := Entire;
     currentYear := yearMin; nodes := [];
     clusterKeys := []; clusterCenterMap := ∅; phantomData := [];
     showPhantoms := true; showSankey := false |}.

(** The state after the initial render, [setYear(currentYear, false)]. *)
Definition initialState (authorsRaw : list Author) (yearMin yearMax : Z) : State :=
  let st := initialVars authorsRaw yearMin yearMax in
  setYear st (currentYear st).

(** What the user and the timer can do: the two mode buttons, [Apply],
    [Reset], one tick of the autoplay interval, a drag of the slider to a
    rounded year, and the two toggles. *)
Inductive Event :=
  | ModeClick (m : Mode)
  | ApplyClick (ui : FilterInputs)
  | ResetClick
  | AutoplayTick
  | SliderDrag (yr : Z)
  | PhantomToggle
  | VizToggle.

Section Session.
Variable toLowerCase : string → string.
Variable trim : string → string.
Variable toNumber : string → jsnum.
Variable authorsRaw : list Author.

(** The handler of each event, on the variables of the script. *)
Definition handle (ev : Event) (st : State) : State :=
  match ev with
  | ModeClick m => modeClick m st
  | ApplyClick ui => applyFiltersClick toLowerCase trim toNumber authorsRaw ui st
  | ResetClick => resetFilters authorsRaw st
  | AutoplayTick => autoplayTick st
  | SliderDrag yr => setYear st yr
  | PhantomToggle => (updatePhantoms (setShowPhantoms st (negb (showPhantoms st)))).1
  | VizToggle => updateAll (setShowSankey st (negb (showSankey st)))
  end.

(** The handlers run one after the other. *)
Definition run (evs : list Event) (st : State) : State :=
  foldl (λ s ev, handle ev s) st evs.
End Session.

(** The force view shows the current year, mode and population: one node
    per filtered author with the subfield and activity flag of the current
    year and mode, the cluster keys and centers of the current population,
    and the phantom edges of the current nodes. *)
Definition viewCurrent (st : State) : Prop :=
  nodes st ≡ₚ nodeOf st (currentYear st) <$> filteredAuthors st
  ∧ clusterKeys st = visibleOrUnknown st (currentYear st)
  ∧ clusterCenterMap st = setCenters (length (clusterKeys st)) 0 (clusterKeys st) ∅
  ∧ phantomData st = computePhantomsForYear st (currentYear st).

(** What every handler keeps. *)
Definition sessionInv (authorsRaw : list Author) (yearMin yearMax : Z) (st : State) : Prop :=
  viewConsistent authorsRaw st
  ∧ yearMinAll st = yearMin ∧ yearMaxAll st = yearMax
  ∧ yearMin ≤ currentYear st ≤ yearMax
  ∧ clusterKeys st ≠ [] ∧ NoDup (clusterKeys st)
  ∧ (∀ sf, is_Some (clusterCenterMap st !! sf) ↔ sf ∈ clusterKeys st)
  ∧ (showSankey st = false → viewCurrent st).

(** ** Loading *)

(** The loop that fills [allYearsSet]: every key of every yearly table
    that is not [NaN]. *)
Definition allYearsSet (authorsRaw : list Author) : gset Z :=
  foldl (λ s a,
           foldl (λ s '(yk, _), match yk with Some y => {[y]} ∪ s | None => s end)
                 s (yearly a))
        ∅ authorsRaw.

(** [d3.min(l)] and [d3.max(l)]; only called on non-empty lists. *)
Definition d3_min (l : list Z) : Z :=
  match l with
  | [] => 0
  | v :: l' => foldl Z.min v l'
  end.
Definition d3_max (l : list Z) : Z :=
  match l with
  | [] => 0
  | v :: l' => foldl Z.max v l'
  end.

(** [yearMinAll] and [yearMaxAll]; [None] when the script stops at
    ["No years in authors.json"]. *)
Definition yearRange (authorsRaw : list Author) : option (Z * Z) :=
  let allYears := elements (allYearsSet authorsRaw) in
  if decide (size (allYearsSet authorsRaw) = 0%nat) then None
  else Some (d3_min allYears, d3_max allYears).

(** The id given to the record at position [i] of the raw array:
    [`A${i + 1}`]. *)
Definition authorId (i : nat) : string := "A" +:+ pretty (i + 1)%nat.

(** The record built by the callback of [rawArray.map] at position [i]:
    the id is made from the position, the other fields are the values read
    from the raw record. *)
Definition withId (i : nat) (a : Author) : Author :=
  {| id := authorId i; given_name := given_name a; family_name := family_name a;
     name := name a; institution := institution a;
     hindex := hindex a; i10index := i10index a;
     works_count := works_count a; cited_by_count := cited_by_count a;
     yearly := yearly a; yearly_fields := yearly_fields a;
     _cache := _cache a |}.

(** [authorsRaw] once the caches are built. *)
Definition authorsRawOf (rawArray : list Author) : list Author :=
  precompute <$> imap withId rawArray.

(** From the raw array to the initial render: the authors get their ids and
    caches, the year range is discovered, the variables are declared and
    [setYear] runs; [None] when the script stops at one of its two
    messages. *)
Definition load (rawArray : list Author) : option State :=
  if decide (length rawArray = 0%nat) then None
  else
    let authorsRaw := authorsRawOf rawArray in
    match yearRange authorsRaw with
    | None => None
    | Some (yearMin, yearMax) => Some (initialState authorsRaw yearMin yearMax)
    end.

(** ** Reading of the filter *)

(** What a numeric row asks of the value [val] when its threshold converts
    to [num]: each of the three operators asks for its comparison, any
    other operator asks for nothing. *)
Definition rowHolds (op : string) (val num : jsnum) : Prop :=
  (op = ">="%string → jsGe val num = true)
  ∧ (op = "<="%string → jsLe val num = true)
  ∧ (op = "="%string → jsStrictEq val num = true).

Section FilterReading.
Variable toLowerCase : string → string.
Variable trim : string → string.
Variable toNumber : string → jsnum.

(** A text filter is blank or is found in the lower-cased text. *)
Definition textPasses (input text : string) : Prop :=
  let sub := toLowerCase (trim input) in
  sub = EmptyString ∨ includes (toLowerCase text) sub = true.

(** A numeric filter is blank or its row holds of the author's metric. *)
Definition metricPasses (ui : FilterInputs) (a : Author) (m : Metric) : Prop :=
  let numStr := trim (valOf m ui) in
  trim numStr = EmptyString ∨ rowHolds (opOf m ui) (metricOf m a) (toNumber numStr).
End FilterReading.

(** The form after [Reset]: every input empty, the operators as they are. *)
Definition blankForm (ui : FilterInputs) : FilterInputs :=
  {| nameFilter := EmptyString; surnameFilter := EmptyString; instFilter := EmptyString;
     hindex_op := hindex_op ui; hindex_val := EmptyString;
     i10_op := i10_op ui; i10_val := EmptyString;
     works_op := works_op ui; works_val := EmptyString;
     cited_op := cited_op ui; cited_val := EmptyString |}.

(** ** The force view of [js/sankey.js] *)

Module SankeyJs.

(** The dimensions [js/sankey.js] declares for itself: its [H] is [760]. *)
Definition W : Z := 1120.
Definition H : Z := 760.
Definition M_top : Z := 30.
Definition M_right : Z := 20.
Definition M_bottom : Z := 140.
Definition M_left : Z := 20.
Definition innerW : Z := W - M_left - M_right.
Definition innerH : Z := H - M_top - M_bottom.

Definition centerX : R := (IZR innerW / 2)%R.
Definition centerY : R := (IZR innerH / 2 - 40)%R.

(** [Math.min(innerW, innerH) * 0.35] *)
Definition rCluster : R := (IZR (Z.min innerW innerH) * (35 / 100))%R.

(** [mainSubfieldFor] and [isActiveBy] of [js/sankey.js]: the loops of
    [main_viz.js] over the table aggregated on the call. *)
Definition mainSubfieldFor (author : Author) (year : Z) (mode : Mode) : string :=
  mainSubfieldOf (countsForDirect author year mode).

Definition isActiveBy (author : Author) (year : Z) (mode : Mode) : bool :=
  existsb (λ v, bool_decide (v > 0)) (values (countsForDirect author year mode)).

(** The node built for an author by the callback of [filteredAuthors.map]. *)
Definition nodeOf (st : State) (a : Author) : Node :=
  {| node_id := id a; node_author := a;
     node_subfield := mainSubfieldFor a (currentYear st) (mainMode st);
     node_active := isActiveBy a (currentYear st) (mainMode st) |}.

(** [rebuildNodes] *)
Definition rebuildNodes (st : State) : list Node := nodeOf st <$> filteredAuthors st.

Definition computeVisibleSubfields (st : State) (year : Z) : list string :=
  merge_sort strLe
    (elements
       (foldl (λ present a,
                 foldl (λ pr '(sf, cnt), if decide (cnt > 0) then {[sf]} ∪ pr else pr)
                       present (entries (countsForDirect a year (mainMode st))))
              (∅ : gset string) (filteredAuthors st))).

(** [i * angleStep - Math.PI / 2] with
    [angleStep = (2 * Math.PI) / visible.length] *)
Definition stepAngle (i N : nat) : R := (INR i * (2 * PI / INR N) - PI / 2)%R.

Definition centerAt (i N : nat) : Center :=
  let angle := stepAngle i N in
  {| center_x := (centerX + rCluster * cos angle)%R;
     center_y := (centerY + rCluster * sin angle)%R;
     center_angle := angle |}.

(** [visible.forEach((sf, i) => clusterCenterMap.set(sf, ...))], started
    at index [i]. *)
Fixpoint setCenters (N i : nat) (sfs : list string) (m : gmap string Center)
    : gmap string Center :=
  match sfs with
  | [] => m
  | sf :: sfs' => setCenters N (S i) sfs' (<[sf := centerAt i N]> m)
  end.

(** The value set under ["Unknown"] after the loop. *)
Definition unknownCenter : Center :=
  {| center_x := centerX; center_y := centerY; center_angle := 0 |}.

(** The assignments of [updateClustersAndLabels]: the visible subfields get
    their points of the circle, then ["Unknown"] is set to the middle of the
    canvas; the keys are in insertion order. *)
Definition setClusters (st : State) : State :=
  let visible := match computeVisibleSubfields st (currentYear st) with
                 | [] => ["Unknown"%string]
                 | l => l
                 end in
  {| yearMinAll := yearMinAll st; yearMaxAll := yearMaxAll st;
     filteredAuthors := filteredAuthors st; mainMode := mainMode st;
     currentYear := currentYear st; nodes := nodes st;
     clusterKeys := setAdd "Unknown" visible;
     clusterCenterMap :=
       <["Unknown"%string := unknownCenter]> (setCenters (length visible) 0 visible ∅);
     phantomData := phantomData st;
     showPhantoms := showPhantoms st; showSankey := showSankey st |}.

(** The chain of comparisons in the label callback: the text assigned to
    [d_short] for one of the twelve listed names, [None] for any other name,
    for which nothing is assigned. *)
Definition shortNameOf (d : string) : option string :=
  if decide (d = "Artificial Intelligence"%string) then Some "AI"%string
  else if decide (d = "Computational Theory and Mathematics"%string)
       then Some "CT & Math"%string
  else if decide (d = "Computer Graphics and Computer-Aided Design"%string)
       then Some "CG & CAD"%string
  else if decide (d = "Computer Networks and Communications"%string)
       then Some "Net & Comm"%string
  else if decide (d = "Computer Science Applications"%string) then Some "CS App"%string
  else if decide (d = "Computer Vision and Pattern Recognition"%string)
       then Some "CV & PR"%string
  else if decide (d = "Hardware and Architecture"%string) then Some "HW & Arch"%string
  else if decide (d = "Human-Computer Interaction"%string) then Some "HCI"%string
  else if decide (d = "Information Systems"%string) then Some "Info Sys"%string
  else if decide (d = "Signal Processing"%string) then Some "Signal"%string
  else if decide (d = "Software"%string) then Some "Software"%string
  else if decide (d = "Unknown"%string) then Some "Unknown"%string
  else None.

(** The label callback over the keys, in order.  [d_short] is never
    declared: the callback assigns it for a listed name and then reads it,
    and reading it while nothing was ever assigned throws a
    [ReferenceError].  The result is [d_short] afterwards ([None] while it
    does not exist) and whether the callback threw. *)
Fixpoint labelPass (keys : list string) (d_short : option string) : option string * bool :=
  match keys with
  | [] => (d_short, false)
  | d :: rest =>
      let assigned := match shortNameOf d with
                      | Some s => Some s
                      | None => d_short
                      end in
      match assigned with
      | None => (None, true)
      | Some _ => labelPass rest assigned
      end
  end.

(** [computePhantomsForYear]: the pushes of the two nested loops, in order. *)
Definition phantomsOfNode (st : State) (year : Z) (n : Node) : list Phantom :=
  if isActiveBy (node_author n) year (mainMode st) then
    let counts := countsForDirect (node_author n) year (mainMode st) in
    let main := mainSubfieldFor (node_author n) year (mainMode st) in
    entries counts ≫=
      (λ '(sf, cnt),
         if bool_decide (cnt > 0) && bool_decide (sf ≠ main) then
           match clusterCenterMap st !! sf with
           | Some c => [ {| parent := n; subfield := sf; count := numberOr0 cnt;
                            tx := center_x c; ty := center_y c |} ]
           | None => []
           end
         else [])
  else [].

Definition computePhantomsForYear (st : State) (year : Z) : list Phantom :=
  nodes st ≫= phantomsOfNode st year.

(** The variables of [setYear(year, animate)] when the label callback
    runs: the year is clamped, the nodes are rebuilt from the filtered
    authors and [updateClustersAndLabels] has set the centers (the map
    [setYear] fills before that call holds the same points and is replaced
    by it). *)
Definition beforeLabels (st : State) (year : Z) : State :=
  let year1 := if decide (year < yearMinAll st) then yearMinAll st else year in
  let year2 := if decide (year1 > yearMaxAll st) then yearMaxAll st else year1 in
  let st1 :=
    {| yearMinAll := yearMinAll st; yearMaxAll := yearMaxAll st;
       filteredAuthors := filteredAuthors st; mainMode := mainMode st;
       currentYear := year2; nodes := nodes st;
       clusterKeys := clusterKeys st; clusterCenterMap := clusterCenterMap st;
       phantomData := phantomData st;
       showPhantoms := showPhantoms st; showSankey := showSankey st |} in
  let st2 :=
    {| yearMinAll := yearMinAll st1; yearMaxAll := yearMaxAll st1;
       filteredAuthors := filteredAuthors st1; mainMode := mainMode st1;
       currentYear := currentYear st1; nodes := rebuildNodes st1;
       clusterKeys := clusterKeys st1; clusterCenterMap := clusterCenterMap st1;
       phantomData := phantomData st1;
       showPhantoms := showPhantoms st1; showSankey := showSankey st1 |} in
  setClusters st2.

(** [setYear(year, animate)] on the variables and the global [d_short]:
    when the label callback throws the call ends there, otherwise
    [updatePhantoms] sets the phantom data.  The result is the variables,
    [d_short] and whether the call threw. *)
Definition setYear (st : State) (d_short : option string) (year : Z)
    : State * option string * bool :=
  let st3 := beforeLabels st year in
  match labelPass (clusterKeys st3) d_short with
  | (d_short', true) => (st3, d_short', true)
  | (d_short', false) =>
      (setPhantomData st3 (computePhantomsForYear st3 (currentYear st3)), d_short', false)
  end.

End SankeyJs.

(** What the two scripts can be compared on in a node: id, subfield and
    activity flag. *)
Definition nodeView (n : Node) : string * string * bool :=
  (node_id n, node_subfield n, node_active n).

(** * Properties *)

(** ** JavaScript helpers *)

Lemma numberOr0_id c : numberOr0 c = c.
Proof. unfold numberOr0. destruct (Z.eqb_spec c 0); congruence. Qed.

Lemma getOr0_default o k : getOr0 o k = default 0 (o !! k).
Proof. apply numberOr0_id. Qed.

Lemma entries_NoDup_fst {A} (o : gmap string A) : NoDup (entries o).*1.
Proof. apply NoDup_fst_map_to_list. Qed.

Lemma entries_list_to_map {A} (o : gmap string A) : list_to_map (entries o) = o.
Proof. apply list_to_map_to_list. Qed.

Lemma elem_of_entries {A} (o : gmap string A) k v : (k, v) ∈ entries o ↔ o !! k = Some v.
Proof. apply elem_of_map_to_list. Qed.

(** A loop over the entries of an object that writes, for each entry
    [(k, v)], only the key [k] of the accumulator, and writes there a value
    [h] computed from the old value and [v]. *)
Lemma foldl_keyed_lookup
    (step : gmap string Z → string * Z → gmap string Z) (h : option Z → Z → option Z) :
  (∀ r k v k', step r (k, v) !! k' = if decide (k' = k) then h (r !! k) v else r !! k') →
  ∀ l, NoDup l.*1 → ∀ r k,
    foldl step r l !! k =
      match (list_to_map l : gmap string Z) !! k with
      | Some v => h (r !! k) v
      | None => r !! k
      end.
Proof.
  intros Hstep l. induction l as [|[k0 v0] l IH]; intros Hnd r k.
  - simpl. by rewrite lookup_empty.
  - apply NoDup_cons in Hnd as [Hk0 Hnd]. cbn [foldl list_to_map foldr].
    rewrite IH by done. simpl. rewrite Hstep. destruct (decide (k = k0)) as [->|Hne].
    + rewrite lookup_insert_eq, (not_elem_of_list_to_map_1 l k0) by done. done.
    + rewrite lookup_insert_ne by done. done.
Qed.

Lemma entries_keyed_lookup
    (step : gmap string Z → string * Z → gmap string Z) (h : option Z → Z → option Z) :
  (∀ r k v k', step r (k, v) !! k' = if decide (k' = k) then h (r !! k) v else r !! k') →
  ∀ (o r : gmap string Z) k,
    foldl step r (entries o) !! k =
      match o !! k with
      | Some v => h (r !! k) v
      | None => r !! k
      end.
Proof.
  intros Hstep o r k.
  rewrite (foldl_keyed_lookup step h Hstep) by apply entries_NoDup_fst.
  by rewrite entries_list_to_map.
Qed.

Lemma addCounts_lookup r c k :
  addCounts r c !! k =
    match c !! k with
    | Some v => Some (default 0 (r !! k) + v)
    | None => r !! k
    end.
Proof.
  unfold addCounts.
  rewrite (entries_keyed_lookup _ (λ o v, Some (default 0 o + v))); [done|].
  intros r' k' v k''. rewrite getOr0_default, numberOr0_id.
  destruct (decide (k'' = k')) as [->|Hne].
  - by rewrite lookup_insert_eq.
  - by rewrite lookup_insert_ne.
Qed.

Lemma addCounts_default r c k :
  default 0 (addCounts r c !! k) = default 0 (r !! k) + default 0 (c !! k).
Proof. rewrite addCounts_lookup. destruct (c !! k); simpl; lia. Qed.

Lemma addCounts_empty_l c : addCounts ∅ c = c.
Proof.
  apply map_eq. intros k. rewrite addCounts_lookup, lookup_empty.
  destruct (c !! k); simpl; [f_equal; lia | done].
Qed.

Lemma copyCounts_id o : copyCounts o = o.
Proof.
  apply map_eq. intros k. unfold copyCounts.
  rewrite (entries_keyed_lookup _ (λ _ v, Some v)).
  - rewrite lookup_empty. by destruct (o !! k).
  - intros r k' v k''. rewrite numberOr0_id.
    destruct (decide (k'' = k')) as [->|Hne].
    + by rewrite lookup_insert_eq.
    + by rewrite lookup_insert_ne.
Qed.

(** ** The aggregation cache *)

Lemma sumZ_cons x l : sumZ (x :: l) = x + sumZ l.
Proof. done. Qed.

Lemma sumZ_Permutation l k : l ≡ₚ k → sumZ l = sumZ k.
Proof. induction 1; simpl; lia. Qed.

Lemma filter_ext_elem {A} (P Q : A → Prop) `{!∀ x, Decision (P x), !∀ x, Decision (Q x)}
    (l : list A) :
  (∀ x, x ∈ l → (P x ↔ Q x)) → filter P l = filter Q l.
Proof.
  induction l as [|x l IH]; intros Hext; [done|].
  rewrite !filter_cons.
  assert (filter P l = filter Q l) as ->.
  { apply IH. intros z Hz. apply Hext. by right. }
  destruct (decide (P x)) as [HP|HP], (decide (Q x)) as [HQ|HQ]; try done.
  - destruct HQ. apply Hext; [left|done].
  - destruct HP. apply Hext; [left|done].
Qed.

Lemma foldl_max_spec l : ∀ v,
  (foldl Z.max v l = v ∨ foldl Z.max v l ∈ l)
  ∧ v ≤ foldl Z.max v l
  ∧ ∀ x, x ∈ l → x ≤ foldl Z.max v l.
Proof.
  induction l as [|w l IH]; intros v; simpl.
  - split; [by left|]. split; [lia|]. intros x Hx. by apply elem_of_nil in Hx.
  - destruct (IH (Z.max v w)) as (Hin & Hle & Hall). split; [|split].
    + destruct Hin as [Heq|Hin].
      * rewrite Heq. destruct (Z.max_spec v w) as [[_ ->]|[_ ->]]; [right; left|by left].
      * right. by right.
    + lia.
    + intros x [->|Hx]%elem_of_cons; [lia|by apply Hall].
Qed.

Lemma Math_max_elem l : l ≠ [] → Math_max l ∈ l.
Proof.
  destruct l as [|v l]; [done|]. intros _. simpl.
  destruct (foldl_max_spec l v) as ([->|Hin] & _); [left|by right].
Qed.

Lemma Math_max_ge l x : x ∈ l → x ≤ Math_max l.
Proof.
  destruct l as [|v l]; [by intros ?%elem_of_nil|]. simpl.
  destruct (foldl_max_spec l v) as (_ & Hv & Hall).
  intros [->|Hx]%elem_of_cons; [done|by apply Hall].
Qed.

Lemma elem_of_yearKeys {A} (t : gmap Z A) y : y ∈ yearKeys t ↔ is_Some (t !! y).
Proof.
  unfold yearKeys. rewrite list_elem_of_fmap. split.
  - intros ([y' v] & -> & Hin). apply elem_of_map_to_list in Hin. by exists v.
  - intros [v Hv]. exists (y, v). split; [done|]. by apply elem_of_map_to_list.
Qed.

Lemma NoDup_yearKeys {A} (t : gmap Z A) : NoDup (yearKeys t).
Proof. apply NoDup_fst_map_to_list. Qed.

Lemma elem_of_yearsSorted {A} (t : gmap Z A) y : y ∈ yearsSorted t ↔ is_Some (t !! y).
Proof. unfold yearsSorted. by rewrite merge_sort_Permutation, elem_of_yearKeys. Qed.

Lemma NoDup_yearsSorted {A} (t : gmap Z A) : NoDup (yearsSorted t).
Proof. unfold yearsSorted. rewrite merge_sort_Permutation. apply NoDup_yearKeys. Qed.

Lemma StronglySorted_le_lt l : StronglySorted Z.le l → NoDup l → StronglySorted Z.lt l.
Proof.
  induction 1 as [|x l Hs IH Hall]; intros Hnd; [constructor|].
  apply NoDup_cons in Hnd as [Hx Hnd]. constructor; [by apply IH|].
  rewrite Forall_forall in Hall |- *. intros z Hz.
  assert (x ≠ z) by (intros ->; by apply Hx).
  specialize (Hall z Hz). lia.
Qed.

Lemma yearsSorted_increasing {A} (t : gmap Z A) : StronglySorted Z.lt (yearsSorted t).
Proof.
  apply StronglySorted_le_lt; [|apply NoDup_yearsSorted].
  unfold yearsSorted. apply (StronglySorted_merge_sort Z.le).
Qed.

(** Per-year tables: the cached years are the numeric keys of the table. *)
Lemma buildYear_is_Some tbl y : is_Some (buildYear tbl !! y) ↔ Some y ∈ tbl.*1.
Proof.
  unfold buildYear.
  enough (∀ m : gmap Z (gmap string Z),
    is_Some (foldl (λ cache '(yk, sfObj),
                      match yk with
                      | None => cache
                      | Some y0 => <[y0 := copyCounts sfObj]> cache
                      end) m tbl !! y) ↔ is_Some (m !! y) ∨ Some y ∈ tbl.*1) as Hgen.
  { rewrite Hgen, lookup_empty. split; [intros [[? [=]]|]; done|by right]. }
  induction tbl as [|[[y0|] o] tbl IH]; intros m; simpl.
  - split; [by left|]. intros [|?%elem_of_nil]; done.
  - rewrite IH, elem_of_cons. destruct (decide (y0 = y)) as [->|Hne].
    + rewrite lookup_insert_eq. split; [intros _|intros _; left; by eexists].
      right. by left.
    + rewrite lookup_insert_ne by done. split; intros [|]; auto.
      destruct H0 as [[=]|]; [congruence|auto].
  - rewrite IH, elem_of_cons. split; intros [|]; auto.
    destruct H0 as [|]; [done|auto].
Qed.

Lemma dom_buildYear tbl : dom (buildYear tbl) = list_to_set (omap fst tbl).
Proof.
  apply set_eq. intros y.
  rewrite elem_of_dom, buildYear_is_Some, elem_of_list_to_set, list_elem_of_omap, list_elem_of_fmap.
  split.
  - intros (x & Hx & Hin). by exists x.
  - intros (x & Hin & Hx). by exists x.
Qed.

(** The cumulative loop leaves the years it does not visit untouched. *)
Lemma cumul_keep T ys : ∀ st y,
  y ∉ ys → (foldl (cumulStep T) st ys).2 !! y = st.2 !! y.
Proof.
  induction ys as [|y0 ys IH]; intros st y Hy; [done|].
  apply not_elem_of_cons in Hy as [Hne Hy]. simpl.
  rewrite IH by done. simpl. by rewrite lookup_insert_ne.
Qed.

Lemma filter_le_above (y0 : Z) ys :
  Forall (Z.lt y0) ys → filter (λ y', y' ≤ y0) ys = [].
Proof.
  induction 1 as [|z ys Hz _ IH]; [done|].
  rewrite filter_cons_False by lia. done.
Qed.

(** The snapshot stored for a visited year is the running table extended
    by the counts of the visited years up to it. *)
Lemma cumul_lookup T ys : StronglySorted Z.lt ys → ∀ st y, y ∈ ys →
  ∃ s, (foldl (cumulStep T) st ys).2 !! y = Some s
       ∧ ∀ C, default 0 (s !! C) =
                default 0 (st.1 !! C)
                + sumZ ((λ y', cntAt T y' C) <$> filter (λ y', y' ≤ y) ys).
Proof.
  induction 1 as [|y0 ys Hs IH Hall]; intros st y Hin.
  { by apply elem_of_nil in Hin. }
  apply elem_of_cons in Hin as [->|Hin]; simpl.
  - exists (cumulStep T st y0).1. split.
    + rewrite cumul_keep.
      * simpl. by rewrite lookup_insert_eq.
      * intros Hin. rewrite Forall_forall in Hall. specialize (Hall _ Hin). lia.
    + intros C. rewrite filter_cons_True by lia. rewrite filter_le_above by done.
      rewrite fmap_cons, sumZ_cons. cbn [cumulStep fst]. rewrite addCounts_default.
      unfold cntAt. simpl. lia.
  - assert (y0 < y) as Hlt by (rewrite Forall_forall in Hall; by apply Hall).
    destruct (IH (cumulStep T st y0) y Hin) as (s & Hs1 & Hs2).
    exists s. split; [done|]. intros C. rewrite Hs2.
    rewrite filter_cons_True by lia. rewrite fmap_cons, sumZ_cons. cbn [cumulStep fst].
    rewrite addCounts_default. unfold cntAt. lia.
Qed.

Lemma buildEntire_is_Some T y : is_Some (buildEntire T !! y) ↔ is_Some (T !! y).
Proof.
  unfold buildEntire. destruct (decide (y ∈ yearsSorted T)) as [Hin|Hnin].
  - destruct (cumul_lookup T _ (yearsSorted_increasing T) (∅, ∅) y Hin) as (s & -> & _).
    apply elem_of_yearsSorted in Hin. split; [done|by eexists].
  - rewrite cumul_keep by done. simpl. rewrite lookup_empty.
    rewrite elem_of_yearsSorted in Hnin. split; [by intros [? [=]]|done].
Qed.

(** The cumulative lookup is the prefix sum over the cached years. *)
Lemma lookupUpTo_buildEntire T Y C :
  default 0 (lookupUpTo (buildEntire T) Y !! C) =
    sumZ ((λ y, cntAt T y C) <$> filter (λ y, y ≤ Y) (yearsSorted T)).
Proof.
  unfold lookupUpTo.
  set (years := filter (λ y, y ≤ Y) (yearKeys (buildEntire T))).
  assert (∀ y, y ∈ years ↔ y ≤ Y ∧ y ∈ yearsSorted T) as Hyears.
  { intros y. unfold years.
    by rewrite list_elem_of_filter, elem_of_yearKeys, buildEntire_is_Some, elem_of_yearsSorted. }
  destruct years as [|y1 years'] eqn:Heq.
  - rewrite lookup_empty. simpl.
    destruct (filter (λ y, y ≤ Y) (yearsSorted T)) as [|y l] eqn:Hf; [done|].
    assert (y ∈ filter (λ y, y ≤ Y) (yearsSorted T)) as Hy by (rewrite Hf; left).
    apply list_elem_of_filter in Hy. apply Hyears in Hy. by apply elem_of_nil in Hy.
  - rewrite <- Heq in *. assert (years ≠ []) as Hne by (rewrite Heq; done).
    pose proof (Math_max_elem years Hne) as Hm.
    apply Hyears in Hm as [HmY Hm].
    destruct (cumul_lookup T _ (yearsSorted_increasing T) (∅, ∅) _ Hm) as (s & Hs1 & Hs2).
    unfold buildEntire. rewrite Heq in Hs1 |- *. rewrite Hs1. simpl.
    rewrite <- Heq in *.
    rewrite Hs2. cbn [fst]. rewrite lookup_empty. cbn [default]. rewrite Z.add_0_l.
    do 2 f_equal. apply filter_ext_elem. intros y Hy. split; [lia|].
    intros HyY. apply Math_max_ge. apply Hyears. done.
Qed.

Lemma lookupUpTo_none (E : gmap Z (gmap string Z)) Y :
  (∀ y, is_Some (E !! y) → Y < y) → lookupUpTo E Y = ∅.
Proof.
  intros Hall. unfold lookupUpTo.
  destruct (filter (λ y, y ≤ Y) (yearKeys E)) as [|y l] eqn:Hf; [done|].
  assert (y ∈ filter (λ y, y ≤ Y) (yearKeys E)) as Hy by (rewrite Hf; left).
  apply list_elem_of_filter in Hy as [HyY Hy]. apply elem_of_yearKeys in Hy.
  specialize (Hall y Hy). lia.
Qed.

Lemma lookupUpTo_greatest (E : gmap Z (gmap string Z)) Y y :
  is_Some (E !! y) → y ≤ Y → (∀ y', is_Some (E !! y') → y' ≤ Y → y' ≤ y) →
  lookupUpTo E Y = default ∅ (E !! y).
Proof.
  intros Hy HyY Hmax. unfold lookupUpTo.
  set (years := filter (λ y, y ≤ Y) (yearKeys E)).
  assert (∀ z, z ∈ years ↔ z ≤ Y ∧ is_Some (E !! z)) as Hyears.
  { intros z. unfold years. by rewrite list_elem_of_filter, elem_of_yearKeys. }
  assert (y ∈ years) as Hin by (by apply Hyears).
  assert (years ≠ []) as Hne by (intros Hnil; rewrite Hnil in Hin; by apply elem_of_nil in Hin).
  pose proof (Math_max_elem years Hne) as Hm. pose proof (Math_max_ge years y Hin) as Hge.
  apply Hyears in Hm as [HmY Hm]. specialize (Hmax _ Hm HmY).
  assert (Math_max years = y) as Heq by lia.
  destruct years; [done|]. by rewrite Heq.
Qed.

Lemma tableYears_precompute a0 :
  tableYears (precompute a0) = dom (buildYear (yearly a0)).
Proof. unfold tableYears. simpl. by rewrite dom_buildYear. Qed.

Lemma prefixSum_precompute a0 Y C :
  prefixSum (precompute a0) Y C =
    sumZ ((λ y, cntAt (buildYear (yearly a0)) y C)
            <$> filter (λ y, y ≤ Y) (yearsSorted (buildYear (yearly a0)))).
Proof.
  unfold prefixSum. rewrite tableYears_precompute.
  apply sumZ_Permutation, fmap_Permutation.
  apply NoDup_Permutation.
  - apply NoDup_elements.
  - apply NoDup_filter, NoDup_yearsSorted.
  - intros y. rewrite elem_of_elements, elem_of_filter, list_elem_of_filter.
    by rewrite elem_of_dom, elem_of_yearsSorted.
Qed.

(** C1: in ['entire'] mode [countsFor] at [Y] gives every category the sum
    of its ['year']-mode counts over the table years [<= Y]; it is the
    cached snapshot of the greatest cached year [<= Y], and the empty
    mapping when no cached year is [<= Y]. *)
Theorem countsFor_entire_prefix_sum (a0 : Author) (Y : Z) :
  let a := precompute a0 in
  (∀ C, default 0 (countsFor a Y Entire !! C) = prefixSum a Y C)
  ∧ ((∀ y, y ∈ tableYears a → Y < y) → countsFor a Y Entire = ∅)
  ∧ (∀ y, y ∈ tableYears a → y ≤ Y →
          (∀ y', y' ∈ tableYears a → y' ≤ Y → y' ≤ y) →
          ∃ snapshot, cache_entire (buildCache a0) !! y = Some snapshot
                      ∧ countsFor a Y Entire = snapshot
                      ∧ ∀ C, default 0 (snapshot !! C) = prefixSum a y C).
Proof.
  intros a. split; [|split].
  - intros C. unfold a. rewrite prefixSum_precompute.
    apply lookupUpTo_buildEntire.
  - intros Hall. apply lookupUpTo_none. intros y Hy.
    apply Hall. unfold a. rewrite tableYears_precompute.
    apply elem_of_dom. by apply buildEntire_is_Some.
  - intros y Hy HyY Hmax. unfold a in *. rewrite tableYears_precompute in Hy.
    apply elem_of_dom, buildEntire_is_Some in Hy. destruct Hy as [snapshot Hsnap].
    exists snapshot. split; [done|].
    assert (countsFor (precompute a0) Y Entire = snapshot) as HY.
    { change (lookupUpTo (buildEntire (buildYear (yearly a0))) Y = snapshot).
      rewrite (lookupUpTo_greatest _ Y y); [by rewrite Hsnap|by eexists|done|].
      intros y' Hy' Hy'Y. apply Hmax; [|done].
      rewrite tableYears_precompute. by apply elem_of_dom, buildEntire_is_Some. }
    split; [done|]. intros C.
    rewrite prefixSum_precompute, <- lookupUpTo_buildEntire.
    rewrite (lookupUpTo_greatest _ y y); [by rewrite Hsnap|by eexists|lia|auto].
Qed.

Lemma countsFor_entire_prefix_sum_witness :
  countsFor (precompute roundTripAuthor) 2019 Entire = ∅
  ∧ ∃ snapshot,
      cache_entire (buildCache roundTripAuthor) !! 2021 = Some snapshot
      ∧ countsFor (precompute roundTripAuthor) 2030 Entire = snapshot
      ∧ ∀ C, default 0 (snapshot !! C) = prefixSum (precompute roundTripAuthor) 2021 C.
Proof.
  split.
  - apply (countsFor_entire_prefix_sum roundTripAuthor 2019).
    intros y Hy. apply elem_of_list_to_set in Hy. simpl in Hy.
    apply elem_of_cons in Hy as [->|Hy]; [lia|].
    apply elem_of_cons in Hy as [->|Hy]; [lia|]. by apply elem_of_nil in Hy.
  - apply (countsFor_entire_prefix_sum roundTripAuthor 2030).
    + apply elem_of_list_to_set. simpl. right. left.
    + lia.
    + intros y Hy _. apply elem_of_list_to_set in Hy. simpl in Hy.
      apply elem_of_cons in Hy as [->|Hy]; [lia|].
      apply elem_of_cons in Hy as [->|Hy]; [lia|]. by apply elem_of_nil in Hy.
Defined.

(** ** The order on category names *)

Lemma ascii_compare_lt_trans (a b c : Ascii.ascii) :
  Ascii.compare a b = Lt → Ascii.compare b c = Lt → Ascii.compare a c = Lt.
Proof.
  unfold Ascii.compare. rewrite !N.compare_lt_iff. intros. etrans; eauto.
Qed.

Lemma string_compare_lt_trans s : ∀ t u,
  String.compare s t = Lt → String.compare t u = Lt → String.compare s u = Lt.
Proof.
  induction s as [|a s IH]; intros [|b t] [|c u]; simpl; try done.
  destruct (Ascii.compare a b) eqn:Hab; try done.
  - apply Ascii.compare_eq_iff in Hab as ->.
    destruct (Ascii.compare b c); try done. apply IH.
  - destruct (Ascii.compare b c) eqn:Hbc; try done.
    + apply Ascii.compare_eq_iff in Hbc as <-. by rewrite Hab.
    + by rewrite (ascii_compare_lt_trans a b c).
Qed.

Lemma string_compare_refl s : String.compare s s = Eq.
Proof.
  induction s as [|a s IH]; [done|]. simpl.
  assert (Ascii.compare a a = Eq) as ->; [|done].
  unfold Ascii.compare. apply N.compare_refl.
Qed.

Lemma strLt_compare s t : strLt s t ↔ String.compare s t = Lt.
Proof. unfold strLt, String.ltb. destruct (String.compare s t); split; done. Qed.

Lemma strLe_compare s t : strLe s t ↔ String.compare s t ≠ Gt.
Proof. unfold strLe, String.leb. destruct (String.compare s t); split; done. Qed.

Lemma strLt_trans s t u : strLt s t → strLt t u → strLt s u.
Proof. rewrite !strLt_compare. apply string_compare_lt_trans. Qed.

Lemma strLt_irrefl s : ¬ strLt s s.
Proof. rewrite strLt_compare, string_compare_refl. done. Qed.

Lemma strLt_trichotomy s t : strLt s t ∨ s = t ∨ strLt t s.
Proof.
  rewrite !strLt_compare. destruct (String.compare s t) eqn:Hc.
  - apply String.compare_eq_iff in Hc. auto.
  - by left.
  - right; right. by rewrite String.compare_antisym, Hc.
Qed.

Lemma strLe_lt_eq s t : strLe s t ↔ strLt s t ∨ s = t.
Proof.
  rewrite strLe_compare, strLt_compare. split.
  - destruct (String.compare s t) eqn:Hc; try done; [|by left].
    apply String.compare_eq_iff in Hc. by right.
  - intros [->| ->]; [done|]. by rewrite string_compare_refl.
Qed.

#[global] Instance strLe_total : Total strLe.
Proof.
  intros s t. rewrite !strLe_lt_eq.
  destruct (strLt_trichotomy s t) as [|[|]]; auto.
Qed.

#[global] Instance strLe_trans : Transitive strLe.
Proof.
  intros s t u. rewrite !strLe_lt_eq. intros [Hst| ->] [Htu| ->]; auto.
  left. by apply (strLt_trans s t u).
Qed.

#[global] Instance strLe_antisymm : AntiSymm (=) strLe.
Proof.
  intros s t. rewrite !strLe_lt_eq. intros [Hst|] [Hts|]; try done.
  destruct (strLt_irrefl s). by apply (strLt_trans s t s).
Qed.

(** ** Dominant subfield *)

Lemma foldl_invariant {A B} (P : list B → A → Prop) (f : A → B → A) (a : A) (l : list B) :
  P [] a →
  (∀ pre x acc, P pre acc → P (pre ++ [x]) (f acc x)) →
  P l (foldl f a l).
Proof.
  intros Hnil Hstep. induction l as [|x l IH] using rev_ind; [done|].
  rewrite foldl_snoc. by apply Hstep.
Qed.

Lemma mainStep_invariant pre e best :
  mainInv pre best → mainInv (pre ++ [e]) (mainStep best e).
Proof.
  destruct e as [k v], best as [bs bc]. unfold mainInv, mainStep. simpl.
  rewrite numberOr0_id. intros (Hpos & Hall & Hbest).
  destruct (bool_decide (v > bc)) eqn:Hgt; simpl.
  { apply bool_decide_eq_true in Hgt. split; [lia|]. split.
    - intros k' v' [Hin|Hin]%elem_of_app; [specialize (Hall _ _ Hin); lia|].
      apply list_elem_of_singleton in Hin as [= -> ->]. lia.
    - intros _. split; [apply elem_of_app; right; by left|].
      intros k' [Hin|Hin]%elem_of_app; [specialize (Hall _ _ Hin); lia|].
      apply list_elem_of_singleton in Hin as [= ->]. by left. }
  apply bool_decide_eq_false in Hgt.
  destruct (bool_decide (v = bc)) eqn:Heq; simpl.
  - apply bool_decide_eq_true in Heq as ->.
    destruct (String.ltb k bs) eqn:Hlt; simpl.
    + split; [done|]. split.
      * intros k' v' [Hin|Hin]%elem_of_app; [by apply (Hall k')|].
        apply list_elem_of_singleton in Hin as [= -> ->]. lia.
      * intros Hbc. destruct (Hbest Hbc) as [_ Hmin].
        split; [apply elem_of_app; right; by left|].
        intros k' [Hin|Hin]%elem_of_app.
        -- right. destruct (Hmin _ Hin) as [->|Hlt']; [done|].
           by apply (strLt_trans k bs k').
        -- apply list_elem_of_singleton in Hin as [= ->]. by left.
    + split; [done|]. split.
      * intros k' v' [Hin|Hin]%elem_of_app; [by apply (Hall k')|].
        apply list_elem_of_singleton in Hin as [= -> ->]. lia.
      * intros Hbc. destruct (Hbest Hbc) as [Hin0 Hmin].
        split; [apply elem_of_app; by left|].
        intros k' [Hin|Hin]%elem_of_app; [by apply Hmin|].
        apply list_elem_of_singleton in Hin as [= ->].
        destruct (strLt_trichotomy k bs) as [Hc|[->|Hc]]; auto.
        unfold strLt in Hc. congruence.
  - apply bool_decide_eq_false in Heq. split; [done|]. split.
    + intros k' v' [Hin|Hin]%elem_of_app; [by apply (Hall k')|].
      apply list_elem_of_singleton in Hin as [= -> ->]. lia.
    + intros Hbc. destruct (Hbest Hbc) as [Hin0 Hmin].
      split; [apply elem_of_app; by left|].
      intros k' [Hin|Hin]%elem_of_app; [by apply Hmin|].
      apply list_elem_of_singleton in Hin as [= -> ->]. lia.
Qed.

Lemma mainLoop_invariant l :
  mainInv l (foldl mainStep ("Unknown"%string, 0) l).
Proof.
  apply (foldl_invariant mainInv).
  - unfold mainInv. simpl. split; [lia|]. split; [|lia].
    intros k v Hin. by apply elem_of_nil in Hin.
  - intros pre x acc. apply mainStep_invariant.
Qed.

(** With a strictly positive count present, [mainSubfieldFor] returns a
    category of maximal count, the smallest name among those. *)
Lemma mainSubfieldOf_positive (c : gmap string Z) k0 v0 :
  c !! k0 = Some v0 → 0 < v0 →
  ∃ vm, c !! mainSubfieldOf c = Some vm
        ∧ 0 < vm
        ∧ (∀ k v, c !! k = Some v → v ≤ vm)
        ∧ (∀ k, c !! k = Some vm → k = mainSubfieldOf c ∨ strLt (mainSubfieldOf c) k).
Proof.
  intros Hk0 Hv0. unfold mainSubfieldOf.
  destruct (mainLoop_invariant (entries c)) as (Hpos & Hall & Hbest).
  destruct (foldl mainStep ("Unknown"%string, 0) (entries c)) as [bs bc]. simpl in *.
  assert (0 < bc) as Hbc.
  { apply elem_of_entries in Hk0. specialize (Hall _ _ Hk0). lia. }
  destruct (Hbest Hbc) as [Hin Hmin]. exists bc.
  split; [by apply elem_of_entries|]. split; [done|]. split.
  - intros k v Hkv. apply (Hall k). by apply elem_of_entries.
  - intros k Hk. apply Hmin. by apply elem_of_entries.
Qed.

(** C2: at an author whose table holds only a zero count there is no
    strictly positive count, yet [mainSubfieldFor] returns the category
    ["AI"] and not ["Unknown"]: the zero entry ties with the initial best
    count [0] and its name precedes ["Unknown"], so the sentinel is
    replaced. The loop does so on the mapping [{"AI": 0}] however that
    mapping was computed. *)
Theorem mainSubfieldFor_zero_count :
  countsFor (precompute zeroCountAuthor) 2020 Year = {[ "AI"%string := 0 ]}
  ∧ isActiveBy (precompute zeroCountAuthor) 2020 Year = false
  ∧ mainSubfieldFor (precompute zeroCountAuthor) 2020 Year = "AI"%string
  ∧ mainSubfieldFor (precompute zeroCountAuthor) 2020 Entire = "AI"%string
  ∧ mainSubfieldOf {[ "AI"%string := 0 ]} = "AI"%string
  ∧ mainSubfieldOf {[ "Visualization"%string := 0 ]} = "Unknown"%string.
Proof. repeat split; vm_compute; reflexivity. Qed.

(** ** Interdisciplinarity *)

Lemma foldl_add_sumZ l : ∀ acc, foldl Z.add acc l = acc + sumZ l.
Proof.
  induction l as [|x l IH]; intros acc; simpl; [lia|].
  rewrite IH. unfold sumZ. simpl. lia.
Qed.

Lemma d3_sum_sumZ l : d3_sum l = sumZ l.
Proof. unfold d3_sum. by rewrite foldl_add_sumZ. Qed.

Lemma sumZ_nonneg l : Forall (λ v, 0 < v) l → 0 ≤ sumZ l.
Proof. induction 1; unfold sumZ in *; simpl; lia. Qed.

Lemma sumZ_ge_elem l x : Forall (λ v, 0 < v) l → x ∈ l → x ≤ sumZ l.
Proof.
  induction 1 as [|v l Hv Hl IH]; [by intros ?%elem_of_nil|].
  pose proof (sumZ_nonneg l Hl). rewrite sumZ_cons.
  intros [->|Hx]%elem_of_cons; [lia|]. specialize (IH Hx). lia.
Qed.

Lemma positiveValues_Forall o : Forall (λ v, 0 < v) (positiveValues o).
Proof.
  apply Forall_forall. intros v Hv. unfold positiveValues in Hv.
  apply list_elem_of_filter in Hv as [Hv _]. lia.
Qed.

Lemma elem_of_values (o : gmap string Z) v : v ∈ values o ↔ ∃ k, o !! k = Some v.
Proof.
  unfold values. rewrite list_elem_of_fmap. split.
  - intros ([k v'] & -> & Hin). exists k. by apply elem_of_entries.
  - intros [k Hk]. exists (k, v). split; [done|]. by apply elem_of_entries.
Qed.

Lemma elem_of_positiveValues (o : gmap string Z) v :
  v ∈ positiveValues o ↔ 0 < v ∧ ∃ k, o !! k = Some v.
Proof.
  unfold positiveValues. rewrite list_elem_of_filter, elem_of_values.
  split; intros [? ?]; split; auto; lia.
Qed.

Lemma positiveValues_nil (o : gmap string Z) :
  positiveValues o = [] ↔ ∀ k v, o !! k = Some v → v ≤ 0.
Proof.
  split.
  - intros Hnil k v Hkv. destruct (decide (0 < v)) as [Hpos|]; [|lia].
    assert (v ∈ positiveValues o) as Hin by (apply elem_of_positiveValues; eauto).
    rewrite Hnil in Hin. by apply elem_of_nil in Hin.
  - intros Hall. destruct (positiveValues o) as [|v l] eqn:Heq; [done|].
    assert (v ∈ positiveValues o) as Hin by (rewrite Heq; left).
    apply elem_of_positiveValues in Hin as [Hpos [k Hk]].
    specialize (Hall _ _ Hk). lia.
Qed.

(** The formula on a non-empty list of positive numbers. *)
Lemma concentration_range l :
  Forall (λ v, 0 < v) l → (0 <= concentration l)%Q ∧ (concentration l < 1)%Q.
Proof.
  intros Hpos. destruct l as [|v l]; [done|].
  set (vals := v :: l) in *. assert (vals ≠ []) as Hne by done.
  pose proof (Math_max_elem vals Hne) as Hin.
  assert (0 < Math_max vals) as Hmax.
  { rewrite Forall_forall in Hpos. by apply Hpos. }
  pose proof (sumZ_ge_elem vals _ Hpos Hin) as Hle.
  change (concentration vals)
    with (1 - inject_Z (Math_max vals) / inject_Z (d3_sum vals))%Q.
  rewrite d3_sum_sumZ.
  assert (0 < inject_Z (sumZ vals))%Q as Hs by (rewrite <- (Zlt_Qlt 0); lia).
  assert (inject_Z (Math_max vals) / inject_Z (sumZ vals) <= 1)%Q as H1.
  { apply Qle_shift_div_r; [done|]. rewrite Qmult_1_l, <- Zle_Qle. done. }
  assert (0 < inject_Z (Math_max vals) / inject_Z (sumZ vals))%Q as H0.
  { apply Qlt_shift_div_l; [done|]. rewrite Qmult_0_l, <- (Zlt_Qlt 0). done. }
  revert H0 H1. generalize (inject_Z (Math_max vals) / inject_Z (sumZ vals))%Q.
  intros x H0 H1. split; Lqa.lra.
Qed.

Lemma concentration_single v : 0 < v → (concentration [v] == 0)%Q.
Proof.
  intros Hv. unfold concentration, Math_max, d3_sum. simpl.
  assert (¬ inject_Z v == 0)%Q as Hnz.
  { intros Heq. assert (0 < inject_Z v)%Q by (rewrite <- (Zlt_Qlt 0); lia).
    rewrite Heq in H0. by apply Qlt_irrefl in H0. }
  unfold Qdiv. rewrite Qmult_inv_r by done. Lqa.lra.
Qed.

Lemma length_le_1_of_all_equal {A} (l : list A) :
  NoDup l → (∀ x y, x ∈ l → y ∈ l → x = y) → (length l ≤ 1)%nat.
Proof.
  intros Hnd Heq. destruct l as [|x [|y l]]; simpl; [lia|lia|].
  apply NoDup_cons in Hnd as [Hx _]. destruct Hx.
  rewrite (Heq x y); [left|left|right; left].
Qed.

Lemma positiveValues_entries (o : gmap string Z) :
  positiveValues o = (filter (λ e, e.2 > 0) (entries o)).*2.
Proof.
  unfold positiveValues, values. induction (entries o) as [|[k v] l IH]; [done|].
  rewrite fmap_cons, !filter_cons. simpl.
  destruct (decide (v > 0)); simpl; by rewrite IH.
Qed.

(** Positive counts in one category only: at most one positive value. *)
Lemma positiveValues_single_category (o : gmap string Z) :
  (∀ k1 v1 k2 v2, o !! k1 = Some v1 → 0 < v1 → o !! k2 = Some v2 → 0 < v2 → k1 = k2) →
  (length (positiveValues o) ≤ 1)%nat.
Proof.
  intros Hone. rewrite positiveValues_entries, length_fmap.
  apply length_le_1_of_all_equal.
  - apply NoDup_filter, NoDup_map_to_list.
  - intros [k1 v1] [k2 v2] [H1 Hk1]%list_elem_of_filter [H2 Hk2]%list_elem_of_filter.
    simpl in *. apply elem_of_entries in Hk1, Hk2.
    assert (k1 = k2) as -> by (apply (Hone k1 v1 k2 v2); auto; lia).
    congruence.
Qed.

(** C3: [interdisciplinarity] is [0] without a positive count, is
    [1 - max / sum] over the positive counts otherwise, is [0] when the
    positive counts lie in a single category, and lies in [[0, 1)]. *)
Theorem interdisciplinarity_spec (a : Author) (year : Z) (mode : Mode) :
  let c := countsFor a year mode in
  let r := interdisciplinarity a year mode in
  ((∀ C v, c !! C = Some v → v ≤ 0) → r = 0%Q)
  ∧ (∀ C0 v0, c !! C0 = Some v0 → 0 < v0 →
       ∃ vmax Cmax, c !! Cmax = Some vmax
                    ∧ (∀ C v, c !! C = Some v → v ≤ vmax)
                    ∧ (r == 1 - inject_Z vmax / inject_Z (sumZ (positiveValues c)))%Q)
  ∧ ((∀ C1 v1 C2 v2, c !! C1 = Some v1 → 0 < v1 → c !! C2 = Some v2 → 0 < v2 → C1 = C2)
       → (r == 0)%Q)
  ∧ (0 <= r)%Q ∧ (r < 1)%Q.
Proof.
  intros c r. unfold r, interdisciplinarity. fold c.
  split; [|split; [|split]].
  - intros Hall. apply positiveValues_nil in Hall. by rewrite Hall.
  - intros C0 v0 HC0 Hv0.
    assert (v0 ∈ positiveValues c) as Hin0 by (apply elem_of_positiveValues; eauto).
    assert (positiveValues c ≠ []) as Hne.
    { intros Hnil. rewrite Hnil in Hin0. by apply elem_of_nil in Hin0. }
    pose proof (Math_max_elem _ Hne) as Hmax.
    apply elem_of_positiveValues in Hmax as [Hpos [Cmax HCmax]].
    exists (Math_max (positiveValues c)), Cmax. split; [done|]. split.
    + intros C v HCv. destruct (decide (0 < v)) as [Hv|]; [|lia].
      apply Math_max_ge. apply elem_of_positiveValues. eauto.
    + unfold concentration. rewrite d3_sum_sumZ.
      destruct (positiveValues c); [done|reflexivity].
  - intros Hone. pose proof (positiveValues_single_category c Hone) as Hlen.
    pose proof (positiveValues_Forall c) as Hpos.
    destruct (positiveValues c) as [|v [|w l]]; [reflexivity| |simpl in Hlen; lia].
    apply concentration_single. by apply Forall_inv in Hpos.
  - apply concentration_range, positiveValues_Forall.
Qed.

Lemma interdisciplinarity_spec_witness :
  (interdisciplinarity (precompute roundTripAuthor) 2019 Entire = 0%Q)
  ∧ (interdisciplinarity (precompute roundTripAuthor) 2020 Entire == 0)%Q
  ∧ ∃ vmax Cmax,
      countsFor (precompute roundTripAuthor) 2021 Entire !! Cmax = Some vmax
      ∧ (∀ C v, countsFor (precompute roundTripAuthor) 2021 Entire !! C = Some v → v ≤ vmax)
      ∧ (interdisciplinarity (precompute roundTripAuthor) 2021 Entire ==
           1 - inject_Z vmax
               / inject_Z (sumZ (positiveValues
                                   (countsFor (precompute roundTripAuthor) 2021 Entire))))%Q.
Proof.
  split; [|split].
  - apply (interdisciplinarity_spec (precompute roundTripAuthor) 2019 Entire).
    intros C v. vm_compute. discriminate.
  - apply (interdisciplinarity_spec (precompute roundTripAuthor) 2020 Entire).
    assert (countsFor (precompute roundTripAuthor) 2020 Entire = {[ "AI"%string := 3 ]}) as ->
      by (vm_compute; reflexivity).
    intros C1 v1 C2 v2 [-> _]%lookup_singleton_Some _ [-> _]%lookup_singleton_Some _.
    reflexivity.
  - destruct (interdisciplinarity_spec (precompute roundTripAuthor) 2021 Entire)
      as (_ & Hformula & _).
    apply (Hformula "AI"%string 5).
    + vm_compute. reflexivity.
    + lia.
Defined.

(** ** Group interdisciplinarity *)

(** C8: over a population of one author the group metric on subfields is
    that author's interdisciplinarity. *)
Theorem groupInterdisciplinarity_singleton (a : Author) (year : Z) (mode : Mode) :
  aggCountsOf [a] year mode Subfield = countsFor a year mode
  ∧ groupInterdisciplinarity [a] year mode Subfield = interdisciplinarity a year mode.
Proof.
  assert (aggCountsOf [a] year mode Subfield = countsFor a year mode) as Hagg.
  { unfold aggCountsOf. simpl. apply addCounts_empty_l. }
  split; [done|]. unfold groupInterdisciplinarity, interdisciplinarity. by rewrite Hagg.
Qed.

Lemma addCounts_all_zero r c :
  (∀ k v, r !! k = Some v → v = 0) → (∀ k v, c !! k = Some v → v = 0) →
  ∀ k v, addCounts r c !! k = Some v → v = 0.
Proof.
  intros Hr Hc k v. rewrite addCounts_lookup.
  destruct (c !! k) as [w|] eqn:Hw; [|apply Hr].
  intros [= <-]. rewrite (Hc k w Hw).
  destruct (r !! k) as [u|] eqn:Hu; simpl; [|lia]. rewrite (Hr k u Hu). lia.
Qed.

Lemma foldl_addCounts_all_zero (f : Author → gmap string Z) authors : ∀ agg,
  (∀ k v, agg !! k = Some v → v = 0) →
  (∀ a, a ∈ authors → ∀ k v, f a !! k = Some v → v = 0) →
  ∀ k v, foldl (λ agg a, addCounts agg (f a)) agg authors !! k = Some v → v = 0.
Proof.
  induction authors as [|a authors IH]; intros agg Hagg Hall; simpl; [done|].
  apply IH.
  - apply addCounts_all_zero; [done|]. apply Hall. by left.
  - intros b Hb. apply Hall. by right.
Qed.

(** The counts the group metric reads from one author. *)
Lemma aggCountsOf_all_zero authors year mode fieldType :
  (∀ a, a ∈ authors → ∀ k v,
     match fieldType with
     | Subfield => countsFor a year mode
     | External => countsForFields a year mode
     end !! k = Some v → v = 0) →
  ∀ k v, aggCountsOf authors year mode fieldType !! k = Some v → v = 0.
Proof.
  intros Hall. unfold aggCountsOf.
  apply (foldl_addCounts_all_zero
           (λ a, match fieldType with
                 | Subfield => countsFor a year mode
                 | External => countsForFields a year mode
                 end)); [|done].
  intros k v. by rewrite lookup_empty.
Qed.

(** C10: [groupInterdisciplinarity] is [0] for the empty population and
    whenever no aggregated count is positive, for both field types. *)
Theorem groupInterdisciplinarity_zero (authors : list Author) (year : Z) (mode : Mode)
    (fieldType : FieldType) :
  groupInterdisciplinarity [] year mode fieldType = 0%Q
  ∧ ((∀ key v, aggCountsOf authors year mode fieldType !! key = Some v → v = 0) →
       groupInterdisciplinarity authors year mode fieldType = 0%Q)
  ∧ ((∀ a, a ∈ authors → ∀ key v,
        match fieldType with
        | Subfield => countsFor a year mode
        | External => countsForFields a year mode
        end !! key = Some v → v = 0) →
       groupInterdisciplinarity authors year mode fieldType = 0%Q).
Proof.
  assert (∀ l, (∀ key v, aggCountsOf l year mode fieldType !! key = Some v → v = 0) →
               groupInterdisciplinarity l year mode fieldType = 0%Q) as Hzero.
  { intros l Hall. unfold groupInterdisciplinarity.
    assert (positiveValues (aggCountsOf l year mode fieldType) = []) as ->; [|done].
    apply positiveValues_nil. intros k v Hk. rewrite (Hall k v Hk). lia. }
  split; [|split].
  - apply Hzero. intros key v. unfold aggCountsOf. simpl. by rewrite lookup_empty.
  - apply Hzero.
  - intros Hall. apply Hzero. by apply aggCountsOf_all_zero.
Qed.

Lemma groupInterdisciplinarity_zero_witness :
  groupInterdisciplinarity [precompute zeroCountAuthor] 2020 Year Subfield = 0%Q
  ∧ groupInterdisciplinarity [precompute zeroCountAuthor] 2020 Entire External = 0%Q.
Proof.
  split.
  - destruct (groupInterdisciplinarity_zero [precompute zeroCountAuthor] 2020 Year Subfield)
      as (_ & Hagg & _).
    apply Hagg.
    assert (aggCountsOf [precompute zeroCountAuthor] 2020 Year Subfield
            = {[ "AI"%string := 0 ]}) as -> by (vm_compute; reflexivity).
    intros key v [_ <-]%lookup_singleton_Some. reflexivity.
  - destruct (groupInterdisciplinarity_zero [precompute zeroCountAuthor] 2020 Entire External)
      as (_ & _ & Hauthors).
    apply Hauthors.
    intros a ->%list_elem_of_singleton key v. vm_compute. discriminate.
Defined.

(** ** Filters *)

Section FilterProperties.
Variable toLowerCase : string → string.
Variable trim : string → string.
Variable toNumber : string → jsnum.

(** A row whose metric is [NaN] fails its comparison, whatever the
    threshold converts to. *)
Lemma passesChecks_NaN checks op numStr :
  (op, None, numStr) ∈ checks →
  trim numStr ≠ EmptyString →
  op ∈ [">="; "="; "<="]%string →
  passesChecks trim toNumber checks = false.
Proof.
  intros Hin Hne Hop. induction checks as [|[[op' val'] num'] checks IH].
  { by apply elem_of_nil in Hin. }
  apply elem_of_cons in Hin as [[= <- <- <-]|Hin]; simpl.
  - rewrite bool_decide_eq_false_2 by done.
    apply elem_of_cons in Hop as [->|Hop]; [done|].
    apply elem_of_cons in Hop as [->|Hop]; [done|].
    apply list_elem_of_singleton in Hop as ->. done.
  - rewrite (IH Hin). repeat case_match; done.
Qed.

(** C9: an author whose metric is [NaN] is rejected by every non-empty
    threshold on that metric, for each of the operators [>=], [=], [<=],
    and so is absent from the filtered population. *)
Theorem filter_rejects_missing_metric (ui : FilterInputs) (a : Author) (m : Metric)
    (authorsRaw : list Author) :
  metricOf m a = None →
  trim (trim (valOf m ui)) ≠ EmptyString →
  opOf m ui ∈ [">="; "="; "<="]%string →
  filterPredicate toLowerCase trim toNumber ui a = false
  ∧ a ∉ applyFilters toLowerCase trim toNumber ui authorsRaw.
Proof.
  intros Hnan Hne Hop.
  assert (filterPredicate toLowerCase trim toNumber ui a = false) as Hrej.
  { unfold filterPredicate. repeat case_match; try done.
    apply (passesChecks_NaN _ (opOf m ui) (trim (valOf m ui))); [|done|done].
    rewrite <- Hnan. destruct m; simpl.
    - left.
    - right; left.
    - right; right; left.
    - right; right; right; left. }
  split; [done|]. unfold applyFilters. rewrite list_elem_of_filter.
  intros [Hpass _]. congruence.
Qed.
End FilterProperties.

Lemma filter_rejects_missing_metric_witness :
  filterPredicate (λ s, s) (λ s, s) (λ _, Some (20 # 1)%Q) hindexAtLeast20
                  (precompute roundTripAuthor) = false
  ∧ precompute roundTripAuthor
      ∉ applyFilters (λ s, s) (λ s, s) (λ _, Some (20 # 1)%Q) hindexAtLeast20
                     [precompute roundTripAuthor].
Proof.
  apply (filter_rejects_missing_metric (λ s, s) (λ s, s) (λ _, Some (20 # 1)%Q)
           hindexAtLeast20 (precompute roundTripAuthor) HIndex).
  - reflexivity.
  - simpl. discriminate.
  - simpl. left.
Defined.

(** ** Cluster layout *)

Lemma present_entries_elem (l : list (string * Z)) : ∀ (pr : gset string) sf,
  sf ∈ foldl (λ pr '(sf, cnt), if decide (cnt > 0) then {[sf]} ∪ pr else pr) pr l
  ↔ sf ∈ pr ∨ ∃ cnt, (sf, cnt) ∈ l ∧ 0 < cnt.
Proof.
  induction l as [|[k v] l IH]; intros pr sf; simpl.
  - split; [by left|]. intros [ |(cnt & Hin & _)]; [done|]. by apply elem_of_nil in Hin.
  - rewrite IH. split.
    + intros [Hin|(cnt & Hin & Hpos)].
      * destruct (decide (v > 0)); [|by left].
        apply elem_of_union in Hin as [->%elem_of_singleton|]; [|by left].
        right. exists v. split; [left|lia].
      * right. exists cnt. split; [by right|done].
    + intros [Hin|(cnt & Hin & Hpos)].
      * left. destruct (decide (v > 0)); [|done]. apply elem_of_union. by right.
      * apply elem_of_cons in Hin as [[= -> ->]|Hin].
        -- left. rewrite decide_True by lia. apply elem_of_union. left.
           by apply elem_of_singleton.
        -- right. eauto.
Qed.

Lemma present_authors_elem authors year mode : ∀ (pr : gset string) sf,
  sf ∈ foldl (λ present a,
                foldl (λ pr '(sf, cnt), if decide (cnt > 0) then {[sf]} ∪ pr else pr)
                      present (entries (countsFor a year mode))) pr authors
  ↔ sf ∈ pr ∨ qualifies authors year mode sf.
Proof.
  induction authors as [|a authors IH]; intros pr sf; simpl.
  - split; [by left|]. intros [ |(a & cnt & Hin & _)]; [done|]. by apply elem_of_nil in Hin.
  - rewrite IH, present_entries_elem. unfold qualifies. split.
    + intros [[Hin|(cnt & Hin & Hpos)]|(b & cnt & Hb & Hcnt & Hpos)].
      * by left.
      * right. exists a, cnt. split; [left|]. split; [by apply elem_of_entries|done].
      * right. exists b, cnt. split; [by right|done].
    + intros [Hin|(b & cnt & Hb & Hcnt & Hpos)].
      * left. by left.
      * apply elem_of_cons in Hb as [->|Hb].
        -- left. right. exists cnt. split; [by apply elem_of_entries|done].
        -- right. exists b, cnt. done.
Qed.

Lemma elem_of_presentSubfields authors year mode sf :
  sf ∈ presentSubfields authors year mode ↔ qualifies authors year mode sf.
Proof.
  unfold presentSubfields. rewrite present_authors_elem.
  split; [intros [Hin|]; [set_solver|done]|by right].
Qed.

Lemma elem_of_computeVisibleSubfields st year sf :
  sf ∈ computeVisibleSubfields st year
  ↔ qualifies (filteredAuthors st) year (mainMode st) sf.
Proof.
  unfold computeVisibleSubfields.
  by rewrite merge_sort_Permutation, elem_of_elements, elem_of_presentSubfields.
Qed.

Lemma StronglySorted_strLe_strLt l :
  StronglySorted strLe l → NoDup l → StronglySorted strLt l.
Proof.
  induction 1 as [|x l Hs IH Hall]; intros Hnd; [constructor|].
  apply NoDup_cons in Hnd as [Hx Hnd]. constructor; [by apply IH|].
  rewrite Forall_forall in Hall |- *. intros z Hz.
  destruct (proj1 (strLe_lt_eq x z) (Hall z Hz)) as [Hlt| ->]; [done|]. by destruct Hx.
Qed.

Lemma computeVisibleSubfields_sorted st year :
  StronglySorted strLt (computeVisibleSubfields st year).
Proof.
  unfold computeVisibleSubfields. apply StronglySorted_strLe_strLt.
  - apply (StronglySorted_merge_sort strLe).
  - rewrite merge_sort_Permutation. apply NoDup_elements.
Qed.

Lemma StronglySorted_strLt_NoDup l : StronglySorted strLt l → NoDup l.
Proof.
  induction 1 as [|x l Hs IH Hall]; constructor; [|done].
  intros Hx. rewrite Forall_forall in Hall. by apply (strLt_irrefl x), Hall.
Qed.

Lemma visibleOrUnknown_sorted st year : StronglySorted strLt (visibleOrUnknown st year).
Proof.
  unfold visibleOrUnknown. pose proof (computeVisibleSubfields_sorted st year) as Hs.
  destruct (computeVisibleSubfields st year); [|done].
  repeat constructor.
Qed.

(** The centers written by the [forEach]: the key at position [j] holds the
    center of slot [i + j]. *)
Lemma setCenters_lookup N sfs : ∀ i m j sf,
  NoDup sfs → sfs !! j = Some sf →
  setCenters N i sfs m !! sf = Some (centerAt (i + j) N).
Proof.
  induction sfs as [|sf0 sfs IH]; intros i m j sf Hnd Hj; [done|].
  apply NoDup_cons in Hnd as [Hsf0 Hnd]. destruct j as [|j]; simpl in *.
  - injection Hj as ->. clear IH.
    assert (∀ l k (m' : gmap string Center), sf ∉ l →
              setCenters N k l m' !! sf = m' !! sf) as Hkeep.
    { induction l as [|x l IHl]; intros k m' Hx; [done|].
      apply not_elem_of_cons in Hx as [Hne Hx]. simpl.
      rewrite IHl by done. by rewrite lookup_insert_ne. }
    rewrite Hkeep by done. rewrite lookup_insert_eq. by rewrite Nat.add_0_r.
  - rewrite (IH (S i) _ j sf) by done. f_equal. f_equal. lia.
Qed.

Lemma setCenters_dom N sfs : ∀ i (m : gmap string Center) sf,
  is_Some (setCenters N i sfs m !! sf) ↔ is_Some (m !! sf) ∨ sf ∈ sfs.
Proof.
  induction sfs as [|sf0 sfs IH]; intros i m sf; simpl.
  - split; [by left|]. intros [|?%elem_of_nil]; done.
  - rewrite IH, elem_of_cons. destruct (decide (sf0 = sf)) as [->|Hne].
    + rewrite lookup_insert_eq. split; [intros _; right; by left|intros _; left; by eexists].
    + rewrite lookup_insert_ne by done. split; intros [|]; auto.
      destruct H0 as [|]; [congruence|auto].
Qed.

Lemma centerAt_on_circle i N :
  ((center_x (centerAt i N) - centerX)² + (center_y (centerAt i N) - centerY)²
   = clusterRadius²)%R.
Proof.
  unfold centerAt. simpl. pose proof (sin2_cos2 (slotAngle i N)) as Htrig.
  unfold Rsqr in *.
  replace ((centerX + clusterRadius * cos (slotAngle i N) - centerX) *
           (centerX + clusterRadius * cos (slotAngle i N) - centerX) +
           (centerY + clusterRadius * sin (slotAngle i N) - centerY) *
           (centerY + clusterRadius * sin (slotAngle i N) - centerY))%R
    with (clusterRadius * clusterRadius *
          (sin (slotAngle i N) * sin (slotAngle i N)
           + cos (slotAngle i N) * cos (slotAngle i N)))%R by ring.
  rewrite Htrig. ring.
Qed.

Lemma setYear_clusterKeys st year :
  clusterKeys (setYear st year) =
    match merge_sort strLe (elements (presentSubfields (filteredAuthors st)
                                        (currentYear (setYear st year)) (mainMode st))) with
    | [] => ["Unknown"%string]
    | l => l
    end.
Proof. reflexivity. Qed.

Lemma setYear_clusterCenterMap st year :
  clusterCenterMap (setYear st year) =
    setCenters (length (clusterKeys (setYear st year))) 0 (clusterKeys (setYear st year)) ∅.
Proof. reflexivity. Qed.

(** C4: after [setYear] the visible subfields are the subfields with a
    strictly positive count for some author of the population, or exactly
    ["Unknown"] when there is none; the list is never empty and is in
    increasing name order; the subfield of slot [i] of [N] gets the angle
    [(i / N) * 2 * PI - PI / 2] and a point of the circle of the fixed
    radius around the fixed centre. *)
Theorem cluster_layout (st : State) (year : Z) :
  let st' := setYear st year in
  let keys := clusterKeys st' in
  let positive := qualifies (filteredAuthors st) (currentYear st') (mainMode st) in
  keys ≠ []
  ∧ ((∃ sf, positive sf) → ∀ sf, sf ∈ keys ↔ positive sf)
  ∧ ((¬ ∃ sf, positive sf) → keys = ["Unknown"%string])
  ∧ StronglySorted strLt keys
  ∧ (∀ sf, is_Some (clusterCenterMap st' !! sf) ↔ sf ∈ keys)
  ∧ (∀ i sf, keys !! i = Some sf →
       ∃ c, clusterCenterMap st' !! sf = Some c
            ∧ center_angle c = (INR i / INR (length keys) * 2 * PI - PI / 2)%R
            ∧ center_x c = (centerX + clusterRadius * cos (center_angle c))%R
            ∧ center_y c = (centerY + clusterRadius * sin (center_angle c))%R
            ∧ ((center_x c - centerX)² + (center_y c - centerY)² = clusterRadius²)%R).
Proof.
  intros st' keys positive.
  assert (keys = visibleOrUnknown
                   {| yearMinAll := yearMinAll st; yearMaxAll := yearMaxAll st;
                      filteredAuthors := filteredAuthors st; mainMode := mainMode st;
                      currentYear := currentYear st';
                      nodes := refreshNodes st (currentYear st');
                      clusterKeys := clusterKeys st;
                      clusterCenterMap := clusterCenterMap st;
                      phantomData := phantomData st;
                      showPhantoms := showPhantoms st; showSankey := showSankey st |}
                   (currentYear st')) as Hkeys by reflexivity.
  set (st1 := {| yearMinAll := yearMinAll st; yearMaxAll := _ |}) in Hkeys.
  assert (∀ sf, sf ∈ computeVisibleSubfields st1 (currentYear st') ↔ positive sf) as Hvis.
  { intros sf. apply elem_of_computeVisibleSubfields. }
  assert (StronglySorted strLt keys) as Hsorted.
  { rewrite Hkeys. apply visibleOrUnknown_sorted. }
  split; [|split; [|split; [|split; [|split]]]].
  - rewrite Hkeys. unfold visibleOrUnknown.
    by destruct (computeVisibleSubfields st1 (currentYear st')).
  - intros [sf0 Hsf0] sf. rewrite Hkeys. unfold visibleOrUnknown.
    apply Hvis in Hsf0. rewrite <- Hvis.
    destruct (computeVisibleSubfields st1 (currentYear st')); [|done].
    by apply elem_of_nil in Hsf0.
  - intros Hnone. rewrite Hkeys. unfold visibleOrUnknown.
    destruct (computeVisibleSubfields st1 (currentYear st')) as [|sf l] eqn:Heq; [done|].
    destruct Hnone. exists sf. apply Hvis. left.
  - done.
  - intros sf. unfold st'. rewrite setYear_clusterCenterMap. fold st'. fold keys.
    rewrite setCenters_dom, lookup_empty. split; [intros [[? [=]]|]; done|by right].
  - intros i sf Hi. exists (centerAt i (length keys)).
    split; [|split; [done|split; [done|split; [done|apply centerAt_on_circle]]]].
    unfold st'. rewrite setYear_clusterCenterMap. fold st'. fold keys.
    rewrite (setCenters_lookup _ keys 0 ∅ i sf); [done| |done].
    by apply StronglySorted_strLt_NoDup.
Qed.

Lemma cluster_layout_witness :
  clusterKeys (setYear zeroCountState 2020) = ["Unknown"%string]
  ∧ (∀ sf, sf ∈ clusterKeys (setYear roundTripState 2021)
           ↔ qualifies (filteredAuthors roundTripState)
                       (currentYear (setYear roundTripState 2021))
                       (mainMode roundTripState) sf).
Proof.
  split.
  - destruct (cluster_layout zeroCountState 2020) as (_ & _ & Hnone & _).
    apply Hnone. intros (sf & a & cnt & Ha & Hcnt & Hpos).
    apply list_elem_of_singleton in Ha as ->.
    assert (countsFor (precompute zeroCountAuthor)
                      (currentYear (setYear zeroCountState 2020))
                      (mainMode zeroCountState) = {[ "AI"%string := 0 ]}) as Hc
      by (vm_compute; reflexivity).
    rewrite Hc in Hcnt. apply lookup_singleton_Some in Hcnt as [_ <-]. lia.
  - destruct (cluster_layout roundTripState 2021) as (_ & Hsome & _).
    apply Hsome. exists "AI"%string, (precompute roundTripAuthor), 5.
    split; [left|]. split; [vm_compute; reflexivity|lia].
Defined.

(** ** Phantom edges *)

Lemma isActiveBy_true a year mode :
  isActiveBy a year mode = true
  ↔ ∃ sf cnt, countsFor a year mode !! sf = Some cnt ∧ 0 < cnt.
Proof.
  unfold isActiveBy. rewrite existsb_exists. split.
  - intros (v & Hin & Hv). apply bool_decide_eq_true in Hv.
    apply list_elem_of_In, elem_of_values in Hin as [sf Hsf].
    exists sf, v. split; [done|lia].
  - intros (sf & cnt & Hsf & Hpos). exists cnt. split.
    + apply list_elem_of_In, elem_of_values. by exists sf.
    + apply bool_decide_eq_true. lia.
Qed.

Lemma elem_of_phantomsOfNode st year n e :
  e ∈ phantomsOfNode st year n
  ↔ ∃ cnt c,
      countsFor (node_author n) year (mainMode st) !! subfield e = Some cnt
      ∧ 0 < cnt
      ∧ subfield e ≠ mainSubfieldFor (node_author n) year (mainMode st)
      ∧ clusterCenterMap st !! subfield e = Some c
      ∧ e = {| parent := n; subfield := subfield e; count := cnt;
               tx := center_x c; ty := center_y c |}.
Proof.
  unfold phantomsOfNode. split.
  - destruct (isActiveBy (node_author n) year (mainMode st)); [|by intros ?%elem_of_nil].
    intros ([sf cnt] & Hin & Hentry)%list_elem_of_bind.
    apply elem_of_entries in Hentry.
    destruct (bool_decide (cnt > 0)) eqn:Hpos; [|by apply elem_of_nil in Hin].
    destruct (bool_decide (sf ≠ _)) eqn:Hmain; [|by apply elem_of_nil in Hin].
    simpl in Hin. apply bool_decide_eq_true in Hpos, Hmain.
    destruct (clusterCenterMap st !! sf) as [c|] eqn:Hc; [|by apply elem_of_nil in Hin].
    apply list_elem_of_singleton in Hin as ->. simpl.
    exists cnt, c. rewrite numberOr0_id. repeat split; auto; lia.
  - intros (cnt & c & Hcnt & Hpos & Hmain & Hc & He).
    assert (isActiveBy (node_author n) year (mainMode st) = true) as ->.
    { apply isActiveBy_true. eauto. }
    apply list_elem_of_bind. exists (subfield e, cnt).
    split; [|by apply elem_of_entries].
    rewrite bool_decide_eq_true_2 by lia. rewrite bool_decide_eq_true_2 by done.
    simpl. rewrite Hc, numberOr0_id. rewrite He at 1. left.
Qed.

Lemma phantomsOfNode_parent st year n e : e ∈ phantomsOfNode st year n → parent e = n.
Proof.
  intros (cnt & c & _ & _ & _ & _ & ->)%elem_of_phantomsOfNode. done.
Qed.

Lemma phantomsOfNode_determined st year n e1 e2 :
  e1 ∈ phantomsOfNode st year n → e2 ∈ phantomsOfNode st year n →
  subfield e1 = subfield e2 → e1 = e2.
Proof.
  intros (cnt1 & c1 & Hcnt1 & _ & _ & Hc1 & ->)%elem_of_phantomsOfNode
         (cnt2 & c2 & Hcnt2 & _ & _ & Hc2 & ->)%elem_of_phantomsOfNode Hsf.
  simpl in *. rewrite Hsf in *. congruence.
Qed.

Lemma phantomsOfNode_NoDup st year n : NoDup (phantomsOfNode st year n).
Proof.
  unfold phantomsOfNode.
  destruct (isActiveBy (node_author n) year (mainMode st)); [|constructor].
  apply NoDup_bind.
  - intros [sf1 cnt1] [sf2 cnt2] e Hin1 Hin2 He1 He2.
    apply elem_of_entries in Hin1, Hin2.
    repeat case_match; try (by apply elem_of_nil in He1); try (by apply elem_of_nil in He2).
    apply list_elem_of_singleton in He1, He2. subst e.
    injection He2 as Hsf _. subst. congruence.
  - intros [sf cnt] _. repeat case_match; repeat constructor.
    by intros ?%elem_of_nil.
  - apply NoDup_map_to_list.
Qed.

(** C5: the phantom edges are the pairs of a node and a category of its
    [countsFor] result with a strictly positive count, other than the
    dominant subfield, and with a cluster center; there is one edge per
    such pair, every edge points at a mapped subfield, and no edge belongs
    to an inactive author or to a dominant subfield. *)
Theorem phantoms_spec (st : State) (year : Z) :
  let out := computePhantomsForYear st year in
  let counts n := countsFor (node_author n) year (mainMode st) in
  let main n := mainSubfieldFor (node_author n) year (mainMode st) in
  (∀ e, e ∈ out ↔
        ∃ n cnt c, n ∈ nodes st
                   ∧ counts n !! subfield e = Some cnt ∧ 0 < cnt
                   ∧ subfield e ≠ main n
                   ∧ clusterCenterMap st !! subfield e = Some c
                   ∧ e = {| parent := n; subfield := subfield e; count := cnt;
                            tx := center_x c; ty := center_y c |})
  ∧ (∀ e, e ∈ out →
          is_Some (clusterCenterMap st !! subfield e)
          ∧ isActiveBy (node_author (parent e)) year (mainMode st) = true
          ∧ subfield e ≠ main (parent e))
  ∧ (∀ e1 e2, e1 ∈ out → e2 ∈ out →
              parent e1 = parent e2 → subfield e1 = subfield e2 → e1 = e2)
  ∧ (NoDup (nodes st) → NoDup out).
Proof.
  intros out counts main.
  assert (∀ e, e ∈ out ↔ ∃ n, e ∈ phantomsOfNode st year n ∧ n ∈ nodes st) as Hout.
  { intros e. unfold out, computePhantomsForYear. apply list_elem_of_bind. }
  split; [|split; [|split]].
  - intros e. rewrite Hout. split.
    + intros (n & (cnt & c & H1 & H2 & H3 & H4 & H5)%elem_of_phantomsOfNode & Hn).
      exists n, cnt, c. done.
    + intros (n & cnt & c & Hn & H1 & H2 & H3 & H4 & H5).
      exists n. split; [|done]. apply elem_of_phantomsOfNode. exists cnt, c. done.
  - intros e (n & Hin & Hn)%Hout.
    pose proof (phantomsOfNode_parent _ _ _ _ Hin) as Hp.
    apply elem_of_phantomsOfNode in Hin as (cnt & c & H1 & H2 & H3 & H4 & _).
    rewrite Hp. split; [by eexists|]. split; [|done].
    apply isActiveBy_true. eauto.
  - intros e1 e2 (n1 & Hin1 & _)%Hout (n2 & Hin2 & _)%Hout Hp Hsf.
    rewrite (phantomsOfNode_parent _ _ _ _ Hin1), (phantomsOfNode_parent _ _ _ _ Hin2) in Hp.
    subst n2. by apply (phantomsOfNode_determined st year n1).
  - intros Hnd. unfold out, computePhantomsForYear. apply NoDup_bind; [| |done].
    + intros n1 n2 e _ _ H1 H2.
      by rewrite <- (phantomsOfNode_parent _ _ _ _ H1), <- (phantomsOfNode_parent _ _ _ _ H2).
    + intros n _. apply phantomsOfNode_NoDup.
Qed.

Lemma phantoms_spec_witness :
  NoDup (computePhantomsForYear (phantomFrame 2021) 2021).
Proof.
  destruct (phantoms_spec (phantomFrame 2021) 2021) as (_ & _ & _ & Hnd).
  apply Hnd. vm_compute. apply NoDup_singleton.
Defined.

(** ** Phantom opacity *)

Lemma scaleLinear_linear (d1 r0 r1 x : Q) :
  (¬ d1 == 0)%Q → (scaleLinear 0 d1 r0 r1 x == r0 + x / d1 * (r1 - r0))%Q.
Proof.
  intros Hd. unfold scaleLinear.
  destruct (Qeq_bool (d1 - 0) 0) eqn:Hz.
  - apply Qeq_bool_iff in Hz. destruct Hd. Lqa.lra.
  - field. intros H0. apply Hd. Lqa.lra.
Qed.

Lemma scaleLinear_top (d1 r0 r1 : Q) :
  (¬ d1 == 0)%Q → (scaleLinear 0 d1 r0 r1 d1 == r1)%Q.
Proof. intros Hd. rewrite scaleLinear_linear by done. by field. Qed.

Lemma computePhantomsForYear_positive st year e :
  e ∈ computePhantomsForYear st year → 0 < count e.
Proof.
  intros (n & Hin & _)%list_elem_of_bind.
  apply elem_of_phantomsOfNode in Hin as (cnt & c & _ & Hpos & _ & _ & ->). done.
Qed.

Lemma maxCountOf_elem data : data ≠ [] → ∃ d, d ∈ data ∧ count d = maxCountOf data.
Proof.
  intros Hne. unfold maxCountOf.
  assert (count <$> data ≠ []) as Hne' by (by destruct data).
  pose proof (Math_max_elem _ Hne') as Hin.
  apply list_elem_of_fmap in Hin as (d & Hd & Hin). exists d.
  split; [done|]. by destruct (count <$> data).
Qed.

Lemma maxCountOf_ge data d : d ∈ data → count d ≤ maxCountOf data.
Proof.
  intros Hin. unfold maxCountOf.
  assert (count d ∈ count <$> data) as Hc by (by apply list_elem_of_fmap_2).
  pose proof (Math_max_ge _ _ Hc). destruct (count <$> data); [|done].
  by apply elem_of_nil in Hc.
Qed.

Lemma inject_Z_nonzero z : 0 < z → (¬ inject_Z z == 0)%Q.
Proof.
  intros Hz Heq. assert (0 < inject_Z z)%Q as Hlt by (rewrite <- (Zlt_Qlt 0); lia).
  rewrite Heq in Hlt. by apply Qlt_irrefl in Hlt.
Qed.

(** C6: in a non-empty frame every phantom edge gets the opacity
    [0.01 + (count / max) * (0.30 - 0.01)], [max] being the largest count of
    the frame; an edge with the largest count gets [0.30]; and the same
    count gets different opacities in two frames with different maxima. *)
Theorem phantom_opacity :
  (∀ st : State,
     let data := phantomData (updatePhantoms st).1 in
     let drawn := (updatePhantoms st).2 in
     let maxCount := maxCountOf data in
     data ≠ [] →
     data = computePhantomsForYear st (currentYear st)
     ∧ (∃ d, d ∈ data ∧ count d = maxCount)
     ∧ (∀ d, d ∈ data → 0 < count d ≤ maxCount)
     ∧ (showPhantoms st = true →
          drawn = (λ d, (d, opacityScale data (count d))) <$> data)
     ∧ (∀ d, d ∈ data →
          (opacityScale data (count d) ==
             (1 # 100) + inject_Z (count d) / inject_Z maxCount * ((30 # 100) - (1 # 100)))%Q)
     ∧ (∀ d, d ∈ data → count d = maxCount →
          (opacityScale data (count d) == 30 # 100)%Q))
  ∧ (∃ d1 d2,
       d1 ∈ phantomData (updatePhantoms (phantomFrame 2020)).1
       ∧ d2 ∈ phantomData (updatePhantoms (phantomFrame 2021)).1
       ∧ count d1 = count d2
       ∧ ¬ (opacityScale (phantomData (updatePhantoms (phantomFrame 2020)).1) (count d1) ==
            opacityScale (phantomData (updatePhantoms (phantomFrame 2021)).1) (count d2))%Q).
Proof.
  split.
  - intros st data drawn maxCount Hne.
    assert (data = computePhantomsForYear st (currentYear st)) as Hdata by reflexivity.
    assert (∀ d, d ∈ data → 0 < count d ≤ maxCount) as Hrange.
    { intros d Hd. split; [|by apply maxCountOf_ge].
      rewrite Hdata in Hd. by apply computePhantomsForYear_positive in Hd. }
    destruct (maxCountOf_elem data Hne) as (dmax & Hdmax & Hcount). fold maxCount in Hcount.
    assert (¬ inject_Z maxCount == 0)%Q as Hnz.
    { apply inject_Z_nonzero. specialize (Hrange _ Hdmax). lia. }
    split; [done|]. split; [by exists dmax|]. split; [done|]. split; [|split].
    + intros Hshow. unfold drawn, updatePhantoms. simpl. by rewrite Hshow.
    + intros d Hd. unfold opacityScale. fold maxCount. by apply scaleLinear_linear.
    + intros d Hd ->. unfold opacityScale. fold maxCount. by apply scaleLinear_top.
  - assert (∃ d1, d1 ∈ phantomData (updatePhantoms (phantomFrame 2020)).1 ∧ count d1 = 2)
      as (d1 & Hd1 & Hc1).
    { assert (2 ∈ count <$> phantomData (updatePhantoms (phantomFrame 2020)).1) as Hin
        by (vm_compute; left).
      apply list_elem_of_fmap in Hin as (d & Hd & Hin). by exists d. }
    assert (∃ d2, d2 ∈ phantomData (updatePhantoms (phantomFrame 2021)).1 ∧ count d2 = 2)
      as (d2 & Hd2 & Hc2).
    { assert (2 ∈ count <$> phantomData (updatePhantoms (phantomFrame 2021)).1) as Hin
        by (vm_compute; left).
      apply list_elem_of_fmap in Hin as (d & Hd & Hin). by exists d. }
    exists d1, d2. split; [exact Hd1|]. split; [exact Hd2|]. split; [congruence|].
    rewrite Hc1, Hc2. vm_compute. discriminate.
Qed.


Lemma phantom_opacity_witness :
  ∃ d, d ∈ phantomData (updatePhantoms (phantomFrame 2021)).1
       ∧ count d = maxCountOf (phantomData (updatePhantoms (phantomFrame 2021)).1)
       ∧ (opacityScale (phantomData (updatePhantoms (phantomFrame 2021)).1) (count d)
          == 30 # 100)%Q.
Proof.
  destruct phantom_opacity as [Hframe _].
  assert (phantomData (updatePhantoms (phantomFrame 2021)).1 ≠ []) as Hne.
  { assert (count <$> phantomData (updatePhantoms (phantomFrame 2021)).1 = [2; 4]) as Hc
      by (vm_compute; reflexivity).
    intros Hnil. rewrite Hnil in Hc. discriminate Hc. }
  destruct (Hframe (phantomFrame 2021) Hne) as (_ & (d & Hd & Hmax) & _ & _ & _ & Htop).
  exists d. split; [exact Hd|]. split; [exact Hmax|]. exact (Htop d Hd Hmax).
Defined.

(** ** Flow aggregation *)

Lemma addPositive_lookup t p k :
  addPositive t p !! k =
    match p !! k with
    | Some v => if decide (v ≤ 0) then t !! k else Some (default 0 (t !! k) + v)
    | None => t !! k
    end.
Proof.
  unfold addPositive.
  rewrite (entries_keyed_lookup _
             (λ o v, if decide (v ≤ 0) then o else Some (default 0 o + v))); [done|].
  intros r k' v k''. rewrite numberOr0_id, getOr0_default.
  destruct (decide (v ≤ 0)).
  - by destruct (decide (k'' = k')) as [->|].
  - destruct (decide (k'' = k')) as [->|Hne].
    + by rewrite lookup_insert_eq.
    + by rewrite lookup_insert_ne.
Qed.

Lemma addPositive_default t p k :
  default 0 (addPositive t p !! k) = default 0 (t !! k) + Z.max 0 (default 0 (p !! k)).
Proof.
  rewrite addPositive_lookup. destruct (p !! k) as [v|]; simpl; [|lia].
  destruct (decide (v ≤ 0)); simpl; lia.
Qed.

Lemma addPositive_positive t p :
  (∀ k v, t !! k = Some v → 0 < v) → ∀ k v, addPositive t p !! k = Some v → 0 < v.
Proof.
  intros Ht k v. rewrite addPositive_lookup.
  destruct (p !! k) as [w|]; [|apply Ht].
  destruct (decide (w ≤ 0)); [apply Ht|]. intros [= <-].
  destruct (t !! k) as [u|] eqn:Hu; simpl; [|lia]. specialize (Ht _ _ Hu). lia.
Qed.

Lemma foldl_addPositive_default (f : Author → gmap string Z) authors k : ∀ t,
  default 0 (foldl (λ t a, addPositive t (f a)) t authors !! k) =
    default 0 (t !! k) + sumZ ((λ a, Z.max 0 (default 0 (f a !! k))) <$> authors).
Proof.
  induction authors as [|a authors IH]; intros t.
  - unfold sumZ. simpl. lia.
  - cbn [foldl]. rewrite IH, addPositive_default, fmap_cons, sumZ_cons. lia.
Qed.

Lemma foldl_addPositive_positive (f : Author → gmap string Z) authors : ∀ t,
  (∀ k v, t !! k = Some v → 0 < v) →
  ∀ k v, foldl (λ t a, addPositive t (f a)) t authors !! k = Some v → 0 < v.
Proof.
  induction authors as [|a authors IH]; intros t Ht; simpl; [done|].
  apply IH. by apply addPositive_positive.
Qed.

Lemma pairTotalsOf_default st key :
  default 0 (pairTotalsOf st !! key) =
    sumZ ((λ a, Z.max 0 (pairCount st a key)) <$> filteredAuthors st).
Proof.
  unfold pairTotalsOf. rewrite (foldl_addPositive_default (sankeyPairsOf st)).
  by rewrite lookup_empty.
Qed.

Lemma pairTotalsOf_positive st key v : pairTotalsOf st !! key = Some v → 0 < v.
Proof.
  unfold pairTotalsOf. apply (foldl_addPositive_positive (sankeyPairsOf st)).
  intros k w. by rewrite lookup_empty.
Qed.

Lemma sumZ_max0_pos {A} (f : A → Z) l :
  0 < sumZ ((λ a, Z.max 0 (f a)) <$> l) ↔ ∃ a, a ∈ l ∧ 0 < f a.
Proof.
  induction l as [|x l IH].
  - unfold sumZ. simpl. split; [lia|]. intros (a & Ha & _). by apply elem_of_nil in Ha.
  - rewrite fmap_cons, sumZ_cons.
    assert (0 ≤ sumZ ((λ a, Z.max 0 (f a)) <$> l)) as Hnn.
    { clear. induction l as [|y l IH]; [done|]. rewrite fmap_cons, sumZ_cons. lia. }
    split.
    + intros Hpos. destruct (decide (0 < f x)) as [Hx|Hx].
      * exists x. split; [left|done].
      * destruct (proj1 IH) as (a & Ha & Hfa); [lia|]. exists a. split; [by right|done].
    + intros (a & [->|Ha]%elem_of_cons & Hfa); [lia|].
      assert (0 < sumZ ((λ a, Z.max 0 (f a)) <$> l)) by (apply IH; eauto). lia.
Qed.

Lemma sumZ_max0_nonneg {A} (f : A → Z) l :
  (∀ a, a ∈ l → 0 ≤ f a) →
  sumZ ((λ a, Z.max 0 (f a)) <$> l) = sumZ (f <$> l).
Proof.
  induction l as [|x l IH]; intros Hall; [done|].
  rewrite !fmap_cons, !sumZ_cons, IH.
  - specialize (Hall x (list_elem_of_here _ _)). lia.
  - intros a Ha. apply Hall. by right.
Qed.

Lemma elem_of_setAdd x l y : y ∈ setAdd x l ↔ y = x ∨ y ∈ l.
Proof.
  unfold setAdd. destruct (decide (x ∈ l)) as [Hin|Hnin].
  - split; [by right|]. by intros [->|].
  - rewrite elem_of_app, list_elem_of_singleton. tauto.
Qed.

Lemma NoDup_setAdd x l : NoDup l → NoDup (setAdd x l).
Proof.
  intros Hnd. unfold setAdd. destruct (decide (x ∈ l)) as [Hin|Hnin]; [done|].
  apply NoDup_app. split; [done|]. split; [|apply NoDup_singleton].
  intros y Hy ->%list_elem_of_singleton. done.
Qed.

(** The loop that builds [links] and [nodesSet]: one link per entry whose
    key has at least two parts, and the names of the ends of the links. *)
Lemma linksAndNodes_spec (l : list (string * Z)) :
  let acc := foldl linkStep ([], []) l in
  acc.1 = omap linkOf l
  ∧ (∀ n, n ∈ acc.2 ↔ ∃ k, k ∈ acc.1 ∧ (n = source k ∨ n = target k))
  ∧ NoDup acc.2.
Proof.
  apply (foldl_invariant
           (λ pre (acc : list Link * list string),
              acc.1 = omap linkOf pre
              ∧ (∀ n, n ∈ acc.2 ↔ ∃ k, k ∈ acc.1 ∧ (n = source k ∨ n = target k))
              ∧ NoDup acc.2)).
  - simpl. split; [done|]. split; [|constructor].
    intros n. split; [by intros ?%elem_of_nil|]. intros (k & Hk & _). by apply elem_of_nil in Hk.
  - intros pre e [links names] (Hlinks & Hnames & Hnd). simpl in *.
    rewrite omap_app. unfold linkStep, linkOf at 2. simpl.
    destruct (split e.1 "---") as [|sub [|field rest]]; simpl.
    + rewrite app_nil_r. done.
    + rewrite app_nil_r. done.
    + split; [by rewrite Hlinks|]. split; [|by do 2 apply NoDup_setAdd].
      intros n. rewrite !elem_of_setAdd, Hnames. split.
      * intros [->|[->|(k & Hk & Hn)]].
        -- eexists. split; [apply elem_of_app; right; left|]. by right.
        -- eexists. split; [apply elem_of_app; right; left|]. by left.
        -- exists k. split; [apply elem_of_app; by left|done].
      * intros (k & [Hk|Hk]%elem_of_app & Hn).
        -- right; right. by exists k.
        -- apply list_elem_of_singleton in Hk as ->. simpl in Hn. destruct Hn; auto.
Qed.

Lemma elem_of_omap_linkOf (pt : gmap string Z) k :
  k ∈ omap linkOf (entries pt)
  ↔ ∃ key, pt !! key = Some (value k)
           ∧ (2 ≤ length (split key "---"))%nat
           ∧ split key "---" !! 0%nat = Some (source k)
           ∧ split key "---" !! 1%nat = Some (target k).
Proof.
  rewrite list_elem_of_omap. split.
  - intros ([key total] & Hin & Hlink). apply elem_of_entries in Hin.
    unfold linkOf in Hlink. simpl in Hlink.
    destruct (split key "---") as [|sub [|field rest]] eqn:Hs; try done.
    injection Hlink as <-. simpl. exists key. rewrite Hs. simpl.
    split; [done|]. split; [lia|done].
  - intros (key & Hkey & Hlen & H0 & H1). exists (key, value k).
    split; [by apply elem_of_entries|]. unfold linkOf. simpl.
    destruct (split key "---") as [|sub [|field rest]]; simpl in *; try lia.
    injection H0 as ->. injection H1 as ->. by destruct k.
Qed.

Lemma nameToIndex_Some names n : n ∈ names →
  ∃ i, nameToIndex names n = Some i ∧ names !! i = Some n.
Proof.
  intros Hin. unfold nameToIndex.
  destruct (list_find (λ x, x = n) names) as [[i x]|] eqn:Hfind.
  - apply list_find_Some in Hfind as (Hi & -> & _). by exists i.
  - apply list_find_None in Hfind. rewrite Forall_forall in Hfind.
    by destruct (Hfind n Hin).
Qed.

Lemma nameToIndex_lookup names n i : nameToIndex names n = Some i → names !! i = Some n.
Proof.
  unfold nameToIndex. destruct (list_find (λ x, x = n) names) as [[i' x]|] eqn:Hfind; [|done].
  intros [= <-]. by apply list_find_Some in Hfind as (Hi & -> & _).
Qed.

(** The graph given to the layout has a left and a right side exactly when
    no name is the first part of one link and the second part of another (or
    of the same) link: one set of names serves both sides. *)
Lemma graph_bipartite names links :
  (∀ k, k ∈ links → source k ∈ names ∧ target k ∈ names) →
  bipartite {| graph_nodes := names;
               graph_links :=
                 (λ l, (nameToIndex names (source l), nameToIndex names (target l), value l))
                   <$> links |}
  ↔ ∀ k k', k ∈ links → k' ∈ links → source k ≠ target k'.
Proof.
  intros Hends. unfold bipartite. cbn [graph_links]. split.
  - intros [right Hright] k k' Hk Hk' Heq.
    destruct (Hends k Hk) as [Hs Ht]. destruct (Hends k' Hk') as [Hs' Ht'].
    destruct (nameToIndex_Some names (source k) Hs) as (i & Hi & _).
    destruct (nameToIndex_Some names (target k) Ht) as (j & Hj & _).
    destruct (nameToIndex_Some names (source k') Hs') as (i' & Hi' & _).
    destruct (nameToIndex_Some names (target k') Ht') as (j' & Hj' & _).
    destruct (Hright i j (value k)) as [Hleft _].
    { apply list_elem_of_fmap. exists k. by rewrite Hi, Hj. }
    destruct (Hright i' j' (value k')) as [_ Hrt].
    { apply list_elem_of_fmap. exists k'. by rewrite Hi', Hj'. }
    rewrite Heq, Hj' in Hi. injection Hi as <-. congruence.
  - intros Hsep.
    exists (λ i, match names !! i with
                 | Some n => bool_decide (n ∈ target <$> links)
                 | None => false
                 end).
    intros i j v (k & [= Hi Hj Hv] & Hk)%list_elem_of_fmap.
    symmetry in Hi, Hj. apply nameToIndex_lookup in Hi, Hj. rewrite Hi, Hj. split.
    + apply bool_decide_eq_false. intros (k' & Heq & Hk')%list_elem_of_fmap.
      by apply (Hsep k k').
    + apply bool_decide_eq_true. apply list_elem_of_fmap. by exists k.
Qed.

(** C7: the pair totals add the counts of every key over the filtered
    authors; every key with at least two ["---"]-separated parts gives one
    link from its first part to its second part, weighted by the total, and
    the other keys give none; the node names are the ends of the links, a
    name that occurs on both sides being one node, so the graph is
    bipartite exactly when no name is the first part of a link and the
    second part of a link; the totals [{"AI---CS": 5, "Software---CS": 3}]
    give the nodes [AI], [Software], [CS] and two links of weight 5 and 3;
    without totals nothing is drawn. *)
Theorem flow_aggregator :
  (∀ st : State,
     let totals := pairTotalsOf st in
     let links := (linksAndNodes totals).1 in
     let names := (linksAndNodes totals).2 in
     (∀ key, default 0 (totals !! key) =
               sumZ ((λ a, Z.max 0 (pairCount st a key)) <$> filteredAuthors st))
     ∧ ((∀ a key, a ∈ filteredAuthors st → 0 ≤ pairCount st a key) →
        ∀ key, default 0 (totals !! key) =
                 sumZ ((λ a, pairCount st a key) <$> filteredAuthors st))
     ∧ (∀ key, is_Some (totals !! key)
               ↔ ∃ a, a ∈ filteredAuthors st ∧ 0 < pairCount st a key)
     ∧ links = omap linkOf (entries totals)
     ∧ (∀ k, k ∈ links ↔
             ∃ key, totals !! key = Some (value k)
                    ∧ (2 ≤ length (split key "---"))%nat
                    ∧ split key "---" !! 0%nat = Some (source k)
                    ∧ split key "---" !! 1%nat = Some (target k))
     ∧ (∀ n, n ∈ names ↔ ∃ k, k ∈ links ∧ (n = source k ∨ n = target k))
     ∧ NoDup names
     ∧ (totals = ∅ → updateSankey st = None)
     ∧ (links ≠ [] →
        ∃ g, updateSankey st = Some g
             ∧ graph_nodes g = names
             ∧ graph_links g =
                 (λ l, (nameToIndex names (source l), nameToIndex names (target l), value l))
                   <$> links
             ∧ (∀ k, k ∈ links →
                     ∃ i j, nameToIndex names (source k) = Some i
                            ∧ nameToIndex names (target k) = Some j
                            ∧ names !! i = Some (source k)
                            ∧ names !! j = Some (target k))
             ∧ (bipartite g
                ↔ ∀ k k', k ∈ links → k' ∈ links → source k ≠ target k')))
  ∧ (pairTotalsOf flowState = flowPairs
     ∧ (linksAndNodes flowPairs).1
         ≡ₚ [ {| source := "AI"; target := "CS"; value := 5 |};
              {| source := "Software"; target := "CS"; value := 3 |} ]
     ∧ ∃ g, updateSankey flowState = Some g
            ∧ graph_nodes g ≡ₚ ["AI"; "Software"; "CS"]%string
            ∧ length (graph_links g) = 2%nat)
  ∧ buildGraph ∅ = None.
Proof.
  split; [|split].
  - intros st totals links names.
    destruct (linksAndNodes_spec (entries totals)) as (Hlinks & Hnames & Hnd).
    fold (linksAndNodes totals) in Hlinks, Hnames, Hnd. fold links in Hlinks, Hnames.
    fold names in Hnames, Hnd.
    assert (∀ key, is_Some (totals !! key)
                   ↔ ∃ a, a ∈ filteredAuthors st ∧ 0 < pairCount st a key) as Hdom.
    { intros key. rewrite <- (sumZ_max0_pos (λ a, pairCount st a key)).
      rewrite <- pairTotalsOf_default. fold totals. split.
      - intros [v Hv]. rewrite Hv. simpl. by apply (pairTotalsOf_positive st key).
      - destruct (totals !! key); [by eexists|simpl; lia]. }
    split; [apply pairTotalsOf_default|]. split.
    { intros Hnn key. unfold totals. rewrite pairTotalsOf_default.
      apply sumZ_max0_nonneg. intros a Ha. by apply Hnn. }
    split; [done|]. split; [done|]. split.
    { intros k. rewrite Hlinks. apply elem_of_omap_linkOf. }
    split; [done|]. split; [done|]. split.
    { intros Hempty. unfold updateSankey, buildGraph. fold totals. rewrite Hempty.
      by rewrite decide_True by apply map_size_empty. }
    intros Hne. unfold updateSankey, buildGraph. fold totals.
    assert (size totals ≠ 0%nat) as Hsize.
    { intros Hz%map_size_empty_iff. apply Hne. rewrite Hlinks, Hz.
      unfold entries. by rewrite map_to_list_empty. }
    rewrite decide_False by done.
    unfold links, names in *. destruct (linksAndNodes totals) as [ls ns]. simpl in *.
    destruct ls as [|l0 ls]; [done|]. eexists. split; [reflexivity|].
    split; [done|]. split; [done|].
    assert (∀ k, k ∈ l0 :: ls → source k ∈ ns ∧ target k ∈ ns) as Hends.
    { intros k Hk. split; apply Hnames; exists k; (split; [done|]); [by left|by right]. }
    split; [|by apply graph_bipartite].
    intros k Hk. destruct (Hends k Hk) as [Hs Ht].
    destruct (nameToIndex_Some ns (source k) Hs) as (i & Hi & Hi').
    destruct (nameToIndex_Some ns (target k) Ht) as (j & Hj & Hj').
    by exists i, j.
  - split; [vm_compute; reflexivity|]. split.
    + assert ((linksAndNodes flowPairs).1
              = [ {| source := "Software"; target := "CS"; value := 3 |};
                  {| source := "AI"; target := "CS"; value := 5 |} ]) as ->
        by (vm_compute; reflexivity).
      apply perm_swap.
    + eexists. split; [vm_compute; reflexivity|]. split; [|reflexivity].
      simpl. symmetry. apply (Permutation_cons_append ["Software"; "CS"]%string).
  - reflexivity.
Qed.

Lemma flow_aggregator_witness :
  default 0 (pairTotalsOf flowState !! "AI---CS"%string) =
    sumZ ((λ a, pairCount flowState a "AI---CS"%string) <$> filteredAuthors flowState).
Proof.
  destruct flow_aggregator as (Hall & _ & _).
  destruct (Hall flowState) as (_ & Hsum & _).
  apply Hsum. intros a key ->%list_elem_of_singleton.
  assert (sankeyPairsOf flowState
            (precompute (authorOf "A1" [] [(Decimal 2020, flowPairs)])) = flowPairs) as Hp
    by (vm_compute; reflexivity).
  unfold pairCount. rewrite Hp. unfold flowPairs.
  destruct (decide (key = "AI---CS"%string)) as [->|Hne1]; [by vm_compute|].
  rewrite lookup_insert_ne by done.
  destruct (decide (key = "Software---CS"%string)) as [->|Hne2]; [by vm_compute|].
  rewrite lookup_singleton_ne by done. done.
Defined.

(** The pair counts [{"X---X": 1}] give one node and a link from that node
    to itself: the graph is not bipartite. *)
Lemma flow_aggregator_self_loop :
  ∃ g, updateSankey selfLoopState = Some g
       ∧ graph_nodes g = ["X"%string]
       ∧ graph_links g = [(Some 0%nat, Some 0%nat, 1)]
       ∧ ¬ bipartite g.
Proof.
  eexists. split; [vm_compute; reflexivity|]. split; [reflexivity|]. split; [reflexivity|].
  intros [right Hright]. destruct (Hright 0%nat 0%nat 1) as [Hl Hr]; [left|]. congruence.
Qed.

(** * Further properties *)

(** Closes a decidable goal on concrete data by evaluation. *)
Ltac by_evaluation := apply (bool_decide_unpack _); vm_compute; exact I.

(** ** Tables and caches *)

Lemma numericKeys_unique tbl y o o' :
  NoDup (numericKeys tbl) → (Some y, o) ∈ tbl → (Some y, o') ∈ tbl → o = o'.
Proof.
  unfold numericKeys. induction tbl as [|[yk t] tbl IH]; intros Hnd Ho Ho'.
  { by apply elem_of_nil in Ho. }
  assert (∀ o0, (Some y, o0) ∈ tbl → y ∈ omap fst tbl) as Hkey.
  { intros o0 Hin. apply list_elem_of_omap. by exists (Some y, o0). }
  destruct yk as [y0|]; simpl in Hnd.
  - apply NoDup_cons in Hnd as [Hy0 Hnd].
    apply elem_of_cons in Ho as [[= <- <-]|Ho], Ho' as [[= ?]|Ho']; subst; auto.
    + destruct Hy0. by apply (Hkey o').
    + destruct Hy0. by apply (Hkey o).
  - apply elem_of_cons in Ho as [[=]|Ho], Ho' as [[=]|Ho']. auto.
Qed.

Lemma buildYear_lookup_elem tbl y o :
  buildYear tbl !! y = Some o → (Some y, o) ∈ tbl.
Proof.
  unfold buildYear.
  enough (∀ m : gmap Z (gmap string Z),
    foldl (λ cache '(yk, sfObj),
             match yk with
             | None => cache
             | Some y0 => <[y0 := copyCounts sfObj]> cache
             end) m tbl !! y = Some o → m !! y = Some o ∨ (Some y, o) ∈ tbl) as Hgen.
  { intros Hlook. destruct (Hgen ∅ Hlook) as [Hm|Hin]; [|done]. by rewrite lookup_empty in Hm. }
  induction tbl as [|[[y0|] t] tbl IH]; intros m Hlook; simpl in *.
  - by left.
  - destruct (IH _ Hlook) as [Hm|Hin]; [|right; by right].
    destruct (decide (y0 = y)) as [->|Hne].
    + rewrite lookup_insert_eq, copyCounts_id in Hm. injection Hm as ->. right. left.
    + rewrite lookup_insert_ne in Hm by done. by left.
  - destruct (IH _ Hlook) as [Hm|Hin]; [by left|right; by right].
Qed.

Lemma buildYear_lookup tbl y o :
  NoDup (numericKeys tbl) → (Some y, o) ∈ tbl → buildYear tbl !! y = Some o.
Proof.
  intros Hnd Hin.
  assert (is_Some (buildYear tbl !! y)) as [o' Ho'].
  { apply buildYear_is_Some. apply list_elem_of_fmap. by exists (Some y, o). }
  rewrite Ho'. f_equal. apply buildYear_lookup_elem in Ho'.
  by apply (numericKeys_unique tbl y).
Qed.

Lemma buildYear_last tbl1 tbl2 y o :
  Some y ∉ tbl2.*1 → buildYear (tbl1 ++ (Some y, o) :: tbl2) !! y = Some o.
Proof.
  intros Hlast. unfold buildYear. rewrite foldl_app. cbn [foldl].
  assert (∀ m : gmap Z (gmap string Z),
    foldl (λ cache '(yk, sfObj),
             match yk with
             | None => cache
             | Some y0 => <[y0 := copyCounts sfObj]> cache
             end) m tbl2 !! y = m !! y) as Hkeep.
  { induction tbl2 as [|[[y0|] t] tbl2 IH]; intros m; cbn [foldl]; [done| |].
    - rewrite fmap_cons in Hlast. apply not_elem_of_cons in Hlast as [Hne Hlast].
      rewrite (IH Hlast), lookup_insert_ne; [done|]. intros ->. by apply Hne.
    - rewrite fmap_cons in Hlast. apply not_elem_of_cons in Hlast as [_ Hlast].
      by rewrite (IH Hlast). }
  by rewrite Hkeep, lookup_insert_eq, copyCounts_id.
Qed.

(** X1: in ['year'] mode [countsFor] returns the empty mapping when the
    year is not a key of the author's table and a table stored under the
    year otherwise: the one of the last entry whose key converts to the
    year, which is the only one when the numeric keys are distinct. *)
Theorem countsFor_year_lookup (a : Author) (y : Z) :
  (Some y ∉ (yearly a).*1 → countsFor (precompute a) y Year = ∅)
  ∧ (Some y ∈ (yearly a).*1 →
       ∃ o, (Some y, o) ∈ yearly a ∧ countsFor (precompute a) y Year = o)
  ∧ (∀ before o after,
       yearly a = before ++ (Some y, o) :: after → Some y ∉ after.*1 →
       countsFor (precompute a) y Year = o)
  ∧ (NoDup (numericKeys (yearly a)) →
       ∀ o, (Some y, o) ∈ yearly a → countsFor (precompute a) y Year = o).
Proof.
  change (countsFor (precompute a) y Year) with (default ∅ (buildYear (yearly a) !! y)).
  split; [|split; [|split]].
  - intros Hnot. destruct (buildYear (yearly a) !! y) as [o|] eqn:Ho; [|done].
    destruct Hnot. apply buildYear_is_Some. by eexists.
  - intros [o Ho]%buildYear_is_Some. exists o. rewrite Ho.
    split; [by apply buildYear_lookup_elem|done].
  - intros before o after -> Hlast. by rewrite buildYear_last.
  - intros Hnd o Hin. by rewrite (buildYear_lookup _ _ _ Hnd Hin).
Qed.

Lemma countsFor_year_lookup_witness :
  countsFor (precompute roundTripAuthor) 2020 Year = {[ "AI"%string := 3 ]}
  ∧ countsFor (precompute roundTripAuthor) 1999 Year = ∅
  ∧ countsFor (precompute (authorOf "A1"
                 [ (Some 2020, {[ "AI"%string := 3 ]});
                   (Some 2020, {[ "Software"%string := 4 ]}) ] []))
              2020 Year = {[ "Software"%string := 4 ]}.
Proof.
  split; [|split].
  - destruct (countsFor_year_lookup roundTripAuthor 2020) as (_ & _ & _ & Hlook).
    apply Hlook; [by_evaluation|left].
  - destruct (countsFor_year_lookup roundTripAuthor 1999) as (Hnone & _).
    apply Hnone. by_evaluation.
  - destruct (countsFor_year_lookup
                (authorOf "A1" [ (Some 2020, {[ "AI"%string := 3 ]});
                                 (Some 2020, {[ "Software"%string := 4 ]}) ] []) 2020)
      as (_ & _ & Hlast & _).
    apply (Hlast [ (Some 2020, {[ "AI"%string := 3 ]}) ] _ []); [done|].
    apply not_elem_of_nil.
Defined.

Lemma foldl_Permutation {A B} (f : A → B → A) (l k : list B) :
  (∀ a x y, f (f a x) y = f (f a y) x) →
  l ≡ₚ k → ∀ a, foldl f a l = foldl f a k.
Proof.
  intros Hcomm. induction 1 as [|x l k _ IH|x y l|l k m _ IH1 _ IH2]; intros a; simpl.
  - done.
  - apply IH.
  - by rewrite Hcomm.
  - by rewrite IH1.
Qed.

Lemma addCounts_comm r a b :
  addCounts (addCounts r a) b = addCounts (addCounts r b) a.
Proof.
  apply map_eq. intros k. rewrite !addCounts_lookup.
  destruct (a !! k) as [va|], (b !! k) as [vb|], (r !! k) as [vr|]; simpl; f_equal; lia.
Qed.

(** The running table after the cumulative loop has visited the years
    [ys], written as one fold. *)
Lemma cumul_snapshot T ys : StronglySorted Z.lt ys → ∀ st y, y ∈ ys →
  (foldl (cumulStep T) st ys).2 !! y =
    Some (foldl (λ r y', addCounts r (default ∅ (T !! y'))) st.1
                (filter (λ y', y' ≤ y) ys)).
Proof.
  induction 1 as [|y0 ys Hs IH Hall]; intros st y Hin.
  { by apply elem_of_nil in Hin. }
  apply elem_of_cons in Hin as [->|Hin]; cbn [foldl].
  - rewrite cumul_keep.
    + rewrite filter_cons_True by lia. rewrite filter_le_above by done.
      cbn [cumulStep snd foldl fst]. by rewrite lookup_insert_eq.
    + intros Hin. rewrite Forall_forall in Hall. specialize (Hall _ Hin). lia.
  - assert (y0 < y) as Hlt by (rewrite Forall_forall in Hall; by apply Hall).
    rewrite (IH _ y Hin). rewrite filter_cons_True by lia. done.
Qed.

Lemma lookupUpTo_buildEntire_fold T Y :
  lookupUpTo (buildEntire T) Y =
    foldl (λ r y', addCounts r (default ∅ (T !! y'))) ∅
          (filter (λ y, y ≤ Y) (yearsSorted T)).
Proof.
  destruct (filter (λ y, y ≤ Y) (yearsSorted T)) as [|y1 l] eqn:Hf.
  - apply lookupUpTo_none. intros y Hy. apply (proj1 (buildEntire_is_Some T y)) in Hy.
    apply (proj2 (elem_of_yearsSorted T y)) in Hy.
    destruct (decide (y ≤ Y)) as [Hle|]; [|lia].
    assert (y ∈ filter (λ y, y ≤ Y) (yearsSorted T)) as Hin by (by apply list_elem_of_filter).
    rewrite Hf in Hin. by apply elem_of_nil in Hin.
  - rewrite <- Hf.
    set (m := Math_max (filter (λ y, y ≤ Y) (yearsSorted T))).
    assert (filter (λ y, y ≤ Y) (yearsSorted T) ≠ []) as Hne by (by rewrite Hf).
    pose proof (Math_max_elem _ Hne) as Hm. fold m in Hm.
    apply list_elem_of_filter in Hm as [HmY Hm].
    rewrite (lookupUpTo_greatest _ Y m).
    + unfold buildEntire.
      rewrite (cumul_snapshot T _ (yearsSorted_increasing T) (∅, ∅) m Hm). simpl.
      f_equal. apply filter_ext_elem. intros y Hy. split; [lia|].
      intros HyY. apply Math_max_ge. by apply list_elem_of_filter.
    + apply buildEntire_is_Some. by apply elem_of_yearsSorted.
    + done.
    + intros y' Hy' Hy'Y. apply (proj1 (buildEntire_is_Some T y')) in Hy'.
      apply (proj2 (elem_of_yearsSorted T y')) in Hy'.
      apply Math_max_ge. by apply list_elem_of_filter.
Qed.

(** A loop that adds the tables of the selected entries is a fold over the
    selected tables. *)
Lemma foldl_select_tables (sel : Z → Prop) `{!∀ y, Decision (sel y)}
    (tbl : list (option Z * gmap string Z)) : ∀ out,
  foldl (λ out '(yk, sfObj),
           match yk with
           | None => out
           | Some y => if decide (sel y) then addCounts out sfObj else out
           end) out tbl
  = foldl addCounts out
          (omap (λ '(yk, sfObj), match yk with
                                 | Some y => if decide (sel y) then Some sfObj else None
                                 | None => None
                                 end) tbl).
Proof.
  induction tbl as [|[[y|] o] tbl IH]; intros out; simpl; [done| |apply IH].
  destruct (decide (sel y)); simpl; apply IH.
Qed.

Lemma selected_tables_eq (sel : Z → Prop) `{!∀ y, Decision (sel y)}
    (g : Z → gmap string Z) (tbl : list (option Z * gmap string Z)) :
  (∀ y o, (Some y, o) ∈ tbl → g y = o) →
  omap (λ '(yk, sfObj), match yk with
                        | Some y => if decide (sel y) then Some sfObj else None
                        | None => None
                        end) tbl
  = g <$> filter sel (numericKeys tbl).
Proof.
  unfold numericKeys. induction tbl as [|[[y|] o] tbl IH]; intros Hg; simpl.
  - done.
  - rewrite filter_cons. destruct (decide (sel y)); simpl.
    + f_equal; [symmetry; apply Hg; left|].
      apply IH. intros y' o' Hin. apply Hg. by right.
    + apply IH. intros y' o' Hin. apply Hg. by right.
  - apply IH. intros y' o' Hin. apply Hg. by right.
Qed.

Lemma selected_keys_Permutation (sel : Z → Prop) `{!∀ y, Decision (sel y)}
    (tbl : list (option Z * gmap string Z)) :
  NoDup (numericKeys tbl) →
  filter sel (numericKeys tbl) ≡ₚ filter sel (yearsSorted (buildYear tbl)).
Proof.
  intros Hnd. apply NoDup_Permutation.
  - by apply NoDup_filter.
  - apply NoDup_filter, NoDup_yearsSorted.
  - intros y. rewrite !list_elem_of_filter, elem_of_yearsSorted, buildYear_is_Some.
    unfold numericKeys. rewrite list_elem_of_omap, list_elem_of_fmap.
    split; intros [Hs (x & H1 & H2)]; (split; [done|]); exists x; done.
Qed.

Lemma foldl_over_fmap {A B C} (f : A → B → A) (g : C → B) (l : list C) : ∀ a,
  foldl f a (g <$> l) = foldl (λ a x, f a (g x)) a l.
Proof. induction l as [|x l IH]; intros a; simpl; [done|apply IH]. Qed.

(** Aggregating the selected tables directly gives the fold over the
    cached per-year tables of the selected years. *)
Lemma direct_fold_cached (sel : Z → Prop) `{!∀ y, Decision (sel y)}
    (tbl : list (option Z * gmap string Z)) :
  NoDup (numericKeys tbl) →
  foldl (λ out '(yk, sfObj),
           match yk with
           | None => out
           | Some y => if decide (sel y) then addCounts out sfObj else out
           end) ∅ tbl
  = foldl (λ r y, addCounts r (default ∅ (buildYear tbl !! y))) ∅
          (filter sel (yearsSorted (buildYear tbl))).
Proof.
  intros Hnd. rewrite foldl_select_tables.
  rewrite (selected_tables_eq sel (λ y, default ∅ (buildYear tbl !! y))).
  - rewrite (foldl_Permutation addCounts _ _ addCounts_comm
               (fmap_Permutation _ _ _ (selected_keys_Permutation sel tbl Hnd))).
    apply foldl_over_fmap.
  - intros y o Hin. by rewrite (buildYear_lookup _ _ _ Hnd Hin).
Qed.

Lemma foldl_ext_eq {A B} (f g : A → B → A) (l : list B) :
  (∀ a x, f a x = g a x) → ∀ a, foldl f a l = foldl g a l.
Proof.
  intros Hfg. induction l as [|x l IH]; intros a; simpl; [done|].
  by rewrite Hfg, IH.
Qed.

Lemma filter_eq_NoDup (y : Z) (l : list Z) :
  NoDup l → filter (λ z, z = y) l = if decide (y ∈ l) then [y] else [].
Proof.
  induction 1 as [|z l Hz Hnd IH].
  - by rewrite decide_False by apply not_elem_of_nil.
  - rewrite filter_cons, IH. destruct (decide (z = y)) as [->|Hne].
    + rewrite decide_False by done. rewrite decide_True by left. done.
    + destruct (decide (y ∈ l)) as [Hin|Hnin].
      * rewrite decide_True by (by right). done.
      * rewrite decide_False; [done|]. intros [->|?]%elem_of_cons; done.
Qed.

Lemma direct_year_cached (tbl : list (option Z * gmap string Z)) (year : Z) :
  NoDup (numericKeys tbl) →
  foldl (λ out '(yk, sfObj),
           match yk with
           | None => out
           | Some y => if decide (y = year) then addCounts out sfObj else out
           end) ∅ tbl
  = default ∅ (buildYear tbl !! year).
Proof.
  intros Hnd. rewrite (direct_fold_cached (λ y, y = year)) by done.
  rewrite filter_eq_NoDup by apply NoDup_yearsSorted.
  destruct (decide (year ∈ yearsSorted (buildYear tbl))) as [Hin|Hnin]; simpl.
  - apply addCounts_empty_l.
  - rewrite elem_of_yearsSorted in Hnin.
    destruct (buildYear tbl !! year); [|done]. destruct Hnin. by eexists.
Qed.

Lemma direct_entire_cached (tbl : list (option Z * gmap string Z)) (year : Z) :
  NoDup (numericKeys tbl) →
  foldl (λ out '(yk, sfObj),
           match yk with
           | None => out
           | Some y => if decide (y ≤ year) then addCounts out sfObj else out
           end) ∅ tbl
  = lookupUpTo (buildEntire (buildYear tbl)) year.
Proof.
  intros Hnd. rewrite (direct_fold_cached (λ y, y ≤ year)) by done.
  by rewrite lookupUpTo_buildEntire_fold.
Qed.

Lemma countsForDirect_precompute (a : Author) (year : Z) (mode : Mode) :
  NoDup (numericKeys (yearly a)) →
  countsForDirect a year mode = countsFor (precompute a) year mode.
Proof.
  intros Hnd. unfold countsForDirect. destruct mode.
  - change (countsFor (precompute a) year Year)
      with (default ∅ (buildYear (yearly a) !! year)).
    rewrite <- direct_year_cached by done.
    apply foldl_ext_eq. intros out [[y|] o]; [|done].
    destruct (decide (y ≠ year)), (decide (y = year)); done.
  - change (countsFor (precompute a) year Entire)
      with (lookupUpTo (buildEntire (buildYear (yearly a))) year).
    rewrite <- direct_entire_cached by done.
    apply foldl_ext_eq. intros out [[y|] o]; [|done].
    destruct (decide (y > year)), (decide (y ≤ year)); try done; lia.
Qed.

(** X2: on a table whose numeric year keys are distinct, [countsFor] of
    [js/sankey.js], which aggregates the table on every call, returns the
    same mapping as the cached [countsFor] of [main_viz.js], in both modes;
    so the two scripts give an author the same dominant subfield and the
    same activity flag. *)
Theorem countsForDirect_cached (a : Author) (year : Z) (mode : Mode) :
  NoDup (numericKeys (yearly a)) →
  countsForDirect a year mode = countsFor (precompute a) year mode
  ∧ SankeyJs.mainSubfieldFor a year mode = mainSubfieldFor (precompute a) year mode
  ∧ SankeyJs.isActiveBy a year mode = isActiveBy (precompute a) year mode.
Proof.
  intros Hnd. pose proof (countsForDirect_precompute a year mode Hnd) as Heq.
  unfold SankeyJs.mainSubfieldFor, SankeyJs.isActiveBy, mainSubfieldFor, isActiveBy.
  by rewrite Heq.
Qed.

Lemma countsForDirect_cached_witness :
  countsForDirect roundTripAuthor 2021 Entire
  = countsFor (precompute roundTripAuthor) 2021 Entire.
Proof.
  destruct (countsForDirect_cached roundTripAuthor 2021 Entire) as [Heq _].
  - by_evaluation.
  - exact Heq.
Defined.

Lemma addPairs_addCounts agg pairs : addPairs agg pairs = addCounts agg pairs.
Proof.
  unfold addPairs, addCounts. apply foldl_ext_eq. intros r [k v].
  by rewrite numberOr0_id.
Qed.

Lemma lookupYearKey_elem tbl year o :
  lookupYearKey tbl year = Some o → (Some year, o) ∈ numbered tbl.
Proof.
  unfold numbered. induction tbl as [|[[y|n] t] tbl IH]; simpl; [done| |].
  - destruct (decide (y = year)) as [->|]; [intros [= ->]; left|].
    intros Hl. right. by apply IH.
  - intros Hl. right. by apply IH.
Qed.

Lemma lookupYearKey_buildYear tbl year :
  decimalKeys tbl → NoDup (numericKeys (numbered tbl)) →
  lookupYearKey tbl year = buildYear (numbered tbl) !! year.
Proof.
  intros Hdec Hnd.
  assert (lookupYearKey tbl year = None → Some year ∉ (numbered tbl).*1) as Hnone.
  { clear Hnd. unfold numbered.
    induction Hdec as [|[k t] tbl [y Hk] Hdec IH]; simpl; [intros _; apply not_elem_of_nil|].
    simpl in Hk. subst k. simpl.
    destruct (decide (y = year)) as [->|Hne]; [done|].
    intros Hl [[=]|Hin]%elem_of_cons; [done|]. by apply IH. }
  destruct (lookupYearKey tbl year) as [o|] eqn:Hl.
  - symmetry. apply buildYear_lookup; [done|]. by apply lookupYearKey_elem.
  - specialize (Hnone eq_refl). destruct (buildYear (numbered tbl) !! year) eqn:Hb; [|done].
    destruct Hnone. apply buildYear_is_Some. by eexists.
Qed.

Lemma fields_entire_fold (tbl : list (YearKey * gmap string Z)) (year : Z) :
  decimalKeys tbl → ∀ r,
  foldl (λ agg '(yk, pairs),
           match keyNumber yk with
           | Some y => if decide (y > year) then agg else addPairs agg pairs
           | None => addPairs agg pairs
           end) r tbl
  = foldl (λ out '(yk, sfObj),
             match yk with
             | None => out
             | Some y => if decide (y ≤ year) then addCounts out sfObj else out
             end) r (numbered tbl).
Proof.
  unfold numbered.
  induction 1 as [|[k o] tbl [y Hk] Hdec IH]; intros r; simpl; [done|].
  simpl in Hk. subst k. simpl. rewrite addPairs_addCounts.
  destruct (decide (y > year)), (decide (y ≤ year)); try lia; apply IH.
Qed.

Lemma countsForFields_decimal (st : State) (a : Author) :
  decimalKeys (yearly_fields a) →
  NoDup (numericKeys (numbered (yearly_fields a))) →
  countsForFields (precompute a) (currentYear st) (mainMode st)
  = sankeyPairsOf st (precompute a).
Proof.
  intros Hdec Hnd. unfold countsForFields, sankeyPairsOf.
  cbn [_cache precompute buildCache cache_sankeyYear cache_sankeyEntire yearly_fields].
  destruct (mainMode st).
  - by rewrite lookupYearKey_buildYear.
  - rewrite <- direct_entire_cached by done. by apply fields_entire_fold.
Qed.

(** X3: on a pair table whose keys are the decimal texts of distinct
    integers, the table [countsForFields] computes on every call (read by
    the group metric) is the table [updateSankey] reads from the cache, in
    both modes.  The texts matter: under a key that converts to the year
    without being its decimal text, the ['year'] mode of [countsForFields]
    finds nothing while the cache holds the table. *)
Theorem countsForFields_cached (st : State) (a : Author) :
  (decimalKeys (yearly_fields a) →
   NoDup (numericKeys (numbered (yearly_fields a))) →
   countsForFields (precompute a) (currentYear st) (mainMode st)
   = sankeyPairsOf st (precompute a))
  ∧ (∀ t, yearly_fields a = [(Other (Some (currentYear st)), t)] →
          mainMode st = Year →
          countsForFields (precompute a) (currentYear st) (mainMode st) = ∅
          ∧ sankeyPairsOf st (precompute a) = t).
Proof.
  split; [apply countsForFields_decimal|].
  intros t Htbl Hmode. unfold countsForFields, sankeyPairsOf.
  cbn [_cache precompute buildCache cache_sankeyYear cache_sankeyEntire yearly_fields].
  rewrite Hmode, Htbl. split; [done|].
  unfold numbered, buildYear. cbn [fmap list_fmap foldl fst snd keyNumber].
  by rewrite lookup_insert_eq, copyCounts_id.
Qed.

Lemma countsForFields_cached_witness :
  countsForFields (precompute (authorOf "A1" [] [ (Decimal 2020, flowPairs) ]))
                  (currentYear flowState) (mainMode flowState)
  = sankeyPairsOf flowState (precompute (authorOf "A1" [] [ (Decimal 2020, flowPairs) ])).
Proof.
  destruct (countsForFields_cached flowState
              (authorOf "A1" [] [ (Decimal 2020, flowPairs) ])) as [Heq _].
  apply Heq.
  - repeat constructor. by eexists.
  - by_evaluation.
Defined.

Lemma addCounts_is_Some r c k :
  is_Some (addCounts r c !! k) ↔ is_Some (r !! k) ∨ is_Some (c !! k).
Proof.
  rewrite addCounts_lookup. destruct (c !! k) as [v|]; split.
  - intros _. right. by eexists.
  - intros _. by eexists.
  - by left.
  - intros [Hr|[? [=]]]. done.
Qed.

Lemma foldl_addCounts_is_Some (g : Z → gmap string Z) l : ∀ r k,
  is_Some (foldl (λ r y, addCounts r (g y)) r l !! k)
  ↔ is_Some (r !! k) ∨ ∃ y, y ∈ l ∧ is_Some (g y !! k).
Proof.
  induction l as [|y l IH]; intros r k; simpl.
  - split; [by left|]. intros [Hr|(y & Hy & _)]; [done|]. by apply elem_of_nil in Hy.
  - rewrite IH, addCounts_is_Some. split.
    + intros [[Hr|Hy]|(z & Hz & Hk)]; [by left| |].
      * right. exists y. split; [left|done].
      * right. exists z. split; [by right|done].
    + intros [Hr|(z & [->|Hz]%elem_of_cons & Hk)].
      * left. by left.
      * left. by right.
      * right. by exists z.
Qed.

(** X4: in ['entire'] mode the mapping of [countsFor] at [Y] holds a
    category exactly when the ['year']-mode mapping of some table year
    [<= Y] holds it, so a category present at [Y] is present at every later
    year. *)
Theorem entire_categories (a : Author) (Y : Z) (C : string) :
  (is_Some (countsFor (precompute a) Y Entire !! C)
   ↔ ∃ y, y ∈ tableYears (precompute a) ∧ y ≤ Y
          ∧ is_Some (countsFor (precompute a) y Year !! C))
  ∧ ∀ Y', Y ≤ Y' →
          is_Some (countsFor (precompute a) Y Entire !! C) →
          is_Some (countsFor (precompute a) Y' Entire !! C).
Proof.
  assert (∀ Z0, is_Some (countsFor (precompute a) Z0 Entire !! C)
                ↔ ∃ y, y ∈ tableYears (precompute a) ∧ y ≤ Z0
                       ∧ is_Some (countsFor (precompute a) y Year !! C)) as Hchar.
  { intros Z0.
    change (countsFor (precompute a) Z0 Entire)
      with (lookupUpTo (buildEntire (buildYear (yearly a))) Z0).
    rewrite lookupUpTo_buildEntire_fold, foldl_addCounts_is_Some, lookup_empty.
    rewrite tableYears_precompute. split.
    - intros [[? [=]]|(y & [Hy Hin]%list_elem_of_filter & Hk)].
      exists y. split; [|done]. apply elem_of_dom. by apply elem_of_yearsSorted.
    - intros (y & Hin & Hy & Hk). right. exists y. split; [|done].
      apply list_elem_of_filter. split; [done|].
      apply elem_of_yearsSorted. by apply elem_of_dom. }
  split; [apply Hchar|]. intros Y' Hle.
  rewrite !Hchar. intros (y & Hin & Hy & Hk). exists y. split; [done|]. split; [lia|done].
Qed.

Lemma entire_categories_witness :
  is_Some (countsFor (precompute roundTripAuthor) 2030 Entire !! "AI"%string).
Proof.
  destruct (entire_categories roundTripAuthor 2020 "AI"%string) as [_ Hlater].
  apply (Hlater 2030); [lia|]. vm_compute. by eexists.
Defined.

Lemma cntAt_buildYear_nonneg tbl y C :
  nonNegative tbl → 0 ≤ cntAt (buildYear tbl) y C.
Proof.
  intros Hnn. unfold cntAt.
  destruct (buildYear tbl !! y) as [o|] eqn:Ho; simpl; [|by rewrite lookup_empty].
  apply buildYear_lookup_elem in Ho.
  destruct (o !! C) as [v|] eqn:Hv; simpl; [|done]. by apply (Hnn _ _ _ _ Ho Hv).
Qed.

Lemma sumZ_filter_le_mono (f : Z → Z) (Y Y' : Z) (l : list Z) :
  (∀ y, 0 ≤ f y) → Y ≤ Y' →
  sumZ (f <$> filter (λ y, y ≤ Y) l) ≤ sumZ (f <$> filter (λ y, y ≤ Y') l).
Proof.
  intros Hf Hle. induction l as [|y l IH]; [done|].
  rewrite !filter_cons.
  destruct (decide (y ≤ Y)), (decide (y ≤ Y')); rewrite ?fmap_cons, ?sumZ_cons;
    try lia. specialize (Hf y). lia.
Qed.

Lemma sumZ_ge_elem_nonneg (f : Z → Z) (l : list Z) (y : Z) :
  (∀ y, 0 ≤ f y) → y ∈ l → f y ≤ sumZ (f <$> l).
Proof.
  intros Hf. induction l as [|z l IH]; [by intros ?%elem_of_nil|].
  assert (0 ≤ sumZ (f <$> l)) as Hnn.
  { clear IH. induction l as [|w l IH]; [done|].
    rewrite fmap_cons, sumZ_cons. specialize (Hf w). lia. }
  rewrite fmap_cons, sumZ_cons. intros [->|Hin]%elem_of_cons; [lia|].
  specialize (IH Hin). specialize (Hf z). lia.
Qed.

Lemma entireCount_sum a Y C :
  entireCount (precompute a) Y C =
    sumZ ((λ y, cntAt (buildYear (yearly a)) y C)
            <$> filter (λ y, y ≤ Y) (yearsSorted (buildYear (yearly a)))).
Proof. apply lookupUpTo_buildEntire. Qed.

Lemma yearCount_le_entireCount a Y C :
  nonNegative (yearly a) → yearCount (precompute a) Y C ≤ entireCount (precompute a) Y C.
Proof.
  intros Hnn. rewrite entireCount_sum.
  change (yearCount (precompute a) Y C) with (cntAt (buildYear (yearly a)) Y C).
  destruct (decide (Y ∈ yearsSorted (buildYear (yearly a)))) as [Hin|Hnin].
  - apply (sumZ_ge_elem_nonneg (λ y, cntAt (buildYear (yearly a)) y C)).
    + intros y. by apply cntAt_buildYear_nonneg.
    + apply list_elem_of_filter. split; [lia|done].
  - rewrite elem_of_yearsSorted in Hnin. unfold cntAt at 1.
    destruct (buildYear (yearly a) !! Y) eqn:Hb; [destruct Hnin; by eexists|].
    simpl. rewrite lookup_empty. simpl.
    clear Hnin Hb. induction (filter _ _) as [|y l IH]; [done|].
    rewrite fmap_cons, sumZ_cons. pose proof (cntAt_buildYear_nonneg (yearly a) y C Hnn). lia.
Qed.

Lemma entireCount_mono a Y Y' C :
  nonNegative (yearly a) → Y ≤ Y' →
  entireCount (precompute a) Y C ≤ entireCount (precompute a) Y' C.
Proof.
  intros Hnn Hle. rewrite !entireCount_sum.
  apply (sumZ_filter_le_mono (λ y, cntAt (buildYear (yearly a)) y C)); [|done].
  intros y. by apply cntAt_buildYear_nonneg.
Qed.

(** X5: when no count of the author's table is negative, the cumulative
    count of a category is at least its count within the year and never
    decreases as the year grows. *)
Theorem entire_count_monotone (a : Author) (Y Y' : Z) (C : string) :
  nonNegative (yearly a) → Y ≤ Y' →
  0 ≤ yearCount (precompute a) Y C
  ∧ yearCount (precompute a) Y C ≤ entireCount (precompute a) Y C
  ∧ entireCount (precompute a) Y C ≤ entireCount (precompute a) Y' C.
Proof.
  intros Hnn Hle. split; [|split].
  - by apply cntAt_buildYear_nonneg.
  - by apply yearCount_le_entireCount.
  - by apply entireCount_mono.
Qed.

Lemma roundTripAuthor_nonNegative : nonNegative (yearly roundTripAuthor).
Proof.
  intros yk o k v Hin Hk. simpl in Hin.
  apply elem_of_cons in Hin as [[= -> ->]|Hin].
  - apply lookup_singleton_Some in Hk as [_ <-]. lia.
  - apply list_elem_of_singleton in Hin as [= -> ->].
    apply lookup_insert_Some in Hk as [[_ <-]|[_ Hk]]; [lia|].
    apply lookup_singleton_Some in Hk as [_ <-]. lia.
Qed.

Lemma entire_count_monotone_witness :
  0 ≤ yearCount (precompute roundTripAuthor) 2020 "AI"
  ∧ yearCount (precompute roundTripAuthor) 2020 "AI"
    ≤ entireCount (precompute roundTripAuthor) 2020 "AI"
  ∧ entireCount (precompute roundTripAuthor) 2020 "AI"
    ≤ entireCount (precompute roundTripAuthor) 2021 "AI".
Proof.
  apply entire_count_monotone; [apply roundTripAuthor_nonNegative|lia].
Defined.

Lemma positive_count_active a Y mode C :
  0 < default 0 (countsFor a Y mode !! C) → isActiveBy a Y mode = true.
Proof.
  intros Hpos. apply isActiveBy_true. exists C.
  destruct (countsFor a Y mode !! C) as [v|]; simpl in Hpos; [|lia]. by exists v.
Qed.

Lemma active_positive_count a Y mode :
  isActiveBy a Y mode = true → ∃ C, 0 < default 0 (countsFor a Y mode !! C).
Proof.
  intros (C & v & HC & Hv)%isActiveBy_true. exists C. by rewrite HC.
Qed.

(** X6: when no count of the author's table is negative, an author active
    within a year is active cumulatively at that year, and an author active
    cumulatively at a year stays active at every later year. *)
Theorem activity_monotone (a : Author) (Y Y' : Z) :
  nonNegative (yearly a) → Y ≤ Y' →
  (isActiveBy (precompute a) Y Year = true → isActiveBy (precompute a) Y Entire = true)
  ∧ (isActiveBy (precompute a) Y Entire = true → isActiveBy (precompute a) Y' Entire = true).
Proof.
  intros Hnn Hle. split.
  - intros [C HC]%active_positive_count. apply (positive_count_active _ _ _ C).
    pose proof (yearCount_le_entireCount a Y C Hnn) as Hle'.
    unfold yearCount, entireCount in Hle'. lia.
  - intros [C HC]%active_positive_count. apply (positive_count_active _ _ _ C).
    pose proof (entireCount_mono a Y Y' C Hnn Hle) as Hle'.
    unfold entireCount in Hle'. lia.
Qed.

Lemma activity_monotone_witness :
  isActiveBy (precompute roundTripAuthor) 2030 Entire = true.
Proof.
  destruct (activity_monotone roundTripAuthor 2020 2030 roundTripAuthor_nonNegative)
    as [_ Hlater]; [lia|].
  apply Hlater. reflexivity.
Defined.

(** ** Classification *)

(** X7: for an active author [mainSubfieldFor] returns a category of the
    [countsFor] mapping whose count is strictly positive and maximal, and
    whose name precedes every other category with that count. *)
Theorem mainSubfieldFor_dominant (a : Author) (year : Z) (mode : Mode) :
  isActiveBy a year mode = true →
  let c := countsFor a year mode in
  let main := mainSubfieldFor a year mode in
  ∃ vmax, c !! main = Some vmax
          ∧ 0 < vmax
          ∧ (∀ k v, c !! k = Some v → v ≤ vmax)
          ∧ (∀ k, c !! k = Some vmax → k = main ∨ strLt main k).
Proof.
  intros (C & v & HC & Hv)%isActiveBy_true c main.
  apply (mainSubfieldOf_positive c C v HC Hv).
Qed.

Lemma mainSubfieldFor_dominant_witness :
  ∃ vmax, countsFor (precompute roundTripAuthor) 2021 Entire
            !! mainSubfieldFor (precompute roundTripAuthor) 2021 Entire = Some vmax
          ∧ 0 < vmax
          ∧ (∀ k v, countsFor (precompute roundTripAuthor) 2021 Entire !! k = Some v → v ≤ vmax)
          ∧ (∀ k, countsFor (precompute roundTripAuthor) 2021 Entire !! k = Some vmax →
                  k = mainSubfieldFor (precompute roundTripAuthor) 2021 Entire
                  ∨ strLt (mainSubfieldFor (precompute roundTripAuthor) 2021 Entire) k).
Proof.
  apply (mainSubfieldFor_dominant (precompute roundTripAuthor) 2021 Entire). reflexivity.
Defined.

Lemma mainStep_invariant_zero pre e best :
  mainInv pre best → mainInvZero pre best → mainInvZero (pre ++ [e]) (mainStep best e).
Proof.
  destruct e as [k v], best as [bs bc]. unfold mainInv, mainInvZero, mainStep. simpl.
  rewrite numberOr0_id. intros (Hpos & _ & _) Hzero.
  destruct (bool_decide (v > bc)) eqn:Hgt; simpl.
  { apply bool_decide_eq_true in Hgt. intros Hv; simpl in Hv. lia. }
  destruct (bool_decide (v = bc)) eqn:Heq; simpl.
  - apply bool_decide_eq_true in Heq as ->.
    destruct (String.ltb k bs) eqn:Hlt; simpl.
    + intros Hbc; simpl in Hbc; subst bc. destruct (Hzero eq_refl) as (Hin & Hunk & Hmin). split; [|split].
      * right. apply elem_of_app. right. left.
      * right. destruct Hunk as [->|Hunk]; [done|]. by apply (strLt_trans k bs).
      * intros k' [Hk'|Hk']%elem_of_app.
        -- right. destruct (Hmin _ Hk') as [->|Hlt']; [done|]. by apply (strLt_trans k bs).
        -- apply list_elem_of_singleton in Hk' as [= ->]. by left.
    + intros Hbc; simpl in Hbc; subst bc. destruct (Hzero eq_refl) as (Hin & Hunk & Hmin). split; [|split].
      * destruct Hin as [->|Hin]; [by left|]. right. apply elem_of_app. by left.
      * done.
      * intros k' [Hk'|Hk']%elem_of_app; [by apply Hmin|].
        apply list_elem_of_singleton in Hk' as [= ->].
        destruct (strLt_trichotomy k bs) as [Hc|[->|Hc]]; auto.
        unfold strLt in Hc. congruence.
  - apply bool_decide_eq_false in Heq. intros Hbc; simpl in Hbc; subst bc.
    destruct (Hzero eq_refl) as (Hin & Hunk & Hmin). split; [|split].
    + destruct Hin as [->|Hin]; [by left|]. right. apply elem_of_app. by left.
    + done.
    + intros k' [Hk'|Hk']%elem_of_app; [by apply Hmin|].
      apply list_elem_of_singleton in Hk' as [= -> <-]. done.
Qed.

Lemma mainLoop_invariant_zero l :
  mainInvZero l (foldl mainStep ("Unknown"%string, 0) l).
Proof.
  enough (mainInv l (foldl mainStep ("Unknown"%string, 0) l)
          ∧ mainInvZero l (foldl mainStep ("Unknown"%string, 0) l)) as [_ H0]; [done|].
  apply (foldl_invariant (λ pre best, mainInv pre best ∧ mainInvZero pre best)).
  - split; [apply (mainLoop_invariant [])|].
    intros _. simpl. split; [by left|]. split; [by left|].
    intros k Hk. by apply elem_of_nil in Hk.
  - intros pre x acc [H1 H2]. split.
    + by apply mainStep_invariant.
    + by apply mainStep_invariant_zero.
Qed.

(** X8: when the [countsFor] mapping holds no strictly positive count,
    [mainSubfieldFor] returns the first name, in the order on strings, among
    ["Unknown"] and the categories whose count is exactly [0]; on an empty
    mapping, and when every count is negative, that is ["Unknown"]. *)
Theorem mainSubfieldFor_without_positive (a : Author) (year : Z) (mode : Mode) :
  isActiveBy a year mode = false →
  let c := countsFor a year mode in
  let main := mainSubfieldFor a year mode in
  (main = "Unknown"%string ∨ (c !! main = Some 0 ∧ strLt main "Unknown"))
  ∧ (∀ k, c !! k = Some 0 → k = main ∨ strLt main k)
  ∧ ((∀ k, c !! k ≠ Some 0) → main = "Unknown"%string).
Proof.
  intros Hinactive c main.
  assert (∀ k v, c !! k = Some v → v ≤ 0) as Hall.
  { intros k v Hk. destruct (decide (0 < v)) as [Hv|]; [|lia].
    assert (isActiveBy a year mode = true) as Hact by (apply isActiveBy_true; eauto).
    congruence. }
  unfold main, mainSubfieldFor, mainSubfieldOf. fold c.
  pose proof (mainLoop_invariant (entries c)) as (Hpos & Hle & Hbest).
  pose proof (mainLoop_invariant_zero (entries c)) as Hzero.
  destruct (foldl mainStep ("Unknown"%string, 0) (entries c)) as [bs bc]. simpl in *.
  assert (bc = 0) as ->.
  { destruct (decide (0 < bc)) as [Hbc|]; [|lia].
    destruct (Hbest Hbc) as [Hin _]. apply elem_of_entries in Hin.
    specialize (Hall _ _ Hin). lia. }
  destruct (Hzero eq_refl) as (Hin & Hunk & Hmin). simpl in Hin, Hunk, Hmin.
  assert (bs = "Unknown"%string ∨ c !! bs = Some 0 ∧ strLt bs "Unknown") as Hmain.
  { destruct Hunk as [->|Hunk]; [by left|].
    destruct Hin as [->|Hin]; [by left|]. right. split; [by apply elem_of_entries|done]. }
  split; [done|]. split.
  - intros k Hk. apply Hmin. by apply elem_of_entries.
  - intros Hnone. destruct Hmain as [->|[Hbs _]]; [done|]. by destruct (Hnone bs).
Qed.

Lemma mainSubfieldFor_without_positive_witness :
  mainSubfieldFor (precompute roundTripAuthor) 2019 Entire = "Unknown"%string.
Proof.
  destruct (mainSubfieldFor_without_positive (precompute roundTripAuthor) 2019 Entire)
    as (_ & _ & Hnone); [reflexivity|].
  apply Hnone. intros k. vm_compute. discriminate.
Defined.

Lemma sumZ_le_length_max l : sumZ l ≤ Z.of_nat (length l) * Math_max l.
Proof.
  assert (∀ m, (∀ x, x ∈ l → x ≤ m) → sumZ l ≤ Z.of_nat (length l) * m) as Hgen.
  { intros m. induction l as [|x l IH]; intros Hm; [simpl; lia|].
    rewrite sumZ_cons. cbn [length]. rewrite Nat2Z.inj_succ.
    specialize (IH (λ z Hz, Hm z (list_elem_of_further _ _ _ Hz))).
    specialize (Hm x (list_elem_of_here _ _)). lia. }
  apply Hgen. apply Math_max_ge.
Qed.

Lemma sumZ_all_equal l v : (∀ x, x ∈ l → x = v) → sumZ l = Z.of_nat (length l) * v.
Proof.
  induction l as [|x l IH]; intros Hv; [simpl; lia|].
  rewrite sumZ_cons. cbn [length]. rewrite Nat2Z.inj_succ.
  rewrite IH by (intros z Hz; apply Hv; by right).
  rewrite (Hv x) by left. lia.
Qed.

Lemma concentration_upper l :
  l ≠ [] → Forall (λ v, 0 < v) l →
  (concentration l <= 1 - 1 / inject_Z (Z.of_nat (length l)))%Q.
Proof.
  intros Hne Hpos.
  pose proof (Math_max_elem l Hne) as Hin.
  assert (0 < Math_max l) as Hmax by (rewrite Forall_forall in Hpos; by apply Hpos).
  pose proof (sumZ_ge_elem l _ Hpos Hin) as Hle.
  pose proof (sumZ_le_length_max l) as Hbound.
  assert (0 < Z.of_nat (length l)) as Hlen by (destruct l; [done|simpl; lia]).
  assert (concentration l = (1 - inject_Z (Math_max l) / inject_Z (sumZ l))%Q) as ->.
  { unfold concentration. rewrite d3_sum_sumZ. by destruct l. }
  assert (0 < inject_Z (sumZ l))%Q as Hs by (rewrite <- (Zlt_Qlt 0); lia).
  assert (0 < inject_Z (Z.of_nat (length l)))%Q as Hn by (rewrite <- (Zlt_Qlt 0); lia).
  assert (1 / inject_Z (Z.of_nat (length l))
          <= inject_Z (Math_max l) / inject_Z (sumZ l))%Q as Hfrac.
  { apply Qle_shift_div_l; [done|]. unfold Qdiv. rewrite Qmult_1_l.
    rewrite Qmult_comm. apply Qle_shift_div_r; [done|].
    rewrite <- inject_Z_mult, <- Zle_Qle. lia. }
  revert Hfrac. generalize (1 / inject_Z (Z.of_nat (length l)))%Q
                           (inject_Z (Math_max l) / inject_Z (sumZ l))%Q.
  intros x y Hxy. Lqa.lra.
Qed.

Lemma concentration_even l v :
  l ≠ [] → 0 < v → (∀ x, x ∈ l → x = v) →
  (concentration l == 1 - 1 / inject_Z (Z.of_nat (length l)))%Q.
Proof.
  intros Hne Hv Hall.
  assert (Math_max l = v) as Hmax by (apply Hall, Math_max_elem; done).
  assert (0 < Z.of_nat (length l)) as Hlen by (destruct l; [done|simpl; lia]).
  assert (concentration l = (1 - inject_Z (Math_max l) / inject_Z (sumZ l))%Q) as ->.
  { unfold concentration. rewrite d3_sum_sumZ. by destruct l. }
  rewrite Hmax, (sumZ_all_equal l v Hall), inject_Z_mult.
  assert (¬ inject_Z v == 0)%Q by (by apply inject_Z_nonzero).
  assert (¬ inject_Z (Z.of_nat (length l)) == 0)%Q by (by apply inject_Z_nonzero).
  field. split; done.
Qed.

(** X9: with [n >= 1] strictly positive counts, [interdisciplinarity] is at
    most [1 - 1/n], and equals [1 - 1/n] when those counts are all equal. *)
Theorem interdisciplinarity_upper_bound (a : Author) (year : Z) (mode : Mode) :
  isActiveBy a year mode = true →
  let vals := positiveValues (countsFor a year mode) in
  let n := inject_Z (Z.of_nat (length vals)) in
  (interdisciplinarity a year mode <= 1 - 1 / n)%Q
  ∧ ((∃ v, ∀ x, x ∈ vals → x = v) → (interdisciplinarity a year mode == 1 - 1 / n)%Q).
Proof.
  intros (C & v0 & HC & Hv0)%isActiveBy_true vals n.
  assert (v0 ∈ vals) as Hin by (apply elem_of_positiveValues; eauto).
  assert (vals ≠ []) as Hne by (intros Hnil; rewrite Hnil in Hin; by apply elem_of_nil in Hin).
  pose proof (positiveValues_Forall (countsFor a year mode)) as Hpos. fold vals in Hpos.
  split.
  - by apply concentration_upper.
  - intros [v Hall]. apply (concentration_even vals v); [done| |done].
    rewrite <- (Hall v0 Hin). done.
Qed.

Lemma interdisciplinarity_upper_bound_witness :
  (interdisciplinarity (precompute roundTripAuthor) 2021 Entire
   <= 1 - 1 / inject_Z (Z.of_nat (length (positiveValues
                                            (countsFor (precompute roundTripAuthor)
                                                       2021 Entire)))))%Q.
Proof.
  apply (interdisciplinarity_upper_bound (precompute roundTripAuthor) 2021 Entire).
  reflexivity.
Defined.

(** ** Group metric *)

Lemma foldl_addCounts_default (f : Author → gmap string Z) authors k : ∀ agg,
  default 0 (foldl (λ agg a, addCounts agg (f a)) agg authors !! k) =
    default 0 (agg !! k) + sumZ ((λ a, default 0 (f a !! k)) <$> authors).
Proof.
  induction authors as [|a authors IH]; intros agg.
  - unfold sumZ. simpl. lia.
  - cbn [foldl]. rewrite IH, addCounts_default, fmap_cons, sumZ_cons. lia.
Qed.

Lemma aggCountsOf_fold authors year mode fieldType :
  aggCountsOf authors year mode fieldType =
    foldl (λ agg a, addCounts agg (countsOfType fieldType a year mode)) ∅ authors.
Proof. reflexivity. Qed.

(** X10: the group metric aggregates first: the aggregated count of a key
    is the sum of the authors' counts of that key, and neither the
    aggregated table nor [groupInterdisciplinarity] depends on the order of
    the population. *)
Theorem group_aggregation (authors : list Author) (year : Z) (mode : Mode)
    (fieldType : FieldType) :
  (∀ key, default 0 (aggCountsOf authors year mode fieldType !! key) =
            sumZ ((λ a, default 0 (countsOfType fieldType a year mode !! key)) <$> authors))
  ∧ ∀ authors', authors ≡ₚ authors' →
      aggCountsOf authors year mode fieldType = aggCountsOf authors' year mode fieldType
      ∧ groupInterdisciplinarity authors year mode fieldType
        = groupInterdisciplinarity authors' year mode fieldType.
Proof.
  split.
  - intros key. rewrite aggCountsOf_fold.
    rewrite (foldl_addCounts_default (λ a, countsOfType fieldType a year mode)).
    by rewrite lookup_empty.
  - intros authors' Hperm.
    assert (aggCountsOf authors year mode fieldType
            = aggCountsOf authors' year mode fieldType) as Hagg.
    { rewrite !aggCountsOf_fold. apply foldl_Permutation; [|done].
      intros agg x y. apply addCounts_comm. }
    split; [done|]. unfold groupInterdisciplinarity. by rewrite Hagg.
Qed.

Lemma group_aggregation_witness :
  groupInterdisciplinarity [precompute roundTripAuthor; precompute zeroCountAuthor]
                           2021 Entire Subfield
  = groupInterdisciplinarity [precompute zeroCountAuthor; precompute roundTripAuthor]
                             2021 Entire Subfield.
Proof.
  destruct (group_aggregation [precompute roundTripAuthor; precompute zeroCountAuthor]
                              2021 Entire Subfield) as [_ Hperm].
  apply Hperm. apply perm_swap.
Defined.

(** ** The update of the view *)

Lemma NoDup_fmap_inj_on {A B} (f : A → B) (l : list A) x y :
  NoDup (f <$> l) → x ∈ l → y ∈ l → f x = f y → x = y.
Proof.
  induction l as [|z l IH]; intros Hnd Hx Hy Hf; [by apply elem_of_nil in Hx|].
  rewrite fmap_cons in Hnd. apply NoDup_cons in Hnd as [Hz Hnd].
  apply elem_of_cons in Hx as [->|Hx], Hy as [->|Hy]; auto.
  - destruct Hz. rewrite Hf. by apply list_elem_of_fmap_2.
  - destruct Hz. rewrite <- Hf. by apply list_elem_of_fmap_2.
Qed.

Lemma NoDup_fmap_filter {A B} (f : A → B) (P : A → Prop) `{!∀ x, Decision (P x)}
    (l : list A) :
  NoDup (f <$> l) → NoDup (f <$> filter P l).
Proof.
  induction l as [|x l IH]; intros Hnd; [done|].
  rewrite fmap_cons in Hnd. apply NoDup_cons in Hnd as [Hx Hnd].
  rewrite filter_cons. destruct (decide (P x)); [|by apply IH].
  rewrite fmap_cons. apply NoDup_cons. split; [|by apply IH].
  intros (y & Hy & Hin)%list_elem_of_fmap. apply list_elem_of_filter in Hin as [_ Hin].
  apply Hx. rewrite Hy. by apply list_elem_of_fmap_2.
Qed.

Lemma setYear_currentYear st year :
  currentYear (setYear st year) =
    (let year1 := if decide (year < yearMinAll st) then yearMinAll st else year in
     if decide (year1 > yearMaxAll st) then yearMaxAll st else year1).
Proof. reflexivity. Qed.

Lemma setYear_nodes st year :
  nodes (setYear st year) = refreshNodes st (currentYear (setYear st year)).
Proof. reflexivity. Qed.

Lemma setYear_filteredAuthors st year :
  filteredAuthors (setYear st year) = filteredAuthors st.
Proof. reflexivity. Qed.

Lemma setYear_mainMode st year : mainMode (setYear st year) = mainMode st.
Proof. reflexivity. Qed.

(** X11: [setYear] leaves the year range, the population, the mode and the
    two display flags unchanged; when the range is not empty the new current
    year lies in it, and is the requested year when that lies in it. *)
Theorem setYear_clamps (st : State) (year : Z) :
  yearMinAll st ≤ yearMaxAll st →
  let st' := setYear st year in
  yearMinAll st ≤ currentYear st' ≤ yearMaxAll st
  ∧ (yearMinAll st ≤ year ≤ yearMaxAll st → currentYear st' = year)
  ∧ (year < yearMinAll st → currentYear st' = yearMinAll st)
  ∧ (yearMaxAll st < year → currentYear st' = yearMaxAll st)
  ∧ yearMinAll st' = yearMinAll st ∧ yearMaxAll st' = yearMaxAll st
  ∧ filteredAuthors st' = filteredAuthors st ∧ mainMode st' = mainMode st
  ∧ showPhantoms st' = showPhantoms st ∧ showSankey st' = showSankey st.
Proof.
  intros Hrange st'. unfold st'. rewrite setYear_currentYear. cbv zeta.
  repeat split; try reflexivity; repeat case_decide; lia.
Qed.

Lemma setYear_clamps_witness :
  currentYear (setYear roundTripState 2050) = 2021.
Proof.
  destruct (setYear_clamps roundTripState 2050) as (_ & _ & _ & Hhigh & _).
  - simpl. lia.
  - apply Hhigh. simpl. lia.
Defined.

(** The nodes after the three passes of [setYear]. *)
Lemma refreshNodes_spec authorsRaw st year :
  NoDup (id <$> authorsRaw) → viewConsistent authorsRaw st →
  (∀ n, n ∈ refreshNodes st year ↔ ∃ a, a ∈ filteredAuthors st ∧ n = nodeOf st year a)
  ∧ NoDup (node_id <$> refreshNodes st year).
Proof.
  intros Hids (Hfil & Hfids & Hnodes & Hnids).
  set (upd := λ n, {| node_id := node_id n; node_author := node_author n;
                      node_subfield := mainSubfieldFor (node_author n) year (mainMode st);
                      node_active := isActiveBy (node_author n) year (mainMode st) |}).
  assert (node_id <$> (upd <$> nodes st) = node_id <$> nodes st) as Hexisting.
  { rewrite <- list_fmap_compose. done. }
  assert (∀ n0 a, n0 ∈ nodes st → a ∈ filteredAuthors st → node_id n0 = id a →
                  upd n0 = nodeOf st year a) as Hupd.
  { intros n0 a Hn0 Ha Hid. destruct (Hnodes _ Hn0) as [Hraw Hnid].
    assert (node_author n0 = a) as Hauth.
    { apply (NoDup_fmap_inj_on id authorsRaw); auto. congruence. }
    unfold upd, nodeOf. rewrite Hauth, Hid. done. }
  unfold refreshNodes. fold upd. rewrite Hexisting. split.
  - intros n. rewrite list_elem_of_filter, elem_of_app. split.
    + intros [Hid [(n0 & -> & Hn0)%list_elem_of_fmap|(a & -> & Ha)%list_elem_of_fmap]].
      * simpl in Hid. apply list_elem_of_fmap in Hid as (a & Hid & Ha).
        exists a. split; [done|]. by apply Hupd.
      * apply list_elem_of_filter in Ha as [_ Ha]. by exists a.
    + intros (a & Ha & ->). split; [simpl; by apply list_elem_of_fmap_2|].
      destruct (decide (id a ∈ node_id <$> nodes st)) as [Hin|Hnin].
      * left. apply list_elem_of_fmap in Hin as (n0 & Hid & Hn0).
        apply list_elem_of_fmap. exists n0. split; [|done]. symmetry. by apply Hupd.
      * right. apply list_elem_of_fmap_2. by apply list_elem_of_filter.
  - apply NoDup_fmap_filter. rewrite fmap_app, Hexisting, <- list_fmap_compose.
    apply NoDup_app. split; [done|]. split.
    + intros i Hi (a & -> & Ha)%list_elem_of_fmap.
      apply list_elem_of_filter in Ha as [Hnot _]. done.
    + change (node_id ∘ nodeOf st year) with id. by apply NoDup_fmap_filter.
Qed.

Lemma setYear_viewConsistent authorsRaw st year :
  NoDup (id <$> authorsRaw) → viewConsistent authorsRaw st →
  viewConsistent authorsRaw (setYear st year).
Proof.
  intros Hids Hcons.
  destruct (refreshNodes_spec authorsRaw st (currentYear (setYear st year)) Hids Hcons)
    as [Hmem Hnd].
  destruct Hcons as (Hfil & Hfids & Hnodes & Hnids).
  unfold viewConsistent. rewrite setYear_filteredAuthors, setYear_nodes.
  split; [done|]. split; [done|]. split; [|done].
  intros n (a & Ha & ->)%Hmem. simpl. split; [by apply Hfil|done].
Qed.

(** X12: in a consistent view (distinct author ids, nodes standing for
    loaded authors under their ids) [setYear] keeps the view consistent and
    leaves exactly one node per filtered author, carrying the author's id,
    dominant subfield and activity flag at the new current year. *)
Theorem setYear_nodes_spec (authorsRaw : list Author) (st : State) (year : Z) :
  NoDup (id <$> authorsRaw) → viewConsistent authorsRaw st →
  let st' := setYear st year in
  viewConsistent authorsRaw st'
  ∧ nodes st' ≡ₚ nodeOf st' (currentYear st') <$> filteredAuthors st'
  ∧ length (nodes st') = length (filteredAuthors st').
Proof.
  intros Hids Hcons st'.
  pose proof (setYear_viewConsistent authorsRaw st year Hids Hcons) as Hcons'.
  destruct (refreshNodes_spec authorsRaw st (currentYear st') Hids Hcons) as [Hmem Hnd].
  destruct Hcons as (Hfil & Hfids & Hnodes & Hnids).
  assert (nodes st' ≡ₚ nodeOf st' (currentYear st') <$> filteredAuthors st') as Hperm.
  { apply NoDup_Permutation.
    - unfold st'. rewrite setYear_nodes. by apply NoDup_fmap_1 in Hnd.
    - apply (NoDup_fmap_1 node_id). rewrite <- list_fmap_compose. done.
    - intros n. unfold st' at 1. rewrite setYear_nodes. fold st'. rewrite Hmem.
      rewrite list_elem_of_fmap. split; intros (a & H1 & H2); exists a; done. }
  split; [done|]. split; [done|]. by rewrite Hperm, length_fmap.
Qed.

Lemma roundTripState_consistent :
  viewConsistent [precompute roundTripAuthor] roundTripState.
Proof.
  split; [done|]. split; [apply NoDup_singleton|]. split; [|constructor].
  intros n Hn. by apply elem_of_nil in Hn.
Qed.

Lemma setYear_nodes_spec_witness :
  length (nodes (setYear roundTripState 2021))
  = length (filteredAuthors (setYear roundTripState 2021)).
Proof.
  destruct (setYear_nodes_spec [precompute roundTripAuthor] roundTripState 2021)
    as (_ & _ & Hlen).
  - apply NoDup_singleton.
  - apply roundTripState_consistent.
  - exact Hlen.
Defined.

Lemma qualifies_clusterKeys st year sf :
  qualifies (filteredAuthors st) (currentYear (setYear st year)) (mainMode st) sf →
  sf ∈ clusterKeys (setYear st year).
Proof.
  intros Hq. rewrite setYear_clusterKeys.
  assert (sf ∈ merge_sort strLe
                 (elements (presentSubfields (filteredAuthors st)
                              (currentYear (setYear st year)) (mainMode st)))) as Hin.
  { by rewrite merge_sort_Permutation, elem_of_elements, elem_of_presentSubfields. }
  destruct (merge_sort _ _); [by apply elem_of_nil in Hin|done].
Qed.

Lemma setYear_center_is_Some st year sf :
  is_Some (clusterCenterMap (setYear st year) !! sf) ↔ sf ∈ clusterKeys (setYear st year).
Proof.
  rewrite setYear_clusterCenterMap, setCenters_dom, lookup_empty.
  split; [intros [[? [=]]|]; done|by right].
Qed.

Lemma setYear_clusterKeys_NoDup st year : NoDup (clusterKeys (setYear st year)).
Proof.
  rewrite setYear_clusterKeys.
  assert (NoDup (merge_sort strLe
                   (elements (presentSubfields (filteredAuthors st)
                                (currentYear (setYear st year)) (mainMode st))))) as Hnd.
  { rewrite merge_sort_Permutation. apply NoDup_elements. }
  destruct (merge_sort _ _); [apply NoDup_singleton|done].
Qed.

Lemma setYear_center_on_circle st year sf c :
  clusterCenterMap (setYear st year) !! sf = Some c →
  ((center_x c - centerX)² + (center_y c - centerY)² = clusterRadius²)%R.
Proof.
  intros Hc.
  assert (sf ∈ clusterKeys (setYear st year)) as Hin.
  { apply setYear_center_is_Some. by eexists. }
  apply list_elem_of_lookup in Hin as [i Hi].
  rewrite setYear_clusterCenterMap in Hc.
  rewrite (setCenters_lookup _ _ 0 ∅ i sf (setYear_clusterKeys_NoDup st year) Hi) in Hc.
  injection Hc as <-. apply centerAt_on_circle.
Qed.

Lemma active_author_qualifies authors a year mode :
  a ∈ authors → isActiveBy a year mode = true →
  qualifies authors year mode (mainSubfieldFor a year mode).
Proof.
  intros Ha (C & v & HC & Hv)%isActiveBy_true.
  destruct (mainSubfieldOf_positive _ C v HC Hv) as (vm & Hmain & Hpos & _).
  exists a, vm. done.
Qed.

Lemma setYear_active_node_key authorsRaw st year n :
  NoDup (id <$> authorsRaw) → viewConsistent authorsRaw st →
  n ∈ nodes (setYear st year) → node_active n = true →
  node_subfield n ∈ clusterKeys (setYear st year).
Proof.
  intros Hids Hcons Hn Hactive.
  destruct (refreshNodes_spec authorsRaw st (currentYear (setYear st year)) Hids Hcons)
    as [Hmem _].
  rewrite setYear_nodes in Hn. apply Hmem in Hn as (a & Ha & ->).
  cbn [nodeOf node_active node_subfield] in Hactive |- *.
  apply qualifies_clusterKeys. by apply active_author_qualifies.
Qed.

(** X13: after [setYear] in a consistent view, the subfield of every active
    node is one of the cluster keys and has a center; the two forces pull
    the node towards that center, a point of the layout circle. *)
Theorem active_nodes_have_centers (authorsRaw : list Author) (st : State) (year : Z) :
  NoDup (id <$> authorsRaw) → viewConsistent authorsRaw st →
  let st' := setYear st year in
  ∀ n, n ∈ nodes st' → node_active n = true →
       node_subfield n ∈ clusterKeys st'
       ∧ ∃ c, clusterCenterMap st' !! node_subfield n = Some c
              ∧ targetX st' n = center_x c ∧ targetY st' n = center_y c
              ∧ ((targetX st' n - centerX)² + (targetY st' n - centerY)²
                 = clusterRadius²)%R.
Proof.
  intros Hids Hcons st' n Hn Hactive.
  pose proof (setYear_active_node_key authorsRaw st year n Hids Hcons Hn Hactive) as Hkey.
  split; [done|].
  destruct (proj2 (setYear_center_is_Some st year _) Hkey) as [c Hc]. fold st' in Hc.
  exists c. unfold targetX, targetY. rewrite Hc.
  split; [done|]. split; [done|]. split; [done|].
  exact (setYear_center_on_circle st year _ c Hc).
Qed.

Lemma active_nodes_have_centers_witness :
  Forall (λ n, node_active n = true →
               node_subfield n ∈ clusterKeys (setYear roundTripState 2021))
         (nodes (setYear roundTripState 2021)).
Proof.
  apply Forall_forall. intros n Hn Hactive.
  exact (proj1 (active_nodes_have_centers [precompute roundTripAuthor] roundTripState 2021
                  (NoDup_singleton _) roundTripState_consistent n Hn Hactive)).
Defined.

Lemma setYear_phantomData st year :
  phantomData (setYear st year)
  = computePhantomsForYear (setYear st year) (currentYear (setYear st year)).
Proof. reflexivity. Qed.

(** X14: after [setYear] in a consistent view the phantom data belongs to
    the new state, and no secondary affiliation is dropped for want of a
    center: every node has one phantom edge for each category with a
    strictly positive count other than its dominant subfield, aimed at a
    point of the layout circle. *)
Theorem phantoms_complete_after_setYear (authorsRaw : list Author) (st : State) (year : Z) :
  NoDup (id <$> authorsRaw) → viewConsistent authorsRaw st →
  let st' := setYear st year in
  phantomData st' = computePhantomsForYear st' (currentYear st')
  ∧ ∀ n sf cnt,
      n ∈ nodes st' →
      countsFor (node_author n) (currentYear st') (mainMode st') !! sf = Some cnt →
      0 < cnt → sf ≠ node_subfield n →
      ∃ e, e ∈ phantomData st'
           ∧ parent e = n ∧ subfield e = sf ∧ count e = cnt
           ∧ ((tx e - centerX)² + (ty e - centerY)² = clusterRadius²)%R.
Proof.
  intros Hids Hcons st'. split; [reflexivity|].
  intros n sf cnt Hn Hcnt Hpos Hmain.
  destruct (refreshNodes_spec authorsRaw st (currentYear st') Hids Hcons) as [Hmem _].
  assert (∃ a, a ∈ filteredAuthors st ∧ n = nodeOf st (currentYear st') a) as (a & Ha & Hna).
  { apply Hmem. unfold st' in Hn. by rewrite setYear_nodes in Hn. }
  assert (node_author n = a) as Hauth by (by rewrite Hna).
  assert (node_subfield n = mainSubfieldFor a (currentYear st') (mainMode st)) as Hsub
    by (by rewrite Hna).
  rewrite Hauth in Hcnt. unfold st' in Hcnt at 2. rewrite setYear_mainMode in Hcnt.
  assert (sf ∈ clusterKeys st') as Hkey.
  { apply qualifies_clusterKeys. exists a, cnt. done. }
  destruct (proj2 (setYear_center_is_Some st year _) Hkey) as [c Hc]. fold st' in Hc.
  exists {| parent := n; subfield := sf; count := cnt; tx := center_x c; ty := center_y c |}.
  split; [|split; [done|split; [done|split; [done|]]]].
  - unfold st' at 1. rewrite setYear_phantomData. fold st'.
    apply list_elem_of_bind. exists n. split; [|done].
    apply elem_of_phantomsOfNode. exists cnt, c. cbn [subfield].
    assert (mainMode st' = mainMode st) as -> by reflexivity.
    rewrite Hauth, <- Hsub. done.
  - cbn [tx ty]. exact (setYear_center_on_circle st year sf c Hc).
Qed.

Lemma phantoms_complete_after_setYear_witness :
  phantomData (setYear roundTripState 2021)
  = computePhantomsForYear (setYear roundTripState 2021)
                           (currentYear (setYear roundTripState 2021)).
Proof.
  destruct (phantoms_complete_after_setYear [precompute roundTripAuthor] roundTripState 2021
              (NoDup_singleton _) roundTripState_consistent) as [Hdata _].
  exact Hdata.
Defined.

(** ** Cluster labels *)

Lemma sum_list_indicator (keys : list string) (x : string) :
  NoDup keys → x ∈ keys →
  sum_list ((λ d, if decide (x = d) then 1%nat else 0%nat) <$> keys) = 1%nat.
Proof.
  induction 1 as [|k keys Hk Hnd IH]; [by intros ?%elem_of_nil|].
  rewrite fmap_cons. cbn [sum_list sum_list_with]. intros [->|Hin]%elem_of_cons.
  - rewrite decide_True by done.
    assert (sum_list ((λ d, if decide (k = d) then 1%nat else 0%nat) <$> keys) = 0%nat) as ->;
      [|done].
    clear IH Hnd. induction keys as [|d keys IH]; [done|].
    apply not_elem_of_cons in Hk as [Hne Hk]. rewrite fmap_cons.
    cbn [sum_list sum_list_with]. rewrite decide_False by done. by rewrite IH.
  - rewrite decide_False by (intros Heq; apply Hk; by rewrite <- Heq). by rewrite IH.
Qed.

Lemma count_by_key {A} (sub : A → string) (keys : list string) (l : list A) :
  NoDup keys → (∀ n, n ∈ l → sub n ∈ keys) →
  sum_list ((λ d, length (filter (λ n, sub n = d) l)) <$> keys) = length l.
Proof.
  intros Hnd. induction l as [|x l IH]; intros Hsub.
  - clear. induction keys as [|d keys IHk]; [done|]. rewrite fmap_cons.
    cbn [sum_list sum_list_with]. by rewrite IHk.
  - assert (sum_list ((λ d, length (filter (λ n, sub n = d) (x :: l))) <$> keys)
            = (sum_list ((λ d, if decide (sub x = d) then 1%nat else 0%nat) <$> keys)
               + sum_list ((λ d, length (filter (λ n, sub n = d) l)) <$> keys))%nat) as ->.
    { clear. induction keys as [|d keys IHk]; [done|]. rewrite !fmap_cons.
      cbn [sum_list sum_list_with]. rewrite IHk, filter_cons.
      destruct (decide (sub x = d)); simpl; lia. }
    rewrite sum_list_indicator; [|done|apply Hsub; left].
    rewrite IH; [done|]. intros n Hn. apply Hsub. by right.
Qed.

Lemma sumQ_labelPct st keys :
  (sumQ (labelPct st <$> keys) ==
   inject_Z (Z.of_nat (sum_list (labelCount st <$> keys)))
   / inject_Z (Z.of_nat (labelTotal st)) * 100)%Q.
Proof.
  assert (¬ inject_Z (Z.of_nat (labelTotal st)) == 0)%Q as Hnz.
  { apply inject_Z_nonzero. unfold labelTotal. destruct (length (activeNodes st)); lia. }
  induction keys as [|d keys IH].
  - change (0 == 0 / inject_Z (Z.of_nat (labelTotal st)) * 100)%Q.
    unfold Qdiv. by rewrite !Qmult_0_l.
  - rewrite !fmap_cons. cbn [sumQ foldr sum_list sum_list_with]. fold (sumQ (labelPct st <$> keys)).
    rewrite IH. unfold labelPct, Datatypes.id. rewrite Nat2Z.inj_add, inject_Z_plus.
    generalize dependent (inject_Z (Z.of_nat (labelTotal st))).
    generalize (inject_Z (Z.of_nat (labelCount st d))).
    generalize (inject_Z (Z.of_nat (sum_list (labelCount st <$> keys)))).
    intros s c t Hnz _. by field.
Qed.

(** X15: after [setYear] in a consistent view the label counts of the
    cluster keys add up to the number of active nodes, so the values [pct]
    computed for the labels, taken before [toFixed(1)] formats them, add up
    to [100] when some node is active; with no active node every such value
    is [0].  The formatted texts are rounded one by one and are not covered:
    three equal clusters are shown as [33.3%] each. *)
Theorem label_percentages (authorsRaw : list Author) (st : State) (year : Z) :
  NoDup (id <$> authorsRaw) → viewConsistent authorsRaw st →
  let st' := setYear st year in
  sum_list (labelCount st' <$> clusterKeys st') = length (activeNodes st')
  ∧ (activeNodes st' ≠ [] → (sumQ (labelPct st' <$> clusterKeys st') == 100)%Q)
  ∧ (activeNodes st' = [] → ∀ d, (labelPct st' d == 0)%Q).
Proof.
  intros Hids Hcons st'.
  assert (sum_list (labelCount st' <$> clusterKeys st') = length (activeNodes st')) as Hsum.
  { apply (count_by_key node_subfield); [apply setYear_clusterKeys_NoDup|].
    intros n [Hactive Hn]%list_elem_of_filter.
    by apply (setYear_active_node_key authorsRaw st year). }
  split; [done|]. split.
  - intros Hne. rewrite sumQ_labelPct, Hsum. unfold labelTotal.
    destruct (activeNodes st') as [|n l] eqn:Hact; [done|].
    cbn [length].
    assert (¬ inject_Z (Z.of_nat (S (length l))) == 0)%Q as Hnz
      by (apply inject_Z_nonzero; lia).
    revert Hnz. generalize (inject_Z (Z.of_nat (S (length l)))). intros t Hnz. by field.
  - intros Hnil d. unfold labelPct, labelCount. rewrite Hnil. simpl. reflexivity.
Qed.

Lemma label_percentages_witness :
  sum_list (labelCount (setYear roundTripState 2021)
              <$> clusterKeys (setYear roundTripState 2021))
  = length (activeNodes (setYear roundTripState 2021)).
Proof.
  destruct (label_percentages [precompute roundTripAuthor] roundTripState 2021
              (NoDup_singleton _) roundTripState_consistent) as [Hsum _].
  exact Hsum.
Defined.

(** ** Autoplay *)

Lemma autoplayTick_currentYear st :
  yearMinAll st ≤ currentYear st ≤ yearMaxAll st →
  currentYear (autoplayTick st)
  = if decide (currentYear st + 1 > yearMaxAll st) then yearMinAll st
    else currentYear st + 1.
Proof.
  intros Hrange. unfold autoplayTick. rewrite setYear_currentYear.
  cbn zeta. repeat case_decide; lia.
Qed.

Lemma iter_autoplayTick_range k st :
  yearMinAll (Nat.iter k autoplayTick st) = yearMinAll st
  ∧ yearMaxAll (Nat.iter k autoplayTick st) = yearMaxAll st.
Proof.
  induction k as [|k [IH1 IH2]]; [done|].
  change (Nat.iter (S k) autoplayTick st) with (autoplayTick (Nat.iter k autoplayTick st)).
  split; [rewrite <- IH1|rewrite <- IH2]; reflexivity.
Qed.

(** X16: started from a year of the range, [k] ticks of the autoplay
    interval move the current year [k] steps forward around the range, so it
    is back where it started after as many ticks as the range has years. *)
Theorem autoplay_cycles (st : State) (k : nat) :
  yearMinAll st ≤ currentYear st ≤ yearMaxAll st →
  let span := yearMaxAll st - yearMinAll st + 1 in
  currentYear (Nat.iter k autoplayTick st)
  = yearMinAll st + (currentYear st - yearMinAll st + Z.of_nat k) mod span
  ∧ currentYear (Nat.iter (Z.to_nat span) autoplayTick st) = currentYear st.
Proof.
  intros Hrange span.
  assert (0 < span) as Hspan by (unfold span; lia).
  assert (∀ j, currentYear (Nat.iter j autoplayTick st)
               = yearMinAll st + (currentYear st - yearMinAll st + Z.of_nat j) mod span)
    as Hiter.
  { induction j as [|j IH].
    - simpl. rewrite Z.add_0_r, Z.mod_small by (unfold span; lia). lia.
    - change (Nat.iter (S j) autoplayTick st)
        with (autoplayTick (Nat.iter j autoplayTick st)).
      destruct (iter_autoplayTick_range j st) as [Hmin Hmax].
      pose proof (Z.mod_pos_bound (currentYear st - yearMinAll st + Z.of_nat j) span Hspan)
        as Hr.
      rewrite autoplayTick_currentYear; rewrite Hmin, Hmax, IH; [|unfold span in *; lia].
      replace (currentYear st - yearMinAll st + Z.of_nat (S j))
        with (currentYear st - yearMinAll st + Z.of_nat j + 1) by lia.
      rewrite <- (Z.add_mod_idemp_l (currentYear st - yearMinAll st + Z.of_nat j)) by lia.
      case_decide as Hwrap.
      + replace ((currentYear st - yearMinAll st + Z.of_nat j) mod span + 1) with span
          by (unfold span in *; lia).
        rewrite Z.mod_same by lia. lia.
      + rewrite (Z.mod_small (_ + 1)) by (unfold span in *; lia). lia. }
  split; [apply Hiter|].
  rewrite Hiter, Z2Nat.id by lia.
  replace (currentYear st - yearMinAll st + span)
    with (currentYear st - yearMinAll st + 1 * span) by lia.
  rewrite Z.mod_add, Z.mod_small by (unfold span; lia). lia.
Qed.

Lemma autoplay_cycles_witness :
  currentYear (Nat.iter 3 autoplayTick roundTripState) = 2021.
Proof.
  destruct (autoplay_cycles roundTripState 3) as [Hyear _].
  - simpl. lia.
  - exact Hyear.
Defined.

(** ** The session *)

Lemma setYear_currentYear_range st year :
  yearMinAll st ≤ yearMaxAll st →
  yearMinAll st ≤ currentYear (setYear st year) ≤ yearMaxAll st.
Proof. intros Hrange. rewrite setYear_currentYear. cbn zeta. repeat case_decide; lia. Qed.

Lemma setYear_nodes_Permutation authorsRaw st year :
  NoDup (id <$> authorsRaw) → viewConsistent authorsRaw st →
  nodes (setYear st year)
  ≡ₚ nodeOf (setYear st year) (currentYear (setYear st year))
       <$> filteredAuthors (setYear st year).
Proof.
  intros Hids Hcons.
  destruct (refreshNodes_spec authorsRaw st (currentYear (setYear st year)) Hids Hcons)
    as [Hmem Hnd].
  destruct Hcons as (Hfil & Hfids & Hnodes & Hnids).
  apply NoDup_Permutation.
  - rewrite setYear_nodes. by apply NoDup_fmap_1 in Hnd.
  - apply (NoDup_fmap_1 node_id). rewrite <- list_fmap_compose. done.
  - intros n. rewrite setYear_nodes, Hmem, list_elem_of_fmap.
    split; intros (a & H1 & H2); exists a; done.
Qed.

Lemma setYear_clusterKeys_nonempty st year : clusterKeys (setYear st year) ≠ [].
Proof. rewrite setYear_clusterKeys. by destruct (merge_sort _ _). Qed.

Lemma setYear_viewCurrent authorsRaw st year :
  NoDup (id <$> authorsRaw) → viewConsistent authorsRaw st →
  viewCurrent (setYear st year).
Proof.
  intros Hids Hcons. split; [by apply (setYear_nodes_Permutation authorsRaw)|].
  split; [reflexivity|]. split; [apply setYear_clusterCenterMap|apply setYear_phantomData].
Qed.

Lemma setYear_sessionInv authorsRaw st year :
  NoDup (id <$> authorsRaw) → viewConsistent authorsRaw st →
  yearMinAll st ≤ yearMaxAll st →
  sessionInv authorsRaw (yearMinAll st) (yearMaxAll st) (setYear st year).
Proof.
  intros Hids Hcons Hrange.
  split; [by apply setYear_viewConsistent|].
  split; [reflexivity|]. split; [reflexivity|].
  split; [by apply setYear_currentYear_range|].
  split; [apply setYear_clusterKeys_nonempty|].
  split; [apply setYear_clusterKeys_NoDup|].
  split; [apply setYear_center_is_Some|].
  intros _. by apply (setYear_viewCurrent authorsRaw).
Qed.

(** [updateAll] on variables that differ from a state of the session in
    the population, the mode or the view shown. *)
Lemma updateAll_sessionInv authorsRaw lo hi st :
  NoDup (id <$> authorsRaw) → lo ≤ hi →
  viewConsistent authorsRaw st →
  yearMinAll st = lo → yearMaxAll st = hi → lo ≤ currentYear st ≤ hi →
  clusterKeys st ≠ [] → NoDup (clusterKeys st) →
  (∀ sf, is_Some (clusterCenterMap st !! sf) ↔ sf ∈ clusterKeys st) →
  sessionInv authorsRaw lo hi (updateAll st).
Proof.
  intros Hids Hrange Hcons Hmin Hmax Hyear Hne Hnd Hdom. unfold updateAll.
  destruct (showSankey st) eqn:Hshow.
  - repeat (split; [done|]). rewrite Hshow. done.
  - subst lo hi. by apply setYear_sessionInv.
Qed.

Lemma applyFilters_viewConsistent toLowerCase trim toNumber authorsRaw ui st :
  NoDup (id <$> authorsRaw) → viewConsistent authorsRaw st →
  viewConsistent authorsRaw
    (setFilteredAuthors st (applyFilters toLowerCase trim toNumber ui authorsRaw)).
Proof.
  intros Hids (_ & _ & Hnodes & Hnids).
  split; [|split; [|split]]; [| |exact Hnodes|exact Hnids].
  - intros a Ha. change (a ∈ applyFilters toLowerCase trim toNumber ui authorsRaw) in Ha.
    unfold applyFilters in Ha. by apply list_elem_of_filter in Ha as [_ Ha].
  - change (NoDup (id <$> applyFilters toLowerCase trim toNumber ui authorsRaw)).
    by apply NoDup_fmap_filter.
Qed.

Lemma handle_sessionInv toLowerCase trim toNumber authorsRaw lo hi ev st :
  NoDup (id <$> authorsRaw) → lo ≤ hi →
  sessionInv authorsRaw lo hi st →
  sessionInv authorsRaw lo hi (handle toLowerCase trim toNumber authorsRaw ev st).
Proof.
  intros Hids Hrange (Hcons & Hmin & Hmax & Hyear & Hne & Hnd & Hdom & Hcur).
  destruct ev as [m|ui| | |yr| | ]; unfold handle.
  - unfold modeClick. by apply updateAll_sessionInv.
  - unfold applyFiltersClick. subst lo hi.
    apply (setYear_sessionInv authorsRaw
             (setFilteredAuthors st (applyFilters toLowerCase trim toNumber ui authorsRaw)));
      [done| |done].
    by apply applyFilters_viewConsistent.
  - unfold resetFilters. apply updateAll_sessionInv; try done.
    destruct Hcons as (_ & _ & Hnodes & Hnids).
    split; [|split; [|split]]; [by intros a Ha|exact Hids|exact Hnodes|exact Hnids].
  - unfold autoplayTick. subst lo hi. by apply setYear_sessionInv.
  - subst lo hi. by apply setYear_sessionInv.
  - repeat (split; [done|]). intros Hshow. destruct (Hcur Hshow) as (Hn & Hk & Hc & _).
    split; [exact Hn|]. split; [exact Hk|]. split; [exact Hc|reflexivity].
  - by apply updateAll_sessionInv.
Qed.

Lemma initialState_sessionInv authorsRaw lo hi :
  NoDup (id <$> authorsRaw) → lo ≤ hi →
  sessionInv authorsRaw lo hi (initialState authorsRaw lo hi).
Proof.
  intros Hids Hrange.
  apply (setYear_sessionInv authorsRaw (initialVars authorsRaw lo hi)); [done| |done].
  split; [done|]. split; [exact Hids|]. split; [|constructor].
  intros n Hn. by apply elem_of_nil in Hn.
Qed.

Lemma run_sessionInv toLowerCase trim toNumber authorsRaw lo hi evs st :
  NoDup (id <$> authorsRaw) → lo ≤ hi →
  sessionInv authorsRaw lo hi st →
  sessionInv authorsRaw lo hi (run toLowerCase trim toNumber authorsRaw evs st).
Proof.
  intros Hids Hrange. revert st. induction evs as [|ev evs IH]; intros st Hinv; [done|].
  apply IH. by apply handle_sessionInv.
Qed.

(** X17: whatever the user does after the initial render, the filtered
    authors stay loaded authors with distinct ids, the nodes stand for
    loaded authors under distinct ids, the year range is unchanged and holds
    the current year, and the cluster keys are distinct, at least one, and
    exactly the names with a center. *)
Theorem session_invariant (toLowerCase trim : string → string) (toNumber : string → jsnum)
    (authorsRaw : list Author) (yearMin yearMax : Z) (evs : list Event) :
  NoDup (id <$> authorsRaw) → yearMin ≤ yearMax →
  let st := run toLowerCase trim toNumber authorsRaw evs
                (initialState authorsRaw yearMin yearMax) in
  viewConsistent authorsRaw st
  ∧ yearMinAll st = yearMin ∧ yearMaxAll st = yearMax
  ∧ yearMin ≤ currentYear st ≤ yearMax
  ∧ clusterKeys st ≠ [] ∧ NoDup (clusterKeys st)
  ∧ ∀ sf, is_Some (clusterCenterMap st !! sf) ↔ sf ∈ clusterKeys st.
Proof.
  intros Hids Hrange st.
  destruct (run_sessionInv toLowerCase trim toNumber authorsRaw yearMin yearMax evs
              (initialState authorsRaw yearMin yearMax) Hids Hrange
              (initialState_sessionInv authorsRaw yearMin yearMax Hids Hrange))
    as (Hcons & Hmin & Hmax & Hyear & Hne & Hnd & Hdom & _).
  done.
Qed.

Lemma session_invariant_witness :
  2020 ≤ currentYear (run (λ s, s) (λ s, s) (λ _, None) [precompute roundTripAuthor]
                          [ModeClick Year; VizToggle; AutoplayTick; ResetClick; VizToggle]
                          (initialState [precompute roundTripAuthor] 2020 2021)) ≤ 2021.
Proof.
  destruct (session_invariant (λ s, s) (λ s, s) (λ _, None) [precompute roundTripAuthor]
              2020 2021 [ModeClick Year; VizToggle; AutoplayTick; ResetClick; VizToggle])
    as (_ & _ & _ & Hyear & _).
  - apply NoDup_singleton.
  - lia.
  - exact Hyear.
Defined.

(** X18: whenever the force view is shown, whatever the user did before,
    it shows the current year, mode and population: one node per filtered
    author with the subfield and activity flag of the current year and mode,
    the cluster keys and centers of the current population, and the phantom
    edges of the current nodes. *)
Theorem force_view_current (toLowerCase trim : string → string) (toNumber : string → jsnum)
    (authorsRaw : list Author) (yearMin yearMax : Z) (evs : list Event) :
  NoDup (id <$> authorsRaw) → yearMin ≤ yearMax →
  let st := run toLowerCase trim toNumber authorsRaw evs
                (initialState authorsRaw yearMin yearMax) in
  showSankey st = false →
  nodes st ≡ₚ nodeOf st (currentYear st) <$> filteredAuthors st
  ∧ clusterKeys st = visibleOrUnknown st (currentYear st)
  ∧ clusterCenterMap st = setCenters (length (clusterKeys st)) 0 (clusterKeys st) ∅
  ∧ phantomData st = computePhantomsForYear st (currentYear st).
Proof.
  intros Hids Hrange st Hshow.
  destruct (run_sessionInv toLowerCase trim toNumber authorsRaw yearMin yearMax evs
              (initialState authorsRaw yearMin yearMax) Hids Hrange
              (initialState_sessionInv authorsRaw yearMin yearMax Hids Hrange))
    as (_ & _ & _ & _ & _ & _ & _ & Hcur).
  exact (Hcur Hshow).
Qed.

Lemma force_view_current_witness :
  length (nodes (run (λ s, s) (λ s, s) (λ _, None) [precompute roundTripAuthor]
                     [VizToggle; ModeClick Year; VizToggle; PhantomToggle]
                     (initialState [precompute roundTripAuthor] 2020 2021))) = 1%nat.
Proof.
  destruct (force_view_current (λ s, s) (λ s, s) (λ _, None) [precompute roundTripAuthor]
              2020 2021 [VizToggle; ModeClick Year; VizToggle; PhantomToggle])
    as (Hnodes & _).
  - apply NoDup_singleton.
  - lia.
  - reflexivity.
  - rewrite Hnodes. reflexivity.
Defined.

(** ** Loading *)

Lemma elem_of_numericKeys tbl y : y ∈ numericKeys tbl ↔ Some y ∈ tbl.*1.
Proof.
  unfold numericKeys. rewrite list_elem_of_omap, list_elem_of_fmap. split.
  - intros ([yk o] & Hin & Hy). simpl in Hy. subst yk. by exists (Some y, o).
  - intros ([yk o] & Hy & Hin). simpl in Hy. subst yk. by exists (Some y, o).
Qed.

Lemma elem_of_allYearsSet authorsRaw y :
  y ∈ allYearsSet authorsRaw ↔ ∃ a, a ∈ authorsRaw ∧ y ∈ numericKeys (yearly a).
Proof.
  assert (∀ (tbl : list (option Z * gmap string Z)) (s : gset Z),
            y ∈ foldl (λ s '(yk, _), match yk with Some y => {[y]} ∪ s | None => s end) s tbl
            ↔ y ∈ s ∨ y ∈ numericKeys tbl) as Hinner.
  { induction tbl as [|[[y'|] o] tbl IH]; intros s; simpl.
    - split; [by left|]. by intros [?|?%elem_of_nil].
    - rewrite IH. unfold numericKeys. simpl. rewrite elem_of_cons, elem_of_union,
        elem_of_singleton. tauto.
    - rewrite IH. done. }
  unfold allYearsSet.
  assert (∀ l (s : gset Z),
            y ∈ foldl (λ s a,
                         foldl (λ s '(yk, _),
                                  match yk with Some y => {[y]} ∪ s | None => s end)
                               s (yearly a)) s l
            ↔ y ∈ s ∨ ∃ a, a ∈ l ∧ y ∈ numericKeys (yearly a)) as Houter.
  { induction l as [|a l IH]; intros s; simpl.
    - split; [by left|]. intros [?|(a & ?%elem_of_nil & _)]; done.
    - rewrite IH, Hinner. split.
      + intros [[?|?]|(a' & Ha' & Hy)]; [by left|right; exists a|right; exists a'];
          (split; [|done]); [by left|by right].
      + intros [?|(a' & [->|Ha']%elem_of_cons & Hy)];
          [by left; left|by left; right|right; by exists a']. }
  rewrite Houter. split; [intros [?%elem_of_empty|?]; done|by right].
Qed.

Lemma d3_min_elem l : l ≠ [] → d3_min l ∈ l.
Proof.
  destruct l as [|v l]; [done|]. intros _. simpl.
  revert v. induction l as [|x l IH]; intros v; simpl; [by left|].
  pose proof (IH (Z.min v x)) as [Heq|Hin]%elem_of_cons.
  - rewrite Heq. destruct (Z.min_spec v x) as [[_ ->]|[_ ->]]; [by left|right; by left].
  - right; by right.
Qed.

Lemma d3_min_le l x : x ∈ l → d3_min l ≤ x.
Proof.
  destruct l as [|v l]; [by intros ?%elem_of_nil|]. simpl.
  assert (∀ l v, foldl Z.min v l ≤ v) as Hle.
  { clear. induction l as [|y l IH]; intros v; simpl; [lia|]. specialize (IH (Z.min v y)). lia. }
  revert v. induction l as [|y l IH]; intros v; simpl.
  - intros [Hx|?%elem_of_nil]%elem_of_cons; [lia|done].
  - intros [Hx|[Hx|Hin]%elem_of_cons]%elem_of_cons.
    + specialize (Hle l (Z.min v y)). lia.
    + specialize (Hle l (Z.min v y)). lia.
    + apply IH. by right.
Qed.

Lemma yearRange_Some authorsRaw yearMin yearMax :
  yearRange authorsRaw = Some (yearMin, yearMax) →
  yearMin ≤ yearMax
  ∧ (∃ a, a ∈ authorsRaw ∧ yearMin ∈ numericKeys (yearly a))
  ∧ (∃ a, a ∈ authorsRaw ∧ yearMax ∈ numericKeys (yearly a))
  ∧ ∀ a y, a ∈ authorsRaw → y ∈ numericKeys (yearly a) → yearMin ≤ y ≤ yearMax.
Proof.
  unfold yearRange. case_decide as Hsize; [done|]. intros [= <- <-].
  assert (elements (allYearsSet authorsRaw) ≠ []) as Hne.
  { intros Hnil. apply Hsize. apply elements_empty_inv in Hnil.
    by apply size_empty_iff. }
  pose proof (d3_min_elem _ Hne) as Hlo.
  pose proof (Math_max_elem _ Hne) as Hhi.
  change (Math_max (elements (allYearsSet authorsRaw)))
    with (d3_max (elements (allYearsSet authorsRaw))) in Hhi.
  split; [by apply d3_min_le|].
  apply elem_of_elements, elem_of_allYearsSet in Hlo, Hhi.
  split; [done|]. split; [done|].
  intros a y Ha Hy.
  assert (y ∈ elements (allYearsSet authorsRaw)) as Hin.
  { apply elem_of_elements, elem_of_allYearsSet. by exists a. }
  split; [by apply d3_min_le|by apply (Math_max_ge (elements (allYearsSet authorsRaw)))].
Qed.

(** X19: the script stops with no year range exactly when no author has a
    numeric year key; otherwise [yearMinAll] and [yearMaxAll] are the least
    and the greatest numeric year key of the authors' subfield tables. *)
Theorem year_range_spec (authorsRaw : list Author) :
  (yearRange authorsRaw = None
   ↔ ∀ a, a ∈ authorsRaw → numericKeys (yearly a) = [])
  ∧ ∀ yearMin yearMax, yearRange authorsRaw = Some (yearMin, yearMax) →
      yearMin ≤ yearMax
      ∧ (∃ a, a ∈ authorsRaw ∧ yearMin ∈ numericKeys (yearly a))
      ∧ (∃ a, a ∈ authorsRaw ∧ yearMax ∈ numericKeys (yearly a))
      ∧ ∀ a y, a ∈ authorsRaw → y ∈ numericKeys (yearly a) → yearMin ≤ y ≤ yearMax.
Proof.
  split.
  - unfold yearRange.
    case_decide as Hsize; split; try done.
    + intros _ a Ha. apply size_empty_inv in Hsize.
      destruct (numericKeys (yearly a)) as [|y l] eqn:Hkeys; [done|].
      assert (y ∈ allYearsSet authorsRaw) as Hy.
      { apply elem_of_allYearsSet. exists a. split; [done|]. rewrite Hkeys. by left. }
      rewrite (Hsize y) in Hy. by apply elem_of_empty in Hy.
    + intros Hnone. destruct Hsize. apply size_empty_iff. intros y.
      rewrite elem_of_allYearsSet. split; [|by intros ?%elem_of_empty].
      intros (a & Ha & Hy). rewrite (Hnone a Ha) in Hy. by apply elem_of_nil in Hy.
  - apply yearRange_Some.
Qed.

Lemma year_range_spec_witness :
  ∃ a, a ∈ [roundTripAuthor] ∧ 2020 ∈ numericKeys (yearly a).
Proof.
  destruct (year_range_spec [roundTripAuthor]) as [_ Hsome].
  destruct (Hsome 2020 2021) as (_ & Hmin & _); [by_evaluation|exact Hmin].
Defined.

Lemma cached_year_in_range authorsRaw yearMin yearMax a y :
  yearRange authorsRaw = Some (yearMin, yearMax) → a ∈ authorsRaw →
  is_Some (buildYear (yearly a) !! y) → yearMin ≤ y ≤ yearMax.
Proof.
  intros Hrange Ha Hy. destruct (yearRange_Some _ _ _ Hrange) as (_ & _ & _ & Hall).
  apply (Hall a); [done|]. by apply elem_of_numericKeys, buildYear_is_Some.
Qed.

(** X20: the year range covers the data of every author: before
    [yearMinAll] both modes give the empty mapping, after [yearMaxAll] the
    ['year'] mode gives the empty mapping and the cumulative mapping no
    longer changes, so clamping the year to the range loses nothing. *)
Theorem range_covers_data (authorsRaw : list Author) (yearMin yearMax : Z) (a : Author) :
  yearRange authorsRaw = Some (yearMin, yearMax) → a ∈ authorsRaw →
  (∀ Y mode, Y < yearMin → countsFor (precompute a) Y mode = ∅)
  ∧ (∀ Y, yearMax < Y → countsFor (precompute a) Y Year = ∅)
  ∧ (∀ Y, yearMax ≤ Y →
          countsFor (precompute a) Y Entire = countsFor (precompute a) yearMax Entire).
Proof.
  intros Hrange Ha.
  pose proof (λ y, cached_year_in_range authorsRaw yearMin yearMax a y Hrange Ha) as Hin.
  assert (∀ Y, ¬ yearMin ≤ Y ≤ yearMax → countsFor (precompute a) Y Year = ∅) as Hout.
  { intros Y HY. unfold countsFor. cbn [_cache precompute cache_year buildCache].
    destruct (buildYear (yearly a) !! Y) as [o|] eqn:Hlook; [|done].
    destruct HY. apply Hin. by eexists. }
  split; [|split].
  - intros Y mode HY. destruct mode; [apply Hout; lia|].
    unfold countsFor. cbn [_cache precompute cache_entire buildCache].
    apply lookupUpTo_none. intros y Hy. apply (proj1 (buildEntire_is_Some _ _)), Hin in Hy. lia.
  - intros Y HY. apply Hout. lia.
  - intros Y HY. unfold countsFor. cbn [_cache precompute cache_entire buildCache].
    unfold lookupUpTo.
    rewrite (filter_ext_elem (λ y, y ≤ Y) (λ y, y ≤ yearMax)); [done|].
    intros y Hy. apply (proj1 (elem_of_yearKeys _ _)), (proj1 (buildEntire_is_Some _ _)), Hin in Hy. lia.
Qed.

Lemma range_covers_data_witness :
  countsFor (precompute roundTripAuthor) 2019 Entire = ∅.
Proof.
  destruct (range_covers_data [roundTripAuthor] 2020 2021 roundTripAuthor) as (Hbefore & _).
  - by_evaluation.
  - by left.
  - apply Hbefore. lia.
Defined.

Lemma authorId_inj i j : authorId i = authorId j → i = j.
Proof.
  unfold authorId. intros Heq. simpl in Heq. injection Heq as Heq.
  apply pretty_nat_inj in Heq. lia.
Qed.

Lemma authorsRawOf_ids rawArray :
  id <$> authorsRawOf rawArray = authorId <$> seq 0 (length rawArray).
Proof.
  unfold authorsRawOf. rewrite <- list_fmap_compose, fmap_imap.
  rewrite <- imap_seq_0. apply imap_ext. done.
Qed.

Lemma authorsRawOf_NoDup rawArray : NoDup (id <$> authorsRawOf rawArray).
Proof.
  rewrite authorsRawOf_ids. apply NoDup_fmap_2; [|apply NoDup_seq].
  intros i j. apply authorId_inj.
Qed.

(** X21: the ids given to the authors are pairwise distinct: the author at
    position [i] of the array has the id [A<i+1>], and two positions never
    give the same id. *)
Theorem author_ids_distinct (rawArray : list Author) :
  NoDup (id <$> authorsRawOf rawArray)
  ∧ (∀ i a, authorsRawOf rawArray !! i = Some a → id a = authorId i)
  ∧ ∀ i j a b, authorsRawOf rawArray !! i = Some a → authorsRawOf rawArray !! j = Some b →
               id a = id b → i = j.
Proof.
  assert (∀ i a, authorsRawOf rawArray !! i = Some a → id a = authorId i) as Hid.
  { intros i a Hi. unfold authorsRawOf in Hi.
    rewrite list_lookup_fmap, list_lookup_imap in Hi.
    destruct (rawArray !! i) as [r|]; [|done]. simpl in Hi. by injection Hi as <-. }
  split; [apply authorsRawOf_NoDup|]. split; [done|].
  intros i j a b Hi Hj Heq. apply authorId_inj.
  by rewrite <- (Hid i a Hi), <- (Hid j b Hj).
Qed.

Lemma load_Some rawArray st0 :
  load rawArray = Some st0 →
  ∃ yearMin yearMax,
    yearRange (authorsRawOf rawArray) = Some (yearMin, yearMax)
    ∧ st0 = initialState (authorsRawOf rawArray) yearMin yearMax.
Proof.
  unfold load. case_decide; [done|]. cbv zeta.
  destruct (yearRange (authorsRawOf rawArray)) as [[lo hi]|]; [|done].
  intros [= <-]. by exists lo, hi.
Qed.

(** X22: for every raw array the script accepts and whatever the user does
    afterwards, the view stays consistent, the year range is the one
    discovered from the data and holds the current year, and the force view,
    when shown, is the one of the current year, mode and population. *)
Theorem loaded_session (toLowerCase trim : string → string) (toNumber : string → jsnum)
    (rawArray : list Author) (st0 : State) (evs : list Event) :
  load rawArray = Some st0 →
  let authorsRaw := authorsRawOf rawArray in
  let st := run toLowerCase trim toNumber authorsRaw evs st0 in
  viewConsistent authorsRaw st
  ∧ yearRange authorsRaw = Some (yearMinAll st, yearMaxAll st)
  ∧ yearMinAll st ≤ currentYear st ≤ yearMaxAll st
  ∧ (showSankey st = false → viewCurrent st).
Proof.
  intros (lo & hi & Hrange & ->)%load_Some. cbv zeta.
  destruct (yearRange_Some _ _ _ Hrange) as (Hle & _).
  destruct (run_sessionInv toLowerCase trim toNumber (authorsRawOf rawArray) lo hi evs
              (initialState (authorsRawOf rawArray) lo hi) (authorsRawOf_NoDup rawArray) Hle
              (initialState_sessionInv (authorsRawOf rawArray) lo hi
                 (authorsRawOf_NoDup rawArray) Hle))
    as (Hcons & Hmin & Hmax & Hyear & _ & _ & _ & Hcur).
  rewrite Hmin, Hmax. done.
Qed.

Lemma loaded_session_witness :
  viewConsistent (authorsRawOf [roundTripAuthor])
    (run (λ s, s) (λ s, s) (λ _, None) (authorsRawOf [roundTripAuthor])
         [ModeClick Year; AutoplayTick]
         (initialState (authorsRawOf [roundTripAuthor]) 2020 2021)).
Proof.
  destruct (loaded_session (λ s, s) (λ s, s) (λ _, None) [roundTripAuthor]
              (initialState (authorsRawOf [roundTripAuthor]) 2020 2021)
              [ModeClick Year; AutoplayTick]) as (Hcons & _).
  - unfold load. rewrite decide_False by done. cbv zeta.
    assert (yearRange (authorsRawOf [roundTripAuthor]) = Some (2020, 2021)) as ->
      by by_evaluation.
    reflexivity.
  - exact Hcons.
Defined.

(** ** Reading of the filter *)

Section FilterReadingProperties.
Variable toLowerCase : string → string.
Variable trim : string → string.
Variable toNumber : string → jsnum.

Lemma passesChecks_true checks :
  passesChecks trim toNumber checks = true
  ↔ Forall (λ '(op, val, numStr),
              trim numStr = EmptyString ∨ rowHolds op val (toNumber numStr)) checks.
Proof.
  induction checks as [|[[op val] numStr] checks IH]; [by split|].
  rewrite Forall_cons, <- IH. cbn [passesChecks]. unfold rowHolds.
  case_bool_decide as Hblank; [by intuition|].
  destruct (jsGe val (toNumber numStr)), (jsLe val (toNumber numStr)),
    (jsStrictEq val (toNumber numStr));
    repeat case_bool_decide; subst; cbn [andb negb];
    intuition (try discriminate; try congruence).
Qed.

Lemma textRejects_false input text :
  textRejects toLowerCase (toLowerCase (trim input)) text = false
  ↔ textPasses toLowerCase trim input text.
Proof.
  unfold textRejects, textPasses. cbv zeta.
  case_bool_decide as Hblank; cbn [negb andb]; [by intuition|].
  destruct (includes _ _); cbn [negb]; intuition (try discriminate; try congruence).
Qed.

Lemma filterPredicate_true ui a :
  filterPredicate toLowerCase trim toNumber ui a = true
  ↔ textPasses toLowerCase trim (nameFilter ui) (name a)
    ∧ textPasses toLowerCase trim (surnameFilter ui) (family_name a)
    ∧ textPasses toLowerCase trim (instFilter ui) (institution a)
    ∧ ∀ m, metricPasses trim toNumber ui a m.
Proof.
  rewrite <- !textRejects_false. unfold filterPredicate. cbv zeta.
  destruct (textRejects _ _ (name a)); [by intuition|].
  destruct (textRejects _ _ (family_name a)); [by intuition|].
  destruct (textRejects _ _ (institution a)); [by intuition|].
  rewrite passesChecks_true, !Forall_cons, Forall_nil. split.
  - intros (Hh & Hi & Hw & Hc & _). do 3 (split; [done|]). by intros [].
  - intros (_ & _ & _ & Hm). split; [apply (Hm HIndex)|].
    split; [apply (Hm I10Index)|]. split; [apply (Hm WorksCount)|].
    split; [apply (Hm CitedByCount)|done].
Qed.

(** X23: the chain of early returns of the filter is a conjunction: an
    author is kept exactly when each of the three text filters is blank or
    found in the lower-cased text, and each of the four numeric filters is
    blank or passes the comparison of its operator; the kept authors are
    the loaded authors with that property, in their order. *)
Theorem filter_is_conjunction (ui : FilterInputs) (authorsRaw : list Author) :
  (∀ a, filterPredicate toLowerCase trim toNumber ui a = true
        ↔ textPasses toLowerCase trim (nameFilter ui) (name a)
          ∧ textPasses toLowerCase trim (surnameFilter ui) (family_name a)
          ∧ textPasses toLowerCase trim (instFilter ui) (institution a)
          ∧ ∀ m, metricPasses trim toNumber ui a m)
  ∧ (∀ a, a ∈ applyFilters toLowerCase trim toNumber ui authorsRaw
          ↔ a ∈ authorsRaw ∧ filterPredicate toLowerCase trim toNumber ui a = true)
  ∧ applyFilters toLowerCase trim toNumber ui authorsRaw `sublist_of` authorsRaw.
Proof.
  split; [apply filterPredicate_true|]. split.
  - intros a. unfold applyFilters. rewrite list_elem_of_filter. tauto.
  - apply sublist_filter.
Qed.

(** X24: with every input empty, as after [Reset], [Apply] keeps every
    author, provided trimming and lower-casing the empty string give the
    empty string; a threshold that is not blank and converts to [NaN]
    empties the population under each of the three operators; under any
    other operator the row is ignored. *)
Theorem filter_edge_cases (ui : FilterInputs) (authorsRaw : list Author) :
  (trim EmptyString = EmptyString → toLowerCase EmptyString = EmptyString →
   applyFilters toLowerCase trim toNumber (blankForm ui) authorsRaw = authorsRaw)
  ∧ (∀ m, trim (trim (valOf m ui)) ≠ EmptyString →
          toNumber (trim (valOf m ui)) = None →
          opOf m ui ∈ [">="; "="; "<="]%string →
          applyFilters toLowerCase trim toNumber ui authorsRaw = [])
  ∧ (∀ m a, opOf m ui ∉ [">="; "="; "<="]%string → metricPasses trim toNumber ui a m).
Proof.
  split; [|split].
  - intros Htrim Hlower. unfold applyFilters.
    induction authorsRaw as [|a l IH]; [done|].
    rewrite filter_cons, IH, decide_True; [done|].
    apply filterPredicate_true. unfold textPasses, metricPasses. cbn [blankForm nameFilter
      surnameFilter instFilter]. rewrite !Htrim, !Hlower.
    do 3 (split; [by left|]). intros []; left; cbn [valOf blankForm hindex_val i10_val
      works_val cited_val]; by rewrite !Htrim.
  - intros m Hne Hnan Hop. unfold applyFilters.
    induction authorsRaw as [|a l IH]; [done|].
    rewrite filter_cons, IH, decide_False; [done|].
    rewrite filterPredicate_true. intros (_ & _ & _ & Hm).
    destruct (Hm m) as [Hblank|(Hge & Hle & Heq)]; [done|].
    rewrite Hnan in Hge, Hle, Heq.
    assert (∀ v, jsGe v None = false ∧ jsLe v None = false ∧ jsStrictEq v None = false)
      as Hcmp by (by intros [v|]).
    destruct (Hcmp (metricOf m a)) as (Hge' & Hle' & Heq').
    rewrite Hge' in Hge. rewrite Hle' in Hle. rewrite Heq' in Heq.
    apply elem_of_cons in Hop as [Hop|Hop]; [by specialize (Hge Hop)|].
    apply elem_of_cons in Hop as [Hop|Hop]; [by specialize (Heq Hop)|].
    apply list_elem_of_singleton in Hop. by specialize (Hle Hop).
  - intros m a Hop. right. unfold rowHolds.
    split; [|split]; intros Heq; destruct Hop; rewrite Heq.
    + by left.
    + right; right; by left.
    + right; by left.
Qed.
End FilterReadingProperties.

Lemma filter_edge_cases_witness :
  applyFilters (λ s, s) (λ s, s) (λ _, None) (blankForm hindexAtLeast20)
               [precompute roundTripAuthor]
  = [precompute roundTripAuthor].
Proof.
  destruct (filter_edge_cases (λ s, s) (λ s, s) (λ _, None) hindexAtLeast20
              [precompute roundTripAuthor]) as (Hblank & _).
  by apply Hblank.
Defined.

(** ** Where the nodes without a subfield go *)

Lemma centerAt_first N :
  center_x (centerAt 0 N) = centerX
  ∧ center_y (centerAt 0 N) = (centerY - clusterRadius)%R.
Proof.
  assert (slotAngle 0 N = (- (PI / 2))%R) as Hangle.
  { unfold slotAngle. cbn [INR]. unfold Rdiv. rewrite !Rmult_0_l. ring. }
  unfold centerAt. cbv zeta. cbn [center_x center_y]. rewrite Hangle.
  rewrite cos_neg, sin_neg, cos_PI2, sin_PI2. split; ring.
Qed.

Lemma setYear_first_center st year k0 :
  clusterKeys (setYear st year) !! 0%nat = Some k0 →
  clusterCenterMap (setYear st year) !! k0
  = Some (centerAt 0 (length (clusterKeys (setYear st year)))).
Proof.
  intros Hk0. rewrite setYear_clusterCenterMap.
  apply (setCenters_lookup _ _ 0 ∅ 0); [apply setYear_clusterKeys_NoDup|done].
Qed.

Lemma setYear_clusterKeys_qualifies st year sf :
  sf ∈ computeVisibleSubfields st (currentYear (setYear st year)) →
  clusterKeys (setYear st year) = computeVisibleSubfields st (currentYear (setYear st year)).
Proof.
  intros Hin. rewrite setYear_clusterKeys. unfold computeVisibleSubfields in *.
  destruct (merge_sort _ _); [by apply elem_of_nil in Hin|done].
Qed.

(** X25: after [setYear] the first cluster key sits at the top of the
    layout circle.  A node whose subfield is ["Unknown"] is pulled to that
    point when no subfield has a strictly positive count in the population,
    because ["Unknown"] is then the only cluster; when some subfield has one
    and ["Unknown"] has none, it has no center and the node is pulled to the
    middle of the canvas. *)
Theorem unknown_node_target (st : State) (year : Z) (n : Node) :
  node_subfield n = "Unknown"%string →
  let st' := setYear st year in
  let q := qualifies (filteredAuthors st') (currentYear st') (mainMode st') in
  (∀ k0, clusterKeys st' !! 0%nat = Some k0 →
         ∃ c, clusterCenterMap st' !! k0 = Some c
              ∧ center_x c = centerX ∧ center_y c = (centerY - clusterRadius)%R)
  ∧ ((∀ sf, ¬ q sf) →
     clusterKeys st' = ["Unknown"%string]
     ∧ targetX st' n = centerX ∧ targetY st' n = (centerY - clusterRadius)%R)
  ∧ ((∃ sf, q sf) → ¬ q "Unknown"%string →
     clusterCenterMap st' !! "Unknown"%string = None
     ∧ targetX st' n = centerX ∧ targetY st' n = centerY).
Proof.
  intros Hsub st' q.
  assert (∀ k0, clusterKeys st' !! 0%nat = Some k0 →
                ∃ c, clusterCenterMap st' !! k0 = Some c
                     ∧ center_x c = centerX ∧ center_y c = (centerY - clusterRadius)%R)
    as Hfirst.
  { intros k0 Hk0. eexists. split; [by apply setYear_first_center|].
    apply centerAt_first. }
  split; [exact Hfirst|]. split.
  - intros Hnone.
    assert (clusterKeys st' = ["Unknown"%string]) as Hkeys.
    { unfold st'. rewrite setYear_clusterKeys.
      destruct (merge_sort _ _) as [|sf l] eqn:Hsort; [done|].
      destruct (Hnone sf).
      apply (elem_of_computeVisibleSubfields st (currentYear (setYear st year))).
      unfold computeVisibleSubfields. rewrite Hsort. by left. }
    split; [done|].
    destruct (Hfirst "Unknown"%string) as (c & Hc & Hx & Hy); [by rewrite Hkeys|].
    unfold targetX, targetY. by rewrite Hsub, Hc.
  - intros [sf Hsf] Hunknown.
    assert (clusterCenterMap st' !! "Unknown"%string = None) as Hno.
    { destruct (clusterCenterMap st' !! "Unknown"%string) as [c|] eqn:Hc; [|done].
      destruct Hunknown.
      apply (elem_of_computeVisibleSubfields st (currentYear (setYear st year))).
      rewrite <- (setYear_clusterKeys_qualifies st year sf)
        by (by apply elem_of_computeVisibleSubfields).
      apply setYear_center_is_Some. by eexists. }
    split; [done|]. unfold targetX, targetY. by rewrite Hsub, Hno.
Qed.

Lemma unknown_node_target_witness :
  ∃ c, clusterCenterMap (setYear roundTripState 2021) !! "AI"%string = Some c
       ∧ center_x c = centerX ∧ center_y c = (centerY - clusterRadius)%R.
Proof.
  destruct (unknown_node_target roundTripState 2021
              {| node_id := "A1"; node_author := precompute roundTripAuthor;
                 node_subfield := "Unknown"; node_active := false |} eq_refl)
    as (Hfirst & _).
  apply Hfirst. by_evaluation.
Defined.

(** ** The force view of [js/sankey.js] *)

Lemma stepAngle_slotAngle i N : SankeyJs.stepAngle i N = slotAngle i N.
Proof. unfold SankeyJs.stepAngle, slotAngle, Rdiv. ring. Qed.

Lemma SankeyJs_centerAt_on_circle i N :
  ((center_x (SankeyJs.centerAt i N) - SankeyJs.centerX)²
   + (center_y (SankeyJs.centerAt i N) - SankeyJs.centerY)²
   = SankeyJs.rCluster²)%R.
Proof.
  unfold SankeyJs.centerAt. cbv zeta. cbn [center_x center_y].
  generalize (SankeyJs.stepAngle i N), SankeyJs.centerX, SankeyJs.centerY,
    SankeyJs.rCluster.
  intros a x y r. pose proof (sin2_cos2 a) as Hsc. unfold Rsqr in *.
  replace ((x + r * cos a - x) * (x + r * cos a - x)
           + (y + r * sin a - y) * (y + r * sin a - y))%R
    with (r * r * (sin a * sin a + cos a * cos a))%R by ring.
  rewrite Hsc. ring.
Qed.

Lemma SankeyJs_setCenters_lookup N sfs : ∀ i m j sf,
  NoDup sfs → sfs !! j = Some sf →
  SankeyJs.setCenters N i sfs m !! sf = Some (SankeyJs.centerAt (i + j) N).
Proof.
  induction sfs as [|sf0 sfs IH]; intros i m j sf Hnd Hj; [done|].
  apply NoDup_cons in Hnd as [Hsf0 Hnd]. destruct j as [|j]; simpl in *.
  - injection Hj as ->. clear IH.
    assert (∀ l k (m' : gmap string Center), sf ∉ l →
              SankeyJs.setCenters N k l m' !! sf = m' !! sf) as Hkeep.
    { induction l as [|x l IHl]; intros k m' Hx; [done|].
      apply not_elem_of_cons in Hx as [Hne Hx]. simpl.
      rewrite IHl by done. by rewrite lookup_insert_ne. }
    rewrite Hkeep by done. rewrite lookup_insert_eq. by rewrite Nat.add_0_r.
  - rewrite (IH (S i) _ j sf) by done. f_equal. f_equal. lia.
Qed.

Lemma present_direct_cached (authors : list Author) (year : Z) (mode : Mode) :
  Forall (λ a, NoDup (numericKeys (yearly a))) authors →
  foldl (λ present a,
           foldl (λ pr '(sf, cnt), if decide (cnt > 0) then {[sf]} ∪ pr else pr)
                 present (entries (countsForDirect a year mode)))
        (∅ : gset string) authors
  = presentSubfields (precompute <$> authors) year mode.
Proof.
  unfold presentSubfields. generalize (∅ : gset string).
  induction authors as [|a l IH]; intros s Hnd; [done|].
  apply Forall_cons in Hnd as [Ha Hl]. rewrite fmap_cons. cbn [foldl].
  rewrite (countsForDirect_precompute a year mode Ha). by apply IH.
Qed.

Lemma nodeView_direct_cached (st : State) (year : Z) (a : Author) :
  NoDup (numericKeys (yearly a)) →
  (id a, SankeyJs.mainSubfieldFor a year (mainMode st),
   SankeyJs.isActiveBy a year (mainMode st))
  = nodeView (nodeOf st year (precompute a)).
Proof.
  intros Hnd. unfold nodeView, nodeOf, SankeyJs.mainSubfieldFor, SankeyJs.isActiveBy,
    mainSubfieldFor, isActiveBy. cbn [node_id node_subfield node_active].
  by rewrite (countsForDirect_precompute a year (mainMode st) Hnd).
Qed.

Lemma labelPass_assigned keys s :
  ∃ s', SankeyJs.labelPass keys (Some s) = (Some s', false).
Proof.
  revert s. induction keys as [|d keys IH]; intros s; [by exists s|].
  cbn [SankeyJs.labelPass]. destruct (SankeyJs.shortNameOf d) as [s0|]; apply IH.
Qed.

(** The label callback throws exactly when [d_short] was never assigned
    and the first key is not a listed name; otherwise [d_short] exists
    afterwards, provided there is a key. *)
Lemma labelPass_spec keys d_short :
  ((SankeyJs.labelPass keys d_short).2 = true
   ↔ d_short = None ∧ ∃ d, keys !! 0%nat = Some d ∧ SankeyJs.shortNameOf d = None)
  ∧ ((SankeyJs.labelPass keys d_short).2 = true → (SankeyJs.labelPass keys d_short).1 = None)
  ∧ ((SankeyJs.labelPass keys d_short).2 = false → keys ≠ [] →
     is_Some (SankeyJs.labelPass keys d_short).1).
Proof.
  destruct keys as [|d keys].
  { cbn [SankeyJs.labelPass snd fst]. split; [|done].
    split; [done|]. by intros (_ & d & [=] & _). }
  cbn [SankeyJs.labelPass]. destruct (SankeyJs.shortNameOf d) as [s0|] eqn:Hshort.
  - destruct (labelPass_assigned keys s0) as [s' ->]. cbn [snd fst].
    split; [|split; [done|by eexists]].
    split; [done|]. intros (_ & d' & [= <-] & Hd'). congruence.
  - destruct d_short as [s|].
    + destruct (labelPass_assigned keys s) as [s' ->]. cbn [snd fst].
      split; [|split; [done|by eexists]]. split; [done|]. by intros [[=] _].
    + cbn [snd fst]. split; [|done]. split; [|done]. intros _. split; [done|]. by exists d.
Qed.

(** X26: [setYear] of [js/sankey.js] against [setYear] of [main_viz.js],
    on tables whose numeric year keys are distinct.  The two agree on the
    year, on the id, subfield and activity flag of the node of every author
    and on the angle of every subfield other than ["Unknown"]; the points
    differ, because [js/sankey.js] lays its circle out for a canvas of
    height [760] (middle [(540, 255)], radius [206.5]); [js/sankey.js]
    always adds the key ["Unknown"] and puts it in the middle of its canvas.
    The call throws, before the phantom data is set, exactly when the
    undeclared global [d_short] was never assigned and the first cluster key
    is not one of the twelve listed names. *)
Theorem sankeyjs_layout (st : State) (d_short : option string) (year : Z) :
  Forall (λ a, NoDup (numericKeys (yearly a))) (filteredAuthors st) →
  let out := SankeyJs.setYear st d_short year in
  let stS := out.1.1 in
  let stM := setYear (setFilteredAuthors st (precompute <$> filteredAuthors st)) year in
  currentYear stS = currentYear stM
  ∧ clusterKeys stS = setAdd "Unknown" (clusterKeys stM)
  ∧ (clusterCenterMap stS !! "Unknown"%string = Some SankeyJs.unknownCenter
     ∧ center_x SankeyJs.unknownCenter = 540%R
     ∧ center_y SankeyJs.unknownCenter = 255%R
     ∧ SankeyJs.rCluster = (413 / 2)%R)
  ∧ (∀ i sf, clusterKeys stM !! i = Some sf → sf ≠ "Unknown"%string →
       ∃ cS cM, clusterCenterMap stS !! sf = Some cS
                ∧ clusterCenterMap stM !! sf = Some cM
                ∧ center_angle cS = center_angle cM
                ∧ ((center_x cS - SankeyJs.centerX)² + (center_y cS - SankeyJs.centerY)²
                   = SankeyJs.rCluster²)%R)
  ∧ nodeView <$> nodes stS
    = nodeView <$> (nodeOf stM (currentYear stM) <$> filteredAuthors stM)
  ∧ (out.2 = true
     ↔ d_short = None
       ∧ ∃ d, clusterKeys stS !! 0%nat = Some d ∧ SankeyJs.shortNameOf d = None)
  ∧ (out.2 = true → phantomData stS = phantomData st ∧ out.1.2 = None)
  ∧ (out.2 = false →
     phantomData stS = SankeyJs.computePhantomsForYear stS (currentYear stS)
     ∧ is_Some out.1.2).
Proof.
  intros Hnd out stS stM.
  set (st3 := SankeyJs.beforeLabels st year).
  set (y := currentYear stM).
  set (visible := match computeVisibleSubfields stM y with
                  | [] => ["Unknown"%string]
                  | l => l
                  end).
  assert (clusterKeys stM = visible) as HkeysM by reflexivity.
  assert (clusterCenterMap stM = setCenters (length visible) 0 visible ∅) as HmapM
    by reflexivity.
  assert (NoDup visible) as Hvnd.
  { rewrite <- HkeysM. apply setYear_clusterKeys_NoDup. }
  assert (visible ≠ []) as Hvne.
  { rewrite <- HkeysM. apply setYear_clusterKeys_nonempty. }
  assert (match SankeyJs.computeVisibleSubfields st3 y with
          | [] => ["Unknown"%string]
          | l => l
          end = visible) as Hvis.
  { unfold visible, SankeyJs.computeVisibleSubfields, computeVisibleSubfields.
    change (filteredAuthors st3) with (filteredAuthors st).
    change (mainMode st3) with (mainMode st).
    change (filteredAuthors stM) with (precompute <$> filteredAuthors st).
    change (mainMode stM) with (mainMode st).
    by rewrite present_direct_cached. }
  assert (clusterKeys st3 = setAdd "Unknown" visible) as Hkeys3.
  { rewrite <- Hvis. reflexivity. }
  assert (clusterCenterMap st3
          = <["Unknown"%string := SankeyJs.unknownCenter]>
              (SankeyJs.setCenters (length visible) 0 visible ∅)) as Hmap3.
  { rewrite <- Hvis. reflexivity. }
  assert (nodeView <$> nodes st3
          = nodeView <$> (nodeOf stM y <$> filteredAuthors stM)) as Hnodes3.
  { change (nodes st3) with (SankeyJs.nodeOf st3 <$> filteredAuthors st).
    change (filteredAuthors stM) with (precompute <$> filteredAuthors st).
    rewrite <- !list_fmap_compose.
    apply Forall_fmap_ext. eapply Forall_impl; [exact Hnd|].
    intros a Ha. cbn [compose].
    rewrite <- (nodeView_direct_cached stM y a Ha). reflexivity. }
  assert (clusterKeys st3 !! 0%nat = visible !! 0%nat) as Hfirst.
  { rewrite Hkeys3. unfold setAdd. destruct (decide _); [done|].
    destruct visible; [done|reflexivity]. }
  destruct (labelPass_spec (clusterKeys st3) d_short) as (Hthrow & Hnone & Hsome).
  assert (clusterKeys st3 ≠ []) as Hkne.
  { intros Hnil. rewrite Hnil in Hfirst. by destruct visible. }
  assert (currentYear stS = y ∧ clusterKeys stS = clusterKeys st3
          ∧ clusterCenterMap stS = clusterCenterMap st3 ∧ nodes stS = nodes st3
          ∧ out.2 = (SankeyJs.labelPass (clusterKeys st3) d_short).2
          ∧ out.1.2 = (SankeyJs.labelPass (clusterKeys st3) d_short).1
          ∧ (out.2 = true → phantomData stS = phantomData st)
          ∧ (out.2 = false →
             phantomData stS = SankeyJs.computePhantomsForYear stS (currentYear stS)))
    as (HyS & HkS & HmS & HnS & Hout2 & Hout1 & HpT & HpF).
  { unfold stS, out, SankeyJs.setYear. cbv zeta. fold st3.
    destruct (SankeyJs.labelPass (clusterKeys st3) d_short) as [ds' [|]];
      cbn [fst snd]; do 6 (split; [reflexivity|]);
      (split; [intros Ht|intros Hf]); try discriminate; reflexivity. }
  rewrite HyS, HkS, HmS, HnS, Hout2, Hout1 in *. clear HyS HkS HmS HnS Hout2 Hout1.
  split; [done|]. split; [by rewrite Hkeys3, HkeysM|]. split.
  { split; [by rewrite Hmap3, lookup_insert_eq|].
    unfold SankeyJs.unknownCenter, SankeyJs.centerX, SankeyJs.centerY, SankeyJs.rCluster.
    cbn [center_x center_y].
    change (IZR SankeyJs.innerW) with 1080%R. change (IZR SankeyJs.innerH) with 590%R.
    change (IZR (Z.min SankeyJs.innerW SankeyJs.innerH)) with 590%R.
    repeat split; lra. }
  split.
  { intros i sf Hi Hsf. rewrite HkeysM in Hi.
    exists (SankeyJs.centerAt i (length visible)), (centerAt i (length visible)).
    split; [|split; [|split]].
    - rewrite Hmap3, lookup_insert_ne by done.
      by apply (SankeyJs_setCenters_lookup _ _ 0 ∅ i).
    - rewrite HmapM. by apply (setCenters_lookup _ _ 0 ∅ i).
    - apply stepAngle_slotAngle.
    - apply SankeyJs_centerAt_on_circle. }
  split; [done|]. split; [exact Hthrow|].
  split; [intros Ht; split; [by apply HpT|by apply Hnone]|].
  intros Hf. split; [by apply HpF|by apply Hsome].
Qed.

Lemma sankeyjs_layout_witness :
  clusterCenterMap (SankeyJs.setYear roundTripState None 2021).1.1 !! "Unknown"%string
  = Some SankeyJs.unknownCenter
  ∧ (SankeyJs.setYear roundTripState None 2021).2 = true.
Proof.
  destruct (sankeyjs_layout roundTripState None 2021) as (_ & _ & (Hunknown & _) & _ & _ & Hthrow & _).
  - repeat constructor; by_evaluation.
  - split; [exact Hunknown|]. apply Hthrow. split; [done|].
    exists "AI"%string. split; by_evaluation.
Defined.

(** ** The group metric of the flow view *)






